(** * Segment ID generator: a shallow embedding of
      [internal/generator/segment.go] and the properties of its
      double-buffered allocator.

    The Go code keeps two [atomic.Pointer[Segment]] slots, a loading flag
    and a cursor per segment that is advanced with [atomic.AddInt64].  The
    embedding keeps the segments in a heap (a list indexed by address) so
    that a pointer held by one caller and the slot of the generator can
    alias the same cursor, and gives two readings of the code:

    - a sequential one, where every function runs to completion and the
      world is passed from call to call;
    - an interleaved one, a machine whose steps are the individual atomic
      accesses of the Go code, driven by a schedule. *)

From Stdlib Require Import ZArith Lia Bool.
From Stdlib Require Import Floats.SpecFloat.
From stdpp Require Import base option list sorting.

Local Open Scope Z_scope.

(** ** Machine integers *)

Module Int64.

Definition min_int : Z := - 2 ^ 63.
Definition max_int : Z := 2 ^ 63 - 1.

(** Two's complement wrap-around of a mathematical integer. *)
Definition wrap (z : Z) : Z := (z + 2 ^ 63) mod 2 ^ 64 - 2 ^ 63.

Definition in_range (z : Z) : Prop := min_int <= z <= max_int.

Definition add (a b : Z) : Z := wrap (a + b).
Definition sub (a b : Z) : Z := wrap (a - b).

End Int64.

(** ** float64, as far as [shouldLoadNext] uses it

    IEEE 754 binary64 through the executable specification of the standard
    library: conversion from an integer and division round to nearest, ties
    to even. *)

Module Float64.

Definition prec : Z := 53.
Definition emax : Z := 1024.

Definition t := spec_float.

(** [float64(x)] for an [int64] x. *)
Definition of_int64 (x : Z) : t := binary_normalize prec emax x 0 false.

Definition div (x y : t) : t := SFdiv prec emax x y.

(** [x >= y]; false as soon as one side is NaN. *)
Definition geb (x y : t) : bool := SFleb y x.

(** The constant [0.8] as a float64: 0x3FE999999999999A. *)
Definition c0_8 : t := S754_finite false 7205759403792794 (-53).

End Float64.

(** ** Data model *)

(** [type Segment struct { Min, Max, Current int64 }] *)
Record Segment : Type := mkSegment {
  Min : Z;
  Max : Z;
  Current : Z
}.

(** A [*Segment]: [None] is [nil], [Some a] the object at address [a]. *)
Abbreviation addr := nat (only parsing).
Abbreviation ptr := (option nat) (only parsing).

Definition is_nil (p : ptr) : bool :=
  match p with None => true | Some _ => false end.

(** [type SegmentIDGenerator struct].  [heap] holds the [Segment] objects
    created by [&Segment{...}]; an object is never freed while a pointer to
    it exists, so addresses only grow.  [mongoClient] is the connection to
    the store, which is a field of [World] below; [bizTag] only names the
    document of the store and is left out. *)
Record SegmentIDGenerator : Type := mkGenerator {
  heap : list Segment;
  currentSegment : ptr;
  nextSegment : ptr;
  step : Z;
  loadingFlag : bool
}.

(** The errors the package builds with [fmt.Errorf], one constructor per
    format string. *)
Inductive error : Type :=
| ErrConnect                         (* "connect mongodb failed: %v" *)
| ErrNoSegment                       (* "no available segment" *)
| ErrSwitch (cause : error)          (* "failed to switch segment: %v" *)
| ErrAfterRetry                      (* "failed to generate id after retry" *)
| ErrSwitchRetries (n : Z) (cause : error)
                                     (* "switch segment failed after %d retries: %v" *)
| ErrLoadNext                        (* "failed to load next segment" *)
| ErrLoadSegment                     (* "load segment failed: %v" *)
| ErrInvalidMaxId (maxID : Z)        (* "invalid maxId: %d" *)
| ErrNilDeref.                       (* a dereference outside the heap: Go has
                                        no dangling pointers, the case only
                                        makes the model total *)

Inductive result (A : Type) : Type :=
| Ok (a : A)
| Err (e : error).
Arguments Ok {A} a.
Arguments Err {A} e.

(** What [FindOneAndUpdate(...).Decode(&result)] gives back: an error
    (time-out, connection, decoding) or the [maxId] of the document after
    the [$inc]. *)
Inductive StoreReply : Type :=
| StoreErr
| StoreOk (maxID : Z).

(** Everything a call can read or change: the generator, the store (the
    reply to the k-th round trip, and how many round trips were made), the
    durations handed to [time.Sleep] in milliseconds (oldest first) and the
    number of goroutines started with [go g.loadNextSegment()] (the
    sequential reading takes one off the count when it runs it). *)
Record World : Type := mkWorld {
  gen : SegmentIDGenerator;
  store : nat -> StoreReply;
  store_calls : nat;
  slept : list Z;
  spawned : nat
}.

(** *** Field updates *)

Definition set_heap (h : list Segment) (g : SegmentIDGenerator) :=
  mkGenerator h (currentSegment g) (nextSegment g) (step g) (loadingFlag g).
Definition set_currentSegment (p : ptr) (g : SegmentIDGenerator) :=
  mkGenerator (heap g) p (nextSegment g) (step g) (loadingFlag g).
Definition set_nextSegment (p : ptr) (g : SegmentIDGenerator) :=
  mkGenerator (heap g) (currentSegment g) p (step g) (loadingFlag g).
Definition set_loadingFlag (b : bool) (g : SegmentIDGenerator) :=
  mkGenerator (heap g) (currentSegment g) (nextSegment g) (step g) b.

Definition with_gen (f : SegmentIDGenerator -> SegmentIDGenerator) (w : World) :=
  mkWorld (f (gen w)) (store w) (store_calls w) (slept w) (spawned w).

(** ** Primitive effects *)

(** [atomic.AddInt64(&p.Current, delta)]: the new value, and the heap with
    the cursor advanced. *)
Definition AddInt64_Current (p : addr) (delta : Z) (w : World)
  : option (Z * World) :=
  match heap (gen w) !! p with
  | None => None
  | Some s =>
      let v := Int64.add (Current s) delta in
      Some (v, with_gen (set_heap (<[p := mkSegment (Min s) (Max s) v]> (heap (gen w)))) w)
  end.

(** [&Segment{...}]: a fresh object, at the first free address. *)
Definition alloc (s : Segment) (w : World) : addr * World :=
  (length (heap (gen w)), with_gen (set_heap (heap (gen w) ++ [s])) w).

(** One round trip to the store. *)
Definition FindOneAndUpdate (w : World) : StoreReply * World :=
  (store w (store_calls w),
   mkWorld (gen w) (store w) (S (store_calls w)) (slept w) (spawned w)).

(** [time.Sleep(time.Millisecond * ms)] *)
Definition Sleep (ms : Z) (w : World) : World :=
  mkWorld (gen w) (store w) (store_calls w) (slept w ++ [ms]) (spawned w).

(** [go g.loadNextSegment()], in the sequential reading: the goroutine is
    counted and runs later, see [background]. *)
Definition go_loadNextSegment (w : World) : World :=
  mkWorld (gen w) (store w) (store_calls w) (slept w) (S (spawned w)).

(** The first conjunct of the [return] of [shouldLoadNext], on the segment
    as it is read:
    [used := Current - Min + 1; total := Max - Min + 1;
     float64(used)/float64(total) >= 0.8]. *)
Definition usage_reached (s : Segment) : bool :=
  let used := Int64.add (Int64.sub (Current s) (Min s)) 1 in
  let total := Int64.add (Int64.sub (Max s) (Min s)) 1 in
  Float64.geb (Float64.div (Float64.of_int64 used) (Float64.of_int64 total))
              Float64.c0_8.

(** ** The sequential reading *)

Module Seq.

(** [func (g *SegmentIDGenerator) loadNextSegment() error] *)
Definition loadNextSegment (w : World) : option error * World :=
  if loadingFlag (gen w) then
    (* CompareAndSwap(false, true) fails *)
    (None, w)
  else
    let w := with_gen (set_loadingFlag true) w in
    let release := with_gen (set_loadingFlag false) in  (* the deferred Store(false) *)
    let '(reply, w) := FindOneAndUpdate w in
    match reply with
    | StoreErr => (Some ErrLoadSegment, release w)
    | StoreOk maxID =>
        if maxID <=? 0 then (Some (ErrInvalidMaxId maxID), release w)
        else
          let newSegment :=
            mkSegment (Int64.add (Int64.sub maxID (step (gen w))) 1)
                      maxID
                      (Int64.sub maxID (step (gen w))) in
          let '(a, w) := alloc newSegment w in
          let w := with_gen (set_nextSegment (Some a)) w in
          (None, release w)
    end.

(** [func (g *SegmentIDGenerator) shouldLoadNext(segment *Segment) bool] *)
Definition shouldLoadNext (segment : ptr) (w : World) : bool :=
  match segment with
  | None => true
  | Some p =>
      match heap (gen w) !! p with
      | None => false       (* outside the heap: no such pointer in Go *)
      | Some s =>
          usage_reached s
          && is_nil (nextSegment (gen w))
          && negb (loadingFlag (gen w))
      end
  end.

Definition maxRetries : nat := 3.

(** The [for i := 0; i < maxRetries; i++] of [switchSegment], entered at
    index [i] with [n] iterations left.  [Some err] is a [return err]
    from inside the loop, [None] means the loop was left (by [break] or
    because [i] reached [maxRetries]). *)
Fixpoint switch_loop (n i : nat) (w : World) : option error * World :=
  match n with
  | O => (None, w)
  | S n' =>
      if negb (is_nil (nextSegment (gen w))) then (None, w)
      else
        let '(err, w) := loadNextSegment w in
        match err with
        | Some e =>
            if (i =? maxRetries - 1)%nat
            then (Some (ErrSwitchRetries (Z.of_nat maxRetries) e), w)
            else switch_loop n' (S i) (Sleep (100 * (Z.of_nat i + 1)) w)
        | None => switch_loop n' (S i) w
        end
  end.

(** [func (g *SegmentIDGenerator) switchSegment() error] *)
Definition switchSegment (w : World) : option error * World :=
  let '(err, w) := switch_loop maxRetries 0 w in
  match err with
  | Some e => (Some e, w)
  | None =>
      if is_nil (nextSegment (gen w)) then (Some ErrLoadNext, w)
      else
        let w := with_gen (set_currentSegment (nextSegment (gen w))) w in
        let w := with_gen (set_nextSegment None) w in
        (None, w)
  end.

(** The [for i := 0; i < 2; i++] of [NextID], with [n] iterations left. *)
Fixpoint NextID_loop (n : nat) (w : World) : result Z * World :=
  match n with
  | O => (Err ErrAfterRetry, w)
  | S n' =>
      match currentSegment (gen w) with
      | None => (Err ErrNoSegment, w)
      | Some current =>
          match AddInt64_Current current 1 w with
          | None => (Err ErrNilDeref, w)
          | Some (id, w) =>
              match heap (gen w) !! current with
              | None => (Err ErrNilDeref, w)
              | Some s =>
                  if id <=? Max s then
                    let w := if shouldLoadNext (Some current) w
                             then go_loadNextSegment w else w in
                    (Ok id, w)
                  else
                    let '(err, w) := switchSegment w in
                    match err with
                    | Some e => (Err (ErrSwitch e), w)
                    | None => NextID_loop n' w
                    end
              end
          end
      end
  end.

(** [func (g *SegmentIDGenerator) NextID() (int64, error)] *)
Definition NextID (w : World) : result Z * World := NextID_loop 2 w.

(** [func NewSegmentIDGenerator(mongoURI, bizTag string)], which returns
    the generator or an error.  [connected] tells whether
    [mongo.Connect] succeeded; [st] is the store behind the URI. *)
Definition NewSegmentIDGenerator (connected : bool) (st : nat -> StoreReply)
  : result World :=
  if negb connected then Err ErrConnect
  else
    let w := mkWorld (mkGenerator [] None None 1000 false) st 0 [] 0 in
    let '(err, w) := loadNextSegment w in
    match err with
    | Some e => Err e
    | None =>
        let w := with_gen (set_currentSegment (nextSegment (gen w))) w in
        let w := with_gen (set_nextSegment None) w in
        Ok w
    end.

(** A goroutine started by [go g.loadNextSegment()] runs, alone, and its
    error is dropped. *)
Definition background (w : World) : World :=
  match spawned w with
  | O => w
  | S k =>
      let w := mkWorld (gen w) (store w) (store_calls w) (slept w) k in
      snd (loadNextSegment w)
  end.

End Seq.

(** The world after one round trip to the store that changed nothing in
    the generator. *)
Definition tick (w : World) : World :=
  mkWorld (gen w) (store w) (S (store_calls w)) (slept w) (spawned w).

(** ** The interleaved reading

    A caller of [NextID] and a goroutine started with [go] are threads.  A
    thread is a program point of the Go code together with its local
    variables; one step of a thread is one access to the shared state (an
    atomic load, store, add or compare-and-swap, a round trip to the store,
    a sleep, a [go]), followed by the local computation up to the next
    access.  A schedule decides which thread moves. *)

Module Conc.

(** Who called [loadNextSegment]: iteration [k] of the loop of
    [switchSegment], itself called from iteration [i] of the loop of
    [NextID]; or a [go] statement. *)
Inductive caller : Type :=
| FromSwitch (k i : nat)
| FromGo.

Inductive pc : Type :=
(* NextID, iteration i *)
| NLoad (i : nat)                       (* current := g.currentSegment.Load() *)
| NAdd (i : nat) (current : addr)       (* id := atomic.AddInt64(&current.Current, 1) *)
(* shouldLoadNext(current), then the go statement and return id *)
| NShouldCurrent (current : addr) (id : Z)  (* reads segment.Current *)
| NShouldNext (id : Z)                  (* g.nextSegment.Load() == nil *)
| NShouldFlag (id : Z)                  (* !g.loadingFlag.Load() *)
| NGo (id : Z)                          (* go g.loadNextSegment() *)
(* switchSegment, iteration k of its loop *)
| SCheck (k i : nat)                    (* if g.nextSegment.Load() != nil { break } *)
| SSleep (k i : nat)                    (* time.Sleep(...) ; continue *)
| SAfter (i : nat)                      (* if g.nextSegment.Load() == nil *)
| SPromoteLoad (i : nat)                (* g.nextSegment.Load(), the argument of Store *)
| SPromoteStore (i : nat) (p : ptr)     (* g.currentSegment.Store(p) *)
| SClear (i : nat)                      (* g.nextSegment.Store(nil) *)
(* loadNextSegment *)
| LCas (c : caller)                     (* g.loadingFlag.CompareAndSwap(false, true) *)
| LFetch (c : caller)                   (* FindOneAndUpdate(...).Decode(&result) *)
| LPublish (c : caller) (maxID : Z)     (* g.nextSegment.Store(newSegment) *)
| LRelease (c : caller) (r : option error)  (* deferred g.loadingFlag.Store(false) *)
(* finished *)
| Done (r : result Z)                   (* NextID returned r *)
| Exited.                               (* the goroutine ended *)

(** The head of the loop of [NextID]: [i < 2]. *)
Definition NextID_iter (i : nat) : pc :=
  if (i <? 2)%nat then NLoad i else Done (Err ErrAfterRetry).

(** The head of the loop of [switchSegment]: [k < maxRetries]. *)
Definition switch_iter (k i : nat) : pc :=
  if (k <? Seq.maxRetries)%nat then SCheck k i else SAfter i.

(** [switchSegment] returns [r] to iteration [i] of [NextID]. *)
Definition ret_switch (i : nat) (r : option error) : pc :=
  match r with
  | Some e => Done (Err (ErrSwitch e))
  | None => NextID_iter (S i)
  end.

(** [loadNextSegment] returns [r] to its caller. *)
Definition ret_load (c : caller) (r : option error) : pc :=
  match c with
  | FromGo => Exited
  | FromSwitch k i =>
      match r with
      | Some e =>
          if (k =? Seq.maxRetries - 1)%nat
          then ret_switch i (Some (ErrSwitchRetries (Z.of_nat Seq.maxRetries) e))
          else SSleep k i
      | None => switch_iter (S k) i
      end
  end.

(** One step of a thread: its next program point, the world after the
    access, and the goroutines it starts. *)
Definition step_thread (t : pc) (w : World) : pc * World * list pc :=
  match t with
  | NLoad i =>
      match currentSegment (gen w) with
      | None => (Done (Err ErrNoSegment), w, [])
      | Some current => (NAdd i current, w, [])
      end
  | NAdd i current =>
      match AddInt64_Current current 1 w with
      | None => (Done (Err ErrNilDeref), w, [])
      | Some (id, w) =>
          match heap (gen w) !! current with
          | None => (Done (Err ErrNilDeref), w, [])
          | Some s =>
              if id <=? Max s then (NShouldCurrent current id, w, [])
              else (switch_iter 0 i, w, [])
          end
      end
  | NShouldCurrent current id =>
      match heap (gen w) !! current with
      | None => (Done (Err ErrNilDeref), w, [])
      | Some s =>
          if usage_reached s then (NShouldNext id, w, [])
          else (Done (Ok id), w, [])
      end
  | NShouldNext id =>
      if is_nil (nextSegment (gen w)) then (NShouldFlag id, w, [])
      else (Done (Ok id), w, [])
  | NShouldFlag id =>
      if negb (loadingFlag (gen w)) then (NGo id, w, [])
      else (Done (Ok id), w, [])
  | NGo id => (Done (Ok id), go_loadNextSegment w, [LCas FromGo])
  | SCheck k i =>
      if negb (is_nil (nextSegment (gen w))) then (SAfter i, w, [])
      else (LCas (FromSwitch k i), w, [])
  | SSleep k i =>
      (switch_iter (S k) i, Sleep (100 * (Z.of_nat k + 1)) w, [])
  | SAfter i =>
      if is_nil (nextSegment (gen w)) then (ret_switch i (Some ErrLoadNext), w, [])
      else (SPromoteLoad i, w, [])
  | SPromoteLoad i => (SPromoteStore i (nextSegment (gen w)), w, [])
  | SPromoteStore i p => (SClear i, with_gen (set_currentSegment p) w, [])
  | SClear i => (ret_switch i None, with_gen (set_nextSegment None) w, [])
  | LCas c =>
      if loadingFlag (gen w) then (ret_load c None, w, [])
      else (LFetch c, with_gen (set_loadingFlag true) w, [])
  | LFetch c =>
      let '(reply, w) := FindOneAndUpdate w in
      match reply with
      | StoreErr => (LRelease c (Some ErrLoadSegment), w, [])
      | StoreOk maxID =>
          if maxID <=? 0 then (LRelease c (Some (ErrInvalidMaxId maxID)), w, [])
          else (LPublish c maxID, w, [])
      end
  | LPublish c maxID =>
      let newSegment :=
        mkSegment (Int64.add (Int64.sub maxID (step (gen w))) 1)
                  maxID
                  (Int64.sub maxID (step (gen w))) in
      let '(a, w) := alloc newSegment w in
      (LRelease c None, with_gen (set_nextSegment (Some a)) w, [])
  | LRelease c r => (ret_load c r, with_gen (set_loadingFlag false) w, [])
  | Done r => (Done r, w, [])
  | Exited => (Exited, w, [])
  end.

(** The same steps as a relation, one rule per branch of [step_thread],
    for proofs by case analysis.  [bumped] is the world after the atomic
    add on the cursor of [s] at address [a], [published] the world after
    the new segment built from [maxID] was stored in the standby slot. *)
Definition bumped (a : addr) (s : Segment) (w : World) : World :=
  with_gen (set_heap (<[a := mkSegment (Min s) (Max s) (Int64.add (Current s) 1)]>
                        (heap (gen w)))) w.

Definition published (maxID : Z) (w : World) : World :=
  with_gen (set_nextSegment (Some (length (heap (gen w)))))
    (with_gen (set_heap (heap (gen w) ++
       [mkSegment (Int64.add (Int64.sub maxID (step (gen w))) 1)
                  maxID
                  (Int64.sub maxID (step (gen w)))])) w).

Inductive trans (w : World) : pc -> pc * World * list pc -> Prop :=
| T_NLoad_nil i :
    currentSegment (gen w) = None ->
    trans w (NLoad i) (Done (Err ErrNoSegment), w, [])
| T_NLoad i a :
    currentSegment (gen w) = Some a ->
    trans w (NLoad i) (NAdd i a, w, [])
| T_NAdd_dangling i a :
    heap (gen w) !! a = None ->
    trans w (NAdd i a) (Done (Err ErrNilDeref), w, [])
| T_NAdd_claim i a s :
    heap (gen w) !! a = Some s ->
    Int64.add (Current s) 1 <= Max s ->
    trans w (NAdd i a)
          (NShouldCurrent a (Int64.add (Current s) 1), bumped a s w, [])
| T_NAdd_exhausted i a s :
    heap (gen w) !! a = Some s ->
    Max s < Int64.add (Current s) 1 ->
    trans w (NAdd i a) (switch_iter 0 i, bumped a s w, [])
| T_Should_dangling a id :
    heap (gen w) !! a = None ->
    trans w (NShouldCurrent a id) (Done (Err ErrNilDeref), w, [])
| T_Should_below a id s :
    heap (gen w) !! a = Some s ->
    usage_reached s = false ->
    trans w (NShouldCurrent a id) (Done (Ok id), w, [])
| T_Should_reached a id s :
    heap (gen w) !! a = Some s ->
    usage_reached s = true ->
    trans w (NShouldCurrent a id) (NShouldNext id, w, [])
| T_ShouldNext_nil id :
    nextSegment (gen w) = None ->
    trans w (NShouldNext id) (NShouldFlag id, w, [])
| T_ShouldNext_set id p :
    nextSegment (gen w) = Some p ->
    trans w (NShouldNext id) (Done (Ok id), w, [])
| T_ShouldFlag_free id :
    loadingFlag (gen w) = false ->
    trans w (NShouldFlag id) (NGo id, w, [])
| T_ShouldFlag_held id :
    loadingFlag (gen w) = true ->
    trans w (NShouldFlag id) (Done (Ok id), w, [])
| T_Go id :
    trans w (NGo id) (Done (Ok id), go_loadNextSegment w, [LCas FromGo])
| T_SCheck_break k i p :
    nextSegment (gen w) = Some p ->
    trans w (SCheck k i) (SAfter i, w, [])
| T_SCheck_load k i :
    nextSegment (gen w) = None ->
    trans w (SCheck k i) (LCas (FromSwitch k i), w, [])
| T_SSleep k i :
    trans w (SSleep k i)
          (switch_iter (S k) i, Sleep (100 * (Z.of_nat k + 1)) w, [])
| T_SAfter_nil i :
    nextSegment (gen w) = None ->
    trans w (SAfter i) (ret_switch i (Some ErrLoadNext), w, [])
| T_SAfter_set i p :
    nextSegment (gen w) = Some p ->
    trans w (SAfter i) (SPromoteLoad i, w, [])
| T_SPromoteLoad i :
    trans w (SPromoteLoad i) (SPromoteStore i (nextSegment (gen w)), w, [])
| T_SPromoteStore i p :
    trans w (SPromoteStore i p) (SClear i, with_gen (set_currentSegment p) w, [])
| T_SClear i :
    trans w (SClear i) (ret_switch i None, with_gen (set_nextSegment None) w, [])
| T_LCas_held c :
    loadingFlag (gen w) = true ->
    trans w (LCas c) (ret_load c None, w, [])
| T_LCas_won c :
    loadingFlag (gen w) = false ->
    trans w (LCas c) (LFetch c, with_gen (set_loadingFlag true) w, [])
| T_LFetch_err c :
    store w (store_calls w) = StoreErr ->
    trans w (LFetch c) (LRelease c (Some ErrLoadSegment), tick w, [])
| T_LFetch_invalid c maxID :
    store w (store_calls w) = StoreOk maxID ->
    maxID <= 0 ->
    trans w (LFetch c) (LRelease c (Some (ErrInvalidMaxId maxID)), tick w, [])
| T_LFetch_ok c maxID :
    store w (store_calls w) = StoreOk maxID ->
    0 < maxID ->
    trans w (LFetch c) (LPublish c maxID, tick w, [])
| T_LPublish c maxID :
    trans w (LPublish c maxID) (LRelease c None, published maxID w, [])
| T_LRelease c r :
    trans w (LRelease c r) (ret_load c r, with_gen (set_loadingFlag false) w, [])
| T_Done r :
    trans w (Done r) (Done r, w, [])
| T_Exited :
    trans w Exited (Exited, w, []).

(** The generator with its threads, in order of arrival. *)
Record Config : Type := mkConfig {
  world : World;
  threads : list pc
}.

(** [Arrive]: a new caller enters [NextID]; [Step tid]: thread [tid]
    performs its next access. *)
Inductive event : Type :=
| Arrive
| Step (tid : nat).

Definition exec (e : event) (c : Config) : Config :=
  match e with
  | Arrive => mkConfig (world c) (threads c ++ [NextID_iter 0])
  | Step tid =>
      match threads c !! tid with
      | None => c
      | Some t =>
          let '(t', w', started) := step_thread t (world c) in
          mkConfig w' (<[tid := t']> (threads c) ++ started)
      end
  end.

Definition run (schedule : list event) (c : Config) : Config :=
  fold_left (fun c e => exec e c) schedule c.

(** A thread runs alone for [n] accesses: where it stands, the world, and
    the goroutines it started, which do not run. *)
Fixpoint solo (n : nat) (t : pc) (w : World) : pc * World * list pc :=
  match n with
  | O => (t, w, [])
  | S n' =>
      let '(t1, w1, started1) := step_thread t w in
      let '(t2, w2, started2) := solo n' t1 w1 in
      (t2, w2, started1 ++ started2)
  end.

(** How many times the schedule lets thread [tid] move. *)
Fixpoint turns (tid : nat) (schedule : list event) : nat :=
  match schedule with
  | [] => 0
  | Arrive :: rest => turns tid rest
  | Step t :: rest => (if (t =? tid)%nat then 1 else 0) + turns tid rest
  end.

Definition finished (t : pc) : bool :=
  match t with
  | Done _ | Exited => true
  | _ => false
  end.

(** A thread between its successful compare-and-swap on the loading flag
    and the deferred store that releases it. *)
Definition in_refill (t : pc) : bool :=
  match t with
  | LFetch _ | LPublish _ _ | LRelease _ _ => true
  | _ => false
  end.

(** The identifier a caller has claimed within its segment and is about to
    return, or has returned. *)
Definition claimed (t : pc) : option Z :=
  match t with
  | NShouldCurrent _ id | NShouldNext id | NShouldFlag id | NGo id | Done (Ok id) =>
      Some id
  | _ => None
  end.

(** What a step from [t] to [t'] of thread [tid] dispenses: the atomic add
    that finds [id <= current.Max] dispenses [id] from segment [current]. *)
Definition claim_of (tid : nat) (t t' : pc) : list (nat * addr * Z) :=
  match t, t' with
  | NAdd _ _, NShouldCurrent current id => [(tid, current, id)]
  | _, _ => []
  end.

Definition claims_of_event (e : event) (c : Config) : list (nat * addr * Z) :=
  match e with
  | Arrive => []
  | Step tid =>
      match threads c !! tid with
      | Some t => claim_of tid t (fst (fst (step_thread t (world c))))
      | None => []
      end
  end.

(** The identifiers dispensed along a schedule, oldest first, each with
    the caller it went to and the segment it was claimed from. *)
Fixpoint dispensed (schedule : list event) (c : Config) : list (nat * addr * Z) :=
  match schedule with
  | [] => []
  | e :: rest => claims_of_event e c ++ dispensed rest (exec e c)
  end.

(** The value [NextID] returned to caller [tid], once it has returned. *)
Definition returned (c : Config) (tid : nat) : option (result Z) :=
  match threads c !! tid with
  | Some (Done r) => Some r
  | _ => None
  end.

(** The loop indices a program point can carry: [i < 2] in [NextID],
    [k < maxRetries] in [switchSegment], and a sleep only after an attempt
    that is not the last. *)
Definition caller_ok (c : caller) : bool :=
  match c with
  | FromGo => true
  | FromSwitch k i => (k <? Seq.maxRetries)%nat && (i <? 2)%nat
  end.

Definition pc_ok (t : pc) : bool :=
  match t with
  | NLoad i | NAdd i _ | SAfter i | SPromoteLoad i | SPromoteStore i _ | SClear i =>
      (i <? 2)%nat
  | SCheck k i => (k <? Seq.maxRetries)%nat && (i <? 2)%nat
  | SSleep k i => (k <? Seq.maxRetries - 1)%nat && (i <? 2)%nat
  | LCas c | LFetch c | LPublish c _ | LRelease c _ => caller_ok c
  | NShouldCurrent _ _ | NShouldNext _ | NShouldFlag _ | NGo _ | Done _ | Exited => true
  end.

(** An upper bound on the accesses a thread still performs. *)
Definition load_cost : nat := 4.
Definition switch_cost (k : nat) : nat :=
  (Seq.maxRetries - k) * (load_cost + 2) + 4.
Definition NextID_cost (i : nat) : nat :=
  (2 - i) * (switch_cost 0 + 7).

Definition remaining (t : pc) : nat :=
  match t with
  | NLoad i => NextID_cost i
  | NAdd i _ => NextID_cost i - 1
  | NShouldCurrent _ _ => 4
  | NShouldNext _ => 3
  | NShouldFlag _ => 2
  | NGo _ => 1
  | SCheck k i => switch_cost k + NextID_cost (S i) + 1
  | SSleep k i => switch_cost (S k) + NextID_cost (S i) + 2
  | SAfter i => NextID_cost (S i) + 4
  | SPromoteLoad i => NextID_cost (S i) + 3
  | SPromoteStore i _ => NextID_cost (S i) + 2
  | SClear i => NextID_cost (S i) + 1
  | LCas c =>
      match c with
      | FromGo => 4
      | FromSwitch k i => switch_cost (S k) + NextID_cost (S i) + 2 + 4
      end
  | LFetch c =>
      match c with
      | FromGo => 3
      | FromSwitch k i => switch_cost (S k) + NextID_cost (S i) + 2 + 3
      end
  | LPublish c _ =>
      match c with
      | FromGo => 2
      | FromSwitch k i => switch_cost (S k) + NextID_cost (S i) + 2 + 2
      end
  | LRelease c _ =>
      match c with
      | FromGo => 1
      | FromSwitch k i => switch_cost (S k) + NextID_cost (S i) + 2 + 1
      end
  | Done _ => 0
  | Exited => 0
  end.

End Conc.

(** ** Scenario data *)

(** The store of the specification's scenario: empty for the tag at first,
    every round trip succeeds and adds 1000, as long as the counter stays
    below [2 ^ 62], far from the end of [int64]. *)
Definition healthy_store (k : nat) : StoreReply :=
  if 1000 * (Z.of_nat k + 1) <=? 2 ^ 62
  then StoreOk (1000 * (Z.of_nat k + 1))
  else StoreErr.

(** A store whose document was tampered with: the counter is not positive. *)
Definition corrupt_store (_ : nat) : StoreReply := StoreOk 0.

(** A store that answers the first round trip, is unreachable for the next
    three and then answers again. *)
Definition flaky_store (k : nat) : StoreReply :=
  match k with
  | 0%nat => StoreOk 1000
  | 1%nat | 2%nat | 3%nat => StoreErr
  | _ => StoreOk 2000
  end.

(** The sequential operations on a generator in service. *)
Inductive op : Type :=
| CallNextID
| RunBackground.

(** The world after [atomic.AddInt64(&a.Current, 1)] on segment [s]. *)
Definition advanced (a : addr) (s : Segment) (w : World) : World :=
  with_gen (set_heap (<[a := mkSegment (Min s) (Max s) (Current s + 1)]> (heap (gen w)))) w.

(** Whether the float test of [shouldLoadNext] agrees with the exact
    comparison [used / total >= 4 / 5]. *)
Definition threshold_agrees (total used : Z) : bool :=
  Bool.eqb (Float64.geb (Float64.div (Float64.of_int64 used)
                                     (Float64.of_int64 total))
                        Float64.c0_8)
           (4 * total <=? 5 * used).

(** The world after a refill that obtained [maxID]: a new object at the
    end of the heap, the standby slot pointing to it, one round trip. *)
Definition installed (maxID : Z) (w : World) : World :=
  mkWorld
    (mkGenerator
       (heap (gen w) ++ [mkSegment (maxID - step (gen w) + 1) maxID
                                   (maxID - step (gen w))])
       (currentSegment (gen w))
       (Some (length (heap (gen w))))
       (step (gen w))
       false)
    (store w) (S (store_calls w)) (slept w) (spawned w).

(** A reply that gives [loadNextSegment] no segment: an error of the
    store or a value that is not positive. *)
Definition refused (r : StoreReply) : bool :=
  match r with
  | StoreErr => true
  | StoreOk maxID => maxID <=? 0
  end.

(** The durations slept by the first [m] failed attempts of one
    [switchSegment]: 100ms times the attempt number. *)
Definition backoff (m : nat) : list Z :=
  map (fun k => 100 * (Z.of_nat k + 1)) (seq 0 m).

(** The world after the promotion at the end of [switchSegment]. *)
Definition promoted (w : World) : World :=
  with_gen (set_nextSegment None)
           (with_gen (set_currentSegment (nextSegment (gen w))) w).

(** The world after a switch that found the store down three times. *)
Definition gave_up (w : World) : World :=
  tick (Sleep 200 (tick (Sleep 100 (tick w)))).

(** A run of the sequential reading. *)
Definition apply_op (o : op) (w : World) : World :=
  match o with
  | CallNextID => snd (Seq.NextID w)
  | RunBackground => Seq.background w
  end.

Definition run_ops (ops : list op) (w : World) : World :=
  fold_left (fun w o => apply_op o w) ops w.

(** [result.MaxID] is an [int64]: a reply of the store that decodes is in
    range. *)
Definition store_typed (st : nat -> StoreReply) : Prop :=
  forall k v, st k = StoreOk v -> Int64.in_range v.

(** The width invariant: the step is 1000 and every segment object spans
    exactly 1000 identifiers. *)
Definition width_ok (w : World) : Prop :=
  step (gen w) = 1000 /\
  forall a s, heap (gen w) !! a = Some s -> Max s - Min s + 1 = 1000.

(** A thread about to publish holds a [maxId] that passed the check of
    [loadNextSegment]. *)
Definition publish_typed (t : Conc.pc) : Prop :=
  match t with
  | Conc.LPublish _ v => 0 < v <= Int64.max_int
  | _ => True
  end.

(** The width invariant on a configuration. *)
Definition conc_width (c : Conc.Config) : Prop :=
  store_typed (store (Conc.world c)) /\
  width_ok (Conc.world c) /\
  Forall publish_typed (Conc.threads c).

(** *** The generator of the scenario *)

(** A generator freshly built on the healthy store: segment 1..1000. *)
Definition fresh_generator : World :=
  match Seq.NewSegmentIDGenerator true healthy_store with
  | Ok w => w
  | Err _ => mkWorld (mkGenerator [] None None 1000 false) healthy_store 0 [] 0
  end.

(** The same generator after 1000 sequential calls: the 800th started the
    prefetch, which ran and put segment 1001..2000 in the standby slot;
    the active segment 1..1000 is used up. *)
Definition used_up_generator : World :=
  run_ops (replicate 800 CallNextID ++ [RunBackground] ++ replicate 200 CallNextID)
          fresh_generator.

(** Two callers A (thread 0) and B (thread 1) arrive on the used-up
    generator.  Both claim a value beyond [Max] and enter [switchSegment];
    both see a standby segment at the two checks
    ([g.nextSegment.Load() != nil], then [== nil]).  A then promotes: it
    loads the standby pointer and stores it in the active slot
    ([race_promote_A]), then clears the standby slot ([race_clear_A]).  B,
    which passed its checks before, now loads the standby pointer, finds
    nil, and stores nil in the active slot ([race_promote_B]); both go round
    the loop of [NextID] again ([race_retry]). *)
Definition race_enter : list Conc.event :=
  [Conc.Arrive; Conc.Arrive;
   Conc.Step 0; Conc.Step 0;      (* A: Load current; AddInt64 gives 1001 *)
   Conc.Step 1; Conc.Step 1;      (* B: Load current; AddInt64 gives 1002 *)
   Conc.Step 0; Conc.Step 0;      (* A: standby present, twice *)
   Conc.Step 1; Conc.Step 1].     (* B: standby present, twice *)

Definition race_promote_A : list Conc.event :=
  [Conc.Step 0; Conc.Step 0].     (* A: p := next.Load(); current.Store(p) *)

Definition race_clear_A : list Conc.event :=
  [Conc.Step 0].                  (* A: next.Store(nil) *)

Definition race_promote_B : list Conc.event :=
  [Conc.Step 1; Conc.Step 1; Conc.Step 1].
                                  (* B: p := next.Load(), nil; current.Store(nil);
                                     next.Store(nil) *)

Definition race_retry : list Conc.event :=
  [Conc.Step 1; Conc.Step 0].     (* B, A: Load current, nil *)

Definition race : list Conc.event :=
  race_enter ++ race_promote_A ++ race_clear_A ++ race_promote_B ++ race_retry.

(** A generator whose only segment is used up, with no standby, on the
    flaky store after its first round trip. *)
Definition stalled_generator : World :=
  mkWorld (mkGenerator [mkSegment 1 1000 1000] (Some 0%nat) None 1000 false)
          flaky_store 1 [] 0.

(** *** Frames and solo runs *)

(** The parts of the world no function of the generator writes to, or
    restores before it returns. *)
Record preserved (w w' : World) : Prop := mkPreserved {
  same_store : store w' = store w;
  same_step : step (gen w') = step (gen w);
  same_flag : loadingFlag (gen w') = loadingFlag (gen w);
  more_calls : (store_calls w <= store_calls w')%nat
}.

(** [reaches t w t' w' started]: running alone from [t] in [w], the
    thread gets to [t'] in [w'], having started [started]. *)
Definition reaches (t : Conc.pc) (w : World) (t' : Conc.pc) (w' : World)
    (started : list Conc.pc) : Prop :=
  exists n, Conc.solo n t w = (t', w', started).

(** *** The invariant of the interleaved reading *)

(** The store is a counter that only grows, by at least the step at each
    round trip that succeeds, and stays below [B]. *)
Definition store_monotone (st : nat -> StoreReply) : Prop :=
  forall i j v v', (i < j)%nat -> st i = StoreOk v -> st j = StoreOk v' -> v + 1000 <= v'.

Definition store_bounded (B : Z) (st : nat -> StoreReply) : Prop :=
  forall k v, st k = StoreOk v -> v <= B.

(** A segment object: built by [loadNextSegment] from a reply of the store
    among the first [calls], and its cursor moved at most [n] times. *)
Record segment_inv (st : nat -> StoreReply) (B : Z) (n calls : nat) (s : Segment) : Prop :=
  mkSegmentInv {
    seg_min : Min s = Max s - 999;
    seg_positive : 0 < Max s;
    seg_cursor_lo : Max s - 1000 <= Current s;
    seg_cursor_hi : Current s <= B + Z.of_nat n;
    seg_granted : exists k, (k < calls)%nat /\ st k = StoreOk (Max s)
  }.

(** The invariant after [n] events, [log] being what was dispensed so
    far. *)
Record inv (st : nat -> StoreReply) (B : Z) (n : nat)
           (log : list (nat * addr * Z)) (c : Conc.Config) : Prop :=
  mkInv {
    inv_store : store (Conc.world c) = st;
    inv_step : step (gen (Conc.world c)) = 1000;
    inv_segments : forall a s,
      heap (gen (Conc.world c)) !! a = Some s ->
      segment_inv st B n (store_calls (Conc.world c)) s;
    (* objects are allocated in the order of the replies *)
    inv_sorted : forall a b sa sb,
      (a < b)%nat ->
      heap (gen (Conc.world c)) !! a = Some sa ->
      heap (gen (Conc.world c)) !! b = Some sb ->
      Max sa + 1000 <= Max sb;
    (* the reply a thread is about to publish is newer than every object *)
    inv_publish : forall tid c0 v,
      Conc.threads c !! tid = Some (Conc.LPublish c0 v) ->
      0 < v /\
      (exists k, (k < store_calls (Conc.world c))%nat /\ st k = StoreOk v) /\
      (forall a s, heap (gen (Conc.world c)) !! a = Some s -> Max s + 1000 <= v);
    (* the loading flag is a lock around the refill *)
    inv_guard : forall tid t,
      Conc.threads c !! tid = Some t -> Conc.in_refill t = true ->
      loadingFlag (gen (Conc.world c)) = true;
    inv_mutex : forall tid1 tid2 t1 t2,
      Conc.threads c !! tid1 = Some t1 -> Conc.threads c !! tid2 = Some t2 ->
      Conc.in_refill t1 = true -> Conc.in_refill t2 = true -> tid1 = tid2;
    (* the log: every entry lies in its segment, below the cursor *)
    inv_log : forall tid a x,
      In (tid, a, x) log ->
      exists s, heap (gen (Conc.world c)) !! a = Some s /\
                Min s <= x <= Max s /\ x <= Current s;
    inv_claimed : forall tid t x,
      Conc.threads c !! tid = Some t -> Conc.claimed t = Some x ->
      exists a, In (tid, a, x) log;
    inv_nodup : NoDup (map snd log);
    (* within a segment the log is increasing *)
    inv_increasing : forall i j tid1 tid2 a x y,
      (i < j)%nat ->
      log !! i = Some (tid1, a, x) -> log !! j = Some (tid2, a, y) -> x < y
  }.

(** The points where a thread resumes after a call or a loop test. *)
Definition neutral (t : Conc.pc) : Prop :=
  Conc.in_refill t = false /\
  Conc.claimed t = None /\
  (forall c v, t <> Conc.LPublish c v) /\
  (forall a x, t <> Conc.NShouldCurrent a x).

(** *** A run that crosses a segment boundary *)

(** A caller arrives and is given [steps] turns at once. *)
Definition one_caller (steps : nat) (c : Conc.Config) : list Conc.event :=
  Conc.Arrive :: replicate steps (Conc.Step (length (Conc.threads c))).

(** [n] callers, one after the other. *)
Fixpoint callers_in_turn (n steps : nat) (c : Conc.Config) : list Conc.event :=
  match n with
  | O => []
  | S n' =>
      one_caller steps c ++
      callers_in_turn n' steps (Conc.run (one_caller steps c) c)
  end.

(** 1000 callers use up the first segment of a fresh generator (a call
    that dispenses needs at most 6 accesses), the goroutines they start
    never get a turn, and one more caller switches segments by itself. *)
Definition crossing : list Conc.event :=
  let c0 := Conc.mkConfig fresh_generator [] in
  let first := callers_in_turn 1000 6 c0 in
  first ++ one_caller 58 (Conc.run first c0).

Definition entry_eqb (e1 e2 : nat * nat * Z) : bool :=
  (fst (fst e1) =? fst (fst e2))%nat && (snd (fst e1) =? snd (fst e2))%nat
  && (snd e1 =? snd e2).

(** *** A caller overtaken between its claim and its check *)

(** The fresh generator after 798 sequential calls: cursor at 798. *)
Definition near_threshold : World :=
  run_ops (replicate 798 CallNextID) fresh_generator.

(** A (thread 0) claims 799, B (thread 1) claims 800, and only then A
    evaluates [shouldLoadNext] and goes on to its [go] statement and its
    return; B has not yet evaluated anything. *)
Definition overtaking : list Conc.event :=
  [Conc.Arrive; Conc.Arrive;
   Conc.Step 0; Conc.Step 0;      (* A: Load current; AddInt64 gives 799 *)
   Conc.Step 1; Conc.Step 1;      (* B: Load current; AddInt64 gives 800 *)
   Conc.Step 0;                   (* A: reads segment.Current, 800 *)
   Conc.Step 0; Conc.Step 0;      (* A: standby nil; loading flag false *)
   Conc.Step 0].                  (* A: go g.loadNextSegment(); return 799 *)

(** ** The callers of the generator

    [cmd/server/main.go] serves [/id] and [/batch] from one generator;
    [IDServer] is the [http.Handler] of the package itself.  A response is
    the status line and what the handler wrote to the body, one entry per
    [Fprintf], [http.Error] or [Encode]. *)

Inductive chunk : Type :=
| Dec (id : Z)                  (* fmt.Fprintf(w, "%d", id) *)
| Comma                         (* fmt.Fprintf(w, ",") *)
| ErrorText (e : error)         (* http.Error(w, err.Error(), ...) *)
| JsonId (id : Z)               (* Encode(map[string]int64{"id": id}) *)
| JsonError (e : error).        (* Encode(map[string]string{"error": err.Error()}) *)

Record Response : Type := mkResponse {
  status : Z;
  body : list chunk
}.

Definition StatusOK : Z := 200.
Definition StatusMethodNotAllowed : Z := 405.
Definition StatusInternalServerError : Z := 500.

(** The handler of [/id]: the method of the request is not looked at.
    The [fmt.Println(id)] to the standard output is left out. *)
Definition handle_id (w : World) : Response * World :=
  match Seq.NextID w with
  | (Err e, w) => (mkResponse StatusInternalServerError [ErrorText e], w)
  | (Ok id, w) => (mkResponse StatusOK [Dec id], w)
  end.

(** [count, err := strconv.Atoi(countStr);
     if err != nil || count <= 0 || count > 1000 { count = 1 }]:
    [atoi] is what [strconv.Atoi] made of the query parameter, [None] for
    an error. *)
Definition batch_count (atoi : option Z) : Z :=
  match atoi with
  | None => 1
  | Some count => if (count <=? 0) || (1000 <? count) then 1 else count
  end.

(** The loop [for i := 0; i < count; i++] of the batch handler with [n]
    iterations left: the identifiers appended to [ids] so far, the error
    that ended the loop if one did, and the world. *)
Fixpoint batch_loop (n : nat) (ids : list Z) (w : World)
  : list Z * option error * World :=
  match n with
  | O => (ids, None, w)
  | S n' =>
      match Seq.NextID w with
      | (Err e, w) => (ids, Some e, w)
      | (Ok id, w) => batch_loop n' (ids ++ [id]) w
      end
  end.

(** [for i, id := range ids { if i > 0 { "," }; "%d" }], from index [i]. *)
Fixpoint write_ids (i : nat) (ids : list Z) : list chunk :=
  match ids with
  | [] => []
  | id :: rest =>
      (if (0 <? i)%nat then [Comma] else []) ++ Dec id :: write_ids (S i) rest
  end.

(** The handler of [/batch]. *)
Definition handle_batch (atoi : option Z) (w : World) : Response * World :=
  let count := batch_count atoi in
  match batch_loop (Z.to_nat count) [] w with
  | (_, Some e, w) => (mkResponse StatusInternalServerError [ErrorText e], w)
  | (ids, None, w) => (mkResponse StatusOK (write_ids 0 ids), w)
  end.

(** [func (s *IDServer) ServeHTTP(w, r)]; [is_get] is
    [r.Method == http.MethodGet]. *)
Definition ServeHTTP (is_get : bool) (w : World) : Response * World :=
  if negb is_get then (mkResponse StatusMethodNotAllowed [], w)
  else
    match Seq.NextID w with
    | (Err e, w) => (mkResponse StatusInternalServerError [JsonError e], w)
    | (Ok id, w) => (mkResponse StatusOK [JsonId id], w)
    end.

(** The identifiers a response carries. *)
Definition ids_in (r : Response) : list Z :=
  omap (fun c => match c with Dec id | JsonId id => Some id | _ => None end) (body r).

(** The requests the server answers one at a time, and between them the
    goroutines started by [go g.loadNextSegment()] that get to run. *)
Inductive request : Type :=
| GetID                        (* /id *)
| GetBatch (atoi : option Z)   (* /batch?count=... *)
| Serve (is_get : bool)        (* a request to an [IDServer] *)
| Refill.                      (* a goroutine runs *)

Definition answer (r : request) (w : World) : list Response * World :=
  match r with
  | GetID => let '(resp, w) := handle_id w in ([resp], w)
  | GetBatch atoi => let '(resp, w) := handle_batch atoi w in ([resp], w)
  | Serve is_get => let '(resp, w) := ServeHTTP is_get w in ([resp], w)
  | Refill => ([], Seq.background w)
  end.

Fixpoint serve (reqs : list request) (w : World) : list Response * World :=
  match reqs with
  | [] => ([], w)
  | r :: rest =>
      let '(out, w) := answer r w in
      let '(out', w) := serve rest w in
      (out ++ out', w)
  end.

(** The identifiers of a list of responses, in order. *)
Definition ids_served (out : list Response) : list Z := concat (map ids_in out).

(** A response either carries identifiers under status 200, or none under
    500 or 405. *)
Definition well_formed (r : Response) : Prop :=
  (status r = StatusOK /\ ids_in r <> []) \/
  (status r = StatusInternalServerError /\ ids_in r = []) \/
  (status r = StatusMethodNotAllowed /\ body r = []).

(** A store that answers the first round trip, is unreachable for the next
    three and healthy afterwards. *)
Definition outage_store (k : nat) : StoreReply :=
  match k with
  | 1%nat | 2%nat | 3%nat => StoreErr
  | _ => healthy_store k
  end.

Definition outage_generator : World :=
  match Seq.NewSegmentIDGenerator true outage_store with
  | Ok w => w
  | Err _ => mkWorld (mkGenerator [] None None 1000 false) outage_store 0 [] 0
  end.

(** A store whose counter was created by another program at 5 and grows
    by the step from there: the replies are 5, 1005, 2005, ... *)
Definition low_store (k : nat) : StoreReply :=
  match healthy_store k with
  | StoreOk v => StoreOk (v - 995)
  | StoreErr => StoreErr
  end.

(** 800 callers in turn on a fresh generator; the goroutine the last one
    started is thread 800 and wins the compare-and-swap. *)
Definition prefetching : list Conc.event :=
  callers_in_turn 800 6 (Conc.mkConfig fresh_generator []) ++ [Conc.Step 800].

(** The healthy store as a second generator finds it after the first one
    made one round trip, and that generator. *)
Definition healthy_store_later (k : nat) : StoreReply := healthy_store (1 + k).

Definition restarted_generator : World :=
  match Seq.NewSegmentIDGenerator true healthy_store_later with
  | Ok w => w
  | Err _ => mkWorld (mkGenerator [] None None 1000 false) healthy_store_later 0 [] 0
  end.

(** The only segment is used up and a refill holds the loading flag. *)
Definition refill_in_flight : World :=
  mkWorld (mkGenerator [mkSegment 1 1000 1000] (Some 0%nat) None 1000 true)
          healthy_store 1 [] 0.

(** The active segment is the last one an [int64] counter can grant, and
    its cursor stands at [Max]. *)
Definition last_segment : World :=
  mkWorld (mkGenerator [mkSegment (Int64.max_int - 999) Int64.max_int Int64.max_int]
                       (Some 0%nat) None 1000 false)
          healthy_store 1 [] 0.

(** ** The test helper

    [validateIDs] of the test file: each [t.Errorf] is an entry of the
    result.  [sort.Slice(ids, func(i, j) { return ids[i] < ids[j] })] is the
    library's; on integers every sort gives the same slice, here the one of
    a merge sort. *)

Inductive test_error : Type :=
| WrongCount (expected got : nat)
| Duplicate (id : Z)
| NotIncreasing (i : nat) (previous this : Z).

Definition sort_Slice (ids : list Z) : list Z := merge_sort Z.le ids.

(** [for i := 1; i < len(ids); i++], at index [i] with [ids[i-1] = previous]. *)
Fixpoint check_adjacent (i : nat) (previous : Z) (rest : list Z) : list test_error :=
  match rest with
  | [] => []
  | this :: rest' =>
      (if this =? previous then [Duplicate this] else []) ++
      (if this <=? previous then [NotIncreasing i previous this] else []) ++
      check_adjacent (S i) this rest'
  end.

Definition validateIDs (ids : list Z) (expectedCount : nat) : list test_error :=
  (if (length ids =? expectedCount)%nat then []
   else [WrongCount expectedCount (length ids)]) ++
  match sort_Slice ids with
  | [] => []
  | first :: rest => check_adjacent 1 first rest
  end.

(** ** The invariant of the sequential reading *)

(** What every sequence of calls keeps true of a generator in service, on
    a store [st] bounded by [B], after at most [n] moves of a cursor, when
    no identifier above [last] was returned: the guard is free, the active
    slot points to an object, the objects behind it in the heap were not
    touched yet, and the standby slot points to one of those. *)
Record seq_inv (st : nat -> StoreReply) (B : Z) (n : nat) (last : Z) (w : World)
  : Prop := mkSeqInv {
  sq_store : store w = st;
  sq_step : step (gen w) = 1000;
  sq_flag : loadingFlag (gen w) = false;
  sq_segments : forall a s,
    heap (gen w) !! a = Some s -> segment_inv st B n (store_calls w) s;
  sq_sorted : forall a b sa sb,
    (a < b)%nat ->
    heap (gen w) !! a = Some sa -> heap (gen w) !! b = Some sb ->
    Max sa + 1000 <= Max sb;
  sq_active : exists a s,
    currentSegment (gen w) = Some a /\ heap (gen w) !! a = Some s /\
    last <= Current s /\ last <= Max s /\
    (forall b sb, (a < b)%nat -> heap (gen w) !! b = Some sb ->
       Current sb = Max sb - 1000) /\
    (forall b, nextSegment (gen w) = Some b ->
       (a < b < length (heap (gen w)))%nat)
}.

(** The identifiers a sequential run returns, in the order of the calls. *)
Fixpoint ids_of (ops : list op) (w : World) : list Z :=
  match ops with
  | [] => []
  | CallNextID :: rest =>
      match Seq.NextID w with
      | (Ok id, w) => id :: ids_of rest w
      | (Err _, w) => ids_of rest w
      end
  | RunBackground :: rest => ids_of rest (Seq.background w)
  end.

(** ** A thread among others

    A thread makes one access in each world of [ws], in that order: what
    the other threads did between two of its accesses is the difference
    between the world one access left and the world the next one finds.
    [steps_in] is where the thread stands in the end, with the goroutines
    it started; [worlds_in] is the world each of its accesses left. *)
Fixpoint steps_in (ws : list World) (t : Conc.pc) : Conc.pc * list Conc.pc :=
  match ws with
  | [] => (t, [])
  | w :: rest =>
      let '(t1, _, started1) := Conc.step_thread t w in
      let '(t2, started2) := steps_in rest t1 in
      (t2, started1 ++ started2)
  end.

Fixpoint worlds_in (ws : list World) (t : Conc.pc) : list World :=
  match ws with
  | [] => []
  | w :: rest =>
      let '(t1, w1, _) := Conc.step_thread t w in
      w1 :: worlds_in rest t1
  end.

(** ** Callers that come one at a time *)

(** A thread started by [go]. *)
Definition is_goroutine (t : Conc.pc) : bool :=
  match t with
  | Conc.LCas Conc.FromGo | Conc.LFetch Conc.FromGo | Conc.LPublish Conc.FromGo _
  | Conc.LRelease Conc.FromGo _ | Conc.Exited => true
  | _ => false
  end.

(** A caller that is still inside [NextID]. *)
Definition calling (t : Conc.pc) : bool :=
  negb (is_goroutine t) && negb (Conc.finished t).

(** A schedule where a caller enters [NextID] only when the callers before
    it have returned; the goroutines move whenever the schedule says. *)
Fixpoint one_at_a_time (schedule : list Conc.event) (c : Conc.Config) : bool :=
  match schedule with
  | [] => true
  | e :: rest =>
      match e with
      | Conc.Arrive => forallb (fun t => negb (calling t)) (Conc.threads c)
      | Conc.Step _ => true
      end && one_at_a_time rest (Conc.exec e c)
  end.

(** The two errors of a switch that found no segment. *)
Definition switch_failure (e : error) : Prop :=
  (exists cause, e = ErrSwitch (ErrSwitchRetries 3 cause)) \/
  e = ErrSwitch ErrLoadNext.

(** The segment in the active slot was not dispensed from yet. *)
Definition fresh_current (w : World) : Prop :=
  exists a s, currentSegment (gen w) = Some a /\ heap (gen w) !! a = Some s /\
              Current s = Max s - 1000.

(** What is known of a caller at each of its program points when it is the
    only one: a second round of the loop of [NextID] starts on a fresh
    segment, the switch is entered from the first round only, and the
    pointer it promotes is a newer object than the active one. *)
Definition pc_state (w : World) (t : Conc.pc) : Prop :=
  match t with
  | Conc.NLoad i => i = 0%nat \/ (i = 1%nat /\ fresh_current w)
  | Conc.NAdd i p =>
      currentSegment (gen w) = Some p /\ (i = 0%nat \/ (i = 1%nat /\ fresh_current w))
  | Conc.NShouldCurrent p _ => (p < length (heap (gen w)))%nat
  | Conc.SCheck _ i | Conc.SSleep _ i | Conc.SAfter i => i = 0%nat
  | Conc.SPromoteLoad i => i = 0%nat /\ nextSegment (gen w) <> None
  | Conc.SPromoteStore i p =>
      i = 0%nat /\
      exists a b, currentSegment (gen w) = Some a /\ p = Some b /\
                  (a < b < length (heap (gen w)))%nat /\
                  (forall b', nextSegment (gen w) = Some b' -> (b <= b')%nat)
  | Conc.SClear i => i = 0%nat /\ fresh_current w
  | Conc.LCas (Conc.FromSwitch _ i) | Conc.LFetch (Conc.FromSwitch _ i)
  | Conc.LPublish (Conc.FromSwitch _ i) _ | Conc.LRelease (Conc.FromSwitch _ i) _ =>
      i = 0%nat
  | _ => True
  end.

(** The slots of the generator: the active slot points to an object, the
    objects behind it in the heap are fresh, and the standby slot points to
    one of those, or still to the active object itself while the caller is
    between the two stores of the promotion ([at_clear]). *)
Definition active_ok (w : World) (at_clear : Prop) : Prop :=
  exists a s,
    currentSegment (gen w) = Some a /\
    heap (gen w) !! a = Some s /\
    (forall b sb, (a < b)%nat -> heap (gen w) !! b = Some sb ->
       Current sb = Max sb - 1000) /\
    (forall b, nextSegment (gen w) = Some b ->
       (b < length (heap (gen w)))%nat /\ ((a < b)%nat \/ (a = b /\ at_clear))).

(** The invariant of a run where the callers come one at a time. *)
Record caller_inv (c : Conc.Config) : Prop := mkCallerInv {
  ci_one : forall i j ti tj,
    Conc.threads c !! i = Some ti -> Conc.threads c !! j = Some tj ->
    calling ti = true -> calling tj = true -> i = j;
  ci_state : forall tid t,
    Conc.threads c !! tid = Some t -> pc_state (Conc.world c) t;
  ci_active :
    active_ok (Conc.world c)
              (exists tid, Conc.threads c !! tid = Some (Conc.SClear 0));
  ci_errors : forall tid e,
    Conc.threads c !! tid = Some (Conc.Done (Err e)) -> switch_failure e
}.

(** ** A refill in flight when the segment runs out *)

(** On a fresh generator: 800 callers in turn, the goroutine the last one
    started (thread 800) wins the compare-and-swap and waits for the store,
    200 more callers use up the segment, and one more caller comes. *)
Definition in_flight_exhaustion : list Conc.event :=
  let c0 := Conc.mkConfig fresh_generator [] in
  let s1 := callers_in_turn 800 6 c0 ++ [Conc.Step 800] in
  let s2 := s1 ++ callers_in_turn 200 6 (Conc.run s1 c0) in
  s2 ++ one_caller 58 (Conc.run s2 c0).

(** On the generator of the outage: 1000 callers in turn use up the
    segment, none of the goroutines they started has run; caller A finds
    the store down three times; then the goroutine of the 800th call
    (thread 800) wins the compare-and-swap, and caller B comes while it
    waits for the store. *)
Definition retry_during_prefetch_A : list Conc.event :=
  let c0 := Conc.mkConfig outage_generator [] in
  let s1 := callers_in_turn 1000 6 c0 in
  s1 ++ one_caller 58 (Conc.run s1 c0).

Definition retry_during_prefetch : list Conc.event :=
  let c0 := Conc.mkConfig outage_generator [] in
  let s2 := retry_during_prefetch_A ++ [Conc.Step 800] in
  s2 ++ one_caller 58 (Conc.run s2 c0).

(** * Properties *)

Ltac conj := repeat match goal with |- _ /\ _ => split end.


(** ** Arithmetic of the machine integers *)

Lemma wrap_in_range (z : Z) : Int64.in_range z -> Int64.wrap z = z.
Proof.
  unfold Int64.in_range, Int64.wrap, Int64.min_int, Int64.max_int.
  intros Hz. rewrite Z.mod_small by lia. lia.
Qed.

Lemma add_no_overflow (a b : Z) :
  Int64.in_range (a + b) -> Int64.add a b = a + b.
Proof. apply wrap_in_range. Qed.

Lemma sub_no_overflow (a b : Z) :
  Int64.in_range (a - b) -> Int64.sub a b = a - b.
Proof. apply wrap_in_range. Qed.

(** The fields of the segment that [loadNextSegment] builds from [maxID],
    when no operation wraps. *)
Lemma newSegment_fields (maxID st : Z) :
  0 < maxID <= Int64.max_int -> 0 < st < 2 ^ 31 ->
  Int64.sub maxID st = maxID - st /\
  Int64.add (Int64.sub maxID st) 1 = maxID - st + 1.
Proof.
  intros Hm Hs.
  assert (H1 : Int64.sub maxID st = maxID - st).
  { apply sub_no_overflow. unfold Int64.in_range, Int64.min_int, Int64.max_int in *. lia. }
  split; [exact H1|]. rewrite H1. apply add_no_overflow.
  unfold Int64.in_range, Int64.min_int, Int64.max_int in *. lia.
Qed.

(** ** The refill, one call at a time *)

Lemma set_loadingFlag_idem (g : SegmentIDGenerator) :
  loadingFlag g = false -> set_loadingFlag false (set_loadingFlag true g) = g.
Proof. destruct g; cbn; intros ->; reflexivity. Qed.

Lemma loadNextSegment_ok (w : World) (newMax : Z) :
  loadingFlag (gen w) = false ->
  store w (store_calls w) = StoreOk newMax ->
  0 < newMax <= Int64.max_int ->
  0 < step (gen w) < 2 ^ 31 ->
  Seq.loadNextSegment w = (None, installed newMax w).
Proof.
  intros Hflag Hreply Hmax Hstep.
  destruct (newSegment_fields newMax (step (gen w)) Hmax Hstep) as [Hcur Hmin].
  unfold Seq.loadNextSegment. rewrite Hflag. cbn.
  rewrite Hreply.
  destruct (Z.leb_spec newMax 0) as [Hle|_]; [lia|].
  cbn. rewrite Hmin, Hcur. reflexivity.
Qed.

Lemma loadNextSegment_refused (w : World) :
  loadingFlag (gen w) = false ->
  refused (store w (store_calls w)) = true ->
  exists e, Seq.loadNextSegment w = (Some e, tick w).
Proof.
  intros Hflag Hrefused.
  unfold Seq.loadNextSegment. rewrite Hflag. cbn.
  assert (Hback : with_gen (set_loadingFlag false)
            (mkWorld (set_loadingFlag true (gen w)) (store w) (S (store_calls w))
                     (slept w) (spawned w)) = tick w).
  { unfold with_gen, tick. cbn. now rewrite set_loadingFlag_idem. }
  destruct (store w (store_calls w)) as [|v]; cbn in *.
  - eexists. now rewrite Hback.
  - rewrite Hrefused. eexists. now rewrite Hback.
Qed.

(** C5: when the guard is free and the store answers [newMax > 0],
    [loadNextSegment] returns nil, has built exactly the segment
    [{Min: newMax - step + 1, Max: newMax, Current: newMax - step}] as a
    new object, and the standby slot points to it whatever it held before;
    the active slot and the older objects are as they were, the guard is
    released and one round trip was made.  In the interleaved reading the
    round trip leads to the store into the standby slot, and that store
    is made in whatever world [w1] the thread finds by then. *)
Theorem loadNextSegment_installs (w : World) (newMax : Z) :
  loadingFlag (gen w) = false ->
  store w (store_calls w) = StoreOk newMax ->
  0 < newMax <= Int64.max_int ->
  0 < step (gen w) < 2 ^ 31 ->
  exists w',
    Seq.loadNextSegment w = (None, w') /\
    heap (gen w') =
      heap (gen w) ++ [mkSegment (newMax - step (gen w) + 1) newMax
                                 (newMax - step (gen w))] /\
    nextSegment (gen w') = Some (length (heap (gen w))) /\
    currentSegment (gen w') = currentSegment (gen w) /\
    loadingFlag (gen w') = false /\
    store_calls w' = S (store_calls w) /\
    (forall c,
       Conc.step_thread (Conc.LFetch c) (with_gen (set_loadingFlag true) w)
       = (Conc.LPublish c newMax, tick (with_gen (set_loadingFlag true) w), []) /\
       forall w1, step (gen w1) = step (gen w) ->
         exists w1',
           Conc.step_thread (Conc.LPublish c newMax) w1 = (Conc.LRelease c None, w1', []) /\
           heap (gen w1') =
             heap (gen w1) ++ [mkSegment (newMax - step (gen w) + 1) newMax
                                         (newMax - step (gen w))] /\
           nextSegment (gen w1') = Some (length (heap (gen w1)))).
Proof.
  intros Hflag Hreply Hmax Hstep.
  exists (installed newMax w).
  split; [now apply loadNextSegment_ok|]. cbn [installed gen heap nextSegment
    currentSegment loadingFlag store_calls]. conj; auto.
  intros c. split.
  - cbn. rewrite Hreply.
    destruct (Z.leb_spec newMax 0); [lia|reflexivity].
  - intros w1 Hsame. eexists. split; [reflexivity|]. cbn. rewrite Hsame.
    destruct (newSegment_fields newMax (step (gen w)) Hmax Hstep) as [Hcur Hmin].
    rewrite Hmin, Hcur. auto.
Qed.

(** C6: when the store answers [newMax <= 0], [loadNextSegment] returns
    the invalid-range error and installs nothing: both slots and the heap
    are what they were, and the guard is released.  In the interleaved
    reading the round trip leads straight to the release of the guard
    with that error, past the store into the standby slot. *)
Theorem loadNextSegment_invalid_range (w : World) (newMax : Z) :
  loadingFlag (gen w) = false ->
  store w (store_calls w) = StoreOk newMax ->
  newMax <= 0 ->
  exists w',
    Seq.loadNextSegment w = (Some (ErrInvalidMaxId newMax), w') /\
    nextSegment (gen w') = nextSegment (gen w) /\
    gen w' = gen w /\
    store_calls w' = S (store_calls w) /\
    (forall c,
       Conc.step_thread (Conc.LFetch c) (with_gen (set_loadingFlag true) w)
       = (Conc.LRelease c (Some (ErrInvalidMaxId newMax)),
          tick (with_gen (set_loadingFlag true) w), [])).
Proof.
  intros Hflag Hreply Hle.
  unfold Seq.loadNextSegment. rewrite Hflag. cbn. rewrite Hreply.
  destruct (Z.leb_spec newMax 0) as [_|Hlt]; [|lia].
  eexists. split; [reflexivity|]. cbn.
  destruct w as [[h c n st f] ? ? ? ?]; cbn in *. subst f. conj; auto.
Qed.

(** Refills requested while the guard is held do nothing. *)
Lemma loadNextSegment_guarded (w : World) :
  loadingFlag (gen w) = true -> Seq.loadNextSegment w = (None, w).
Proof. intros H. unfold Seq.loadNextSegment. now rewrite H. Qed.

(** C8: a refill invoked while the guard is held (the compare-and-swap
    from false to true fails) returns nil at once and leaves the world as
    it is: no round trip to the store, the standby slot untouched.  Hence
    any number [n] of refills requested during one that is in flight add
    no round trip to its single one.  In the interleaved reading this is
    one access: the thread is back in its caller with nil, whoever the
    caller, and the world is the same. *)
Theorem loadNextSegment_coalesces (w : World) (n : nat) :
  loadingFlag (gen w) = true ->
  Seq.loadNextSegment w = (None, w) /\
  Nat.iter n (fun w => snd (Seq.loadNextSegment w)) w = w /\
  store_calls (Nat.iter n (fun w => snd (Seq.loadNextSegment w)) w) = store_calls w /\
  nextSegment (gen (Nat.iter n (fun w => snd (Seq.loadNextSegment w)) w))
    = nextSegment (gen w) /\
  (forall c, Conc.step_thread (Conc.LCas c) w = (Conc.ret_load c None, w, [])).
Proof.
  intros Hflag.
  assert (Hiter : Nat.iter n (fun w => snd (Seq.loadNextSegment w)) w = w).
  { induction n as [|n IH]; [reflexivity|].
    rewrite Nat.iter_succ, IH. now rewrite loadNextSegment_guarded. }
  rewrite Hiter. conj; auto using loadNextSegment_guarded.
  intros c. cbn. now rewrite Hflag.
Qed.

(** ** Dispensing from the active segment *)

Ltac int64 :=
  unfold Int64.in_range, Int64.min_int, Int64.max_int in *; lia.

Lemma AddInt64_Current_1 (w : World) (a : addr) (s : Segment) :
  heap (gen w) !! a = Some s ->
  Int64.in_range (Current s + 1) ->
  AddInt64_Current a 1 w = Some (Current s + 1, advanced a s w).
Proof.
  intros Hs Hr. unfold AddInt64_Current, advanced. rewrite Hs.
  now rewrite add_no_overflow.
Qed.

Lemma advanced_lookup (w : World) (a : addr) (s : Segment) :
  heap (gen w) !! a = Some s ->
  heap (gen (advanced a s w)) !! a = Some (mkSegment (Min s) (Max s) (Current s + 1)).
Proof.
  intros Hs. cbn. apply list_lookup_insert_eq. eapply lookup_lt_Some, Hs.
Qed.

(** An iteration that finds room in the active segment: the claimed value
    is the cursor plus one, and the only other effect is the [go]. *)
Lemma NextID_loop_in_range (n : nat) (w : World) (a : addr) (s : Segment) :
  currentSegment (gen w) = Some a ->
  heap (gen w) !! a = Some s ->
  Int64.min_int <= Current s -> Max s <= Int64.max_int ->
  Current s < Max s ->
  Seq.NextID_loop (S n) w =
    (Ok (Current s + 1),
     if Seq.shouldLoadNext (Some a) (advanced a s w)
     then go_loadNextSegment (advanced a s w) else advanced a s w).
Proof.
  intros Hc Hs Hlo Hhi Hlt.
  cbn [Seq.NextID_loop]. rewrite Hc.
  rewrite (AddInt64_Current_1 w a s Hs) by int64.
  rewrite (advanced_lookup w a s Hs). cbn [Max].
  destruct (Z.leb_spec (Current s + 1) (Max s)) as [_|Hgt]; [reflexivity|lia].
Qed.

Lemma NextID_in_range (w : World) (a : addr) (s : Segment) :
  currentSegment (gen w) = Some a ->
  heap (gen w) !! a = Some s ->
  Int64.min_int <= Current s -> Max s <= Int64.max_int ->
  Current s < Max s ->
  Seq.NextID w =
    (Ok (Current s + 1),
     if Seq.shouldLoadNext (Some a) (advanced a s w)
     then go_loadNextSegment (advanced a s w) else advanced a s w).
Proof. apply NextID_loop_in_range. Qed.

(** An iteration that finds the active segment exhausted: the claimed
    value is dropped and the segment is switched. *)
Lemma NextID_loop_exhausted (n : nat) (w : World) (a : addr) (s : Segment) :
  currentSegment (gen w) = Some a ->
  heap (gen w) !! a = Some s ->
  Max s <= Current s -> Int64.in_range (Current s + 1) ->
  Seq.NextID_loop (S n) w =
    (let '(err, w1) := Seq.switchSegment (advanced a s w) in
     match err with
     | Some e => (Err (ErrSwitch e), w1)
     | None => Seq.NextID_loop n w1
     end).
Proof.
  intros Hc Hs Hge Hr.
  cbn [Seq.NextID_loop]. rewrite Hc.
  rewrite (AddInt64_Current_1 w a s Hs) by assumption.
  rewrite (advanced_lookup w a s Hs). cbn [Max].
  destruct (Z.leb_spec (Current s + 1) (Max s)) as [Hle|_]; [lia|reflexivity].
Qed.

(** Whatever the world, an identifier that [NextID] returns is the cursor
    of the segment in the active slot, and is at most its [Max]. *)
Lemma NextID_loop_below_max (n : nat) : forall (w w' : World) (id : Z),
  Seq.NextID_loop n w = (Ok id, w') ->
  exists a s,
    currentSegment (gen w') = Some a /\
    heap (gen w') !! a = Some s /\
    Current s = id /\ id <= Max s.
Proof.
  induction n as [|n IH]; intros w w' id; cbn [Seq.NextID_loop]; [discriminate|].
  destruct (currentSegment (gen w)) as [current|] eqn:Hc; [|discriminate].
  unfold AddInt64_Current.
  destruct (heap (gen w) !! current) as [s|] eqn:Hs; [|discriminate].
  fold (Conc.bumped current s w).
  assert (Hs' : heap (gen (Conc.bumped current s w)) !! current
                = Some (mkSegment (Min s) (Max s) (Int64.add (Current s) 1))).
  { cbn. apply list_lookup_insert_eq. eapply lookup_lt_Some, Hs. }
  rewrite Hs'. cbn [Max].
  destruct (Z.leb_spec (Int64.add (Current s) 1) (Max s)) as [Hle|Hgt].
  - generalize (Seq.shouldLoadNext (Some current) (Conc.bumped current s w)).
    intros b [= <- <-].
    exists current, (mkSegment (Min s) (Max s) (Int64.add (Current s) 1)).
    destruct b; cbn [go_loadNextSegment gen]; auto.
  - destruct (Seq.switchSegment (Conc.bumped current s w)) as [err w1].
    destruct err as [e|]; [discriminate|]. apply IH.
Qed.

(** C2: a call of [NextID] on a generator whose active segment [s] has
    [Current s < Max s] returns exactly [Current s + 1], which is at most
    [Max s]; the active slot still points to the same segment, whose
    cursor is now the returned value; and when the segment has room for
    one more, the next call returns [Current s + 2], a strictly greater
    value.  Moreover, on any world, an identifier returned by [NextID] is
    the cursor of the segment it was claimed from and at most its [Max];
    and in the interleaved reading the atomic add of a caller that holds
    a pointer to [s] claims [Current s + 1], whatever happened before. *)
Theorem NextID_dispenses (w : World) (a : addr) (s : Segment) :
  currentSegment (gen w) = Some a ->
  heap (gen w) !! a = Some s ->
  Int64.min_int <= Current s -> Max s <= Int64.max_int ->
  Current s < Max s ->
  (exists w',
     Seq.NextID w = (Ok (Current s + 1), w') /\
     Current s + 1 <= Max s /\
     currentSegment (gen w') = Some a /\
     heap (gen w') !! a = Some (mkSegment (Min s) (Max s) (Current s + 1)) /\
     (Current s + 1 < Max s ->
      exists w'', Seq.NextID w' = (Ok (Current s + 2), w'') /\
                  Current s + 1 < Current s + 2 <= Max s)) /\
  (forall w0 w0' id,
     Seq.NextID w0 = (Ok id, w0') ->
     exists a0 s0,
       currentSegment (gen w0') = Some a0 /\
       heap (gen w0') !! a0 = Some s0 /\
       Current s0 = id /\ id <= Max s0) /\
  (forall i,
     Conc.step_thread (Conc.NAdd i a) w =
       (Conc.NShouldCurrent a (Current s + 1), advanced a s w, [])).
Proof.
  intros Hc Hs Hlo Hhi Hlt.
  split; [|split; [exact (NextID_loop_below_max 2)|]].
  2:{ intros i. cbn [Conc.step_thread].
      rewrite (AddInt64_Current_1 w a s Hs) by int64.
      rewrite (advanced_lookup w a s Hs). cbn [Max].
      destruct (Z.leb_spec (Current s + 1) (Max s)); [reflexivity|lia]. }
  pose proof (advanced_lookup w a s Hs) as Ha.
  assert (Hfirst : exists w',
    Seq.NextID w = (Ok (Current s + 1), w') /\
    currentSegment (gen w') = Some a /\
    heap (gen w') !! a = Some (mkSegment (Min s) (Max s) (Current s + 1))).
  { rewrite (NextID_in_range w a s) by assumption.
    eexists. split; [reflexivity|].
    destruct (Seq.shouldLoadNext _ _); cbn; split; assumption || exact Ha. }
  destruct Hfirst as (w' & Hrun & Hc' & Hs').
  exists w'. split; [exact Hrun|]. split; [lia|]. split; [exact Hc'|].
  split; [exact Hs'|].
  intros Hroom.
  rewrite (NextID_in_range w' a _ Hc' Hs') by (cbn; lia).
  cbn [Current]. replace (Current s + 1 + 1) with (Current s + 2) by lia.
  eexists. split; [reflexivity|]. cbn. lia.
Qed.

(** ** The prefetch threshold *)

(** On a range of 1000 identifiers the float comparison is the exact one:
    all 1000 positions of the cursor are evaluated. *)
Lemma threshold_agrees_all :
  forallb (fun k => threshold_agrees 1000 (1 + Z.of_nat k)) (seq 0 1000) = true.
Proof. vm_cast_no_check (eq_refl true). Qed.

Lemma threshold_agrees_1000 (used : Z) :
  1 <= used <= 1000 -> threshold_agrees 1000 used = true.
Proof.
  intros Hu.
  assert (Hk : used = 1 + Z.of_nat (Z.to_nat (used - 1))) by lia.
  rewrite Hk.
  apply (proj1 (forallb_forall _ _) threshold_agrees_all (Z.to_nat (used - 1))).
  apply in_seq. lia.
Qed.

Lemma threshold_1000 (used : Z) :
  1 <= used <= 1000 ->
  Float64.geb (Float64.div (Float64.of_int64 used) (Float64.of_int64 1000))
              Float64.c0_8
  = (4 * 1000 <=? 5 * used).
Proof.
  intros Hu. apply Bool.eqb_prop. apply (threshold_agrees_1000 used Hu).
Qed.

Lemma usage_reached_1000 (s : Segment) :
  Max s - Min s + 1 = 1000 ->
  Min s <= Current s <= Max s ->
  usage_reached s = (4 * (Max s - Min s + 1) <=? 5 * (Current s - Min s + 1)).
Proof.
  intros Hw Hc. unfold usage_reached.
  rewrite (sub_no_overflow (Current s)) by int64.
  rewrite (sub_no_overflow (Max s)) by int64.
  rewrite !add_no_overflow by int64.
  rewrite Hw. apply threshold_1000. lia.
Qed.

(** [shouldLoadNext] and the [go] statement of a caller that holds [id],
    run without interruption in a world [w] where the segment it claimed
    from is [s]: the caller returns [id] in any case, and starts a
    goroutine exactly when the cursor of [s], as it is now, has reached
    4/5 of the range, the standby slot is nil and the loading flag is
    false. *)
Lemma shouldLoadNext_alone (w : World) (a : addr) (s : Segment) (id : Z) :
  heap (gen w) !! a = Some s ->
  Max s - Min s + 1 = 1000 ->
  Min s <= Current s <= Max s ->
  exists n w' started,
    Conc.solo n (Conc.NShouldCurrent a id) w = (Conc.Done (Ok id), w', started) /\
    gen w' = gen w /\
    (started = [Conc.LCas Conc.FromGo] \/ started = []) /\
    (started = [Conc.LCas Conc.FromGo] <->
     4 * (Max s - Min s + 1) <= 5 * (Current s - Min s + 1) /\
     nextSegment (gen w) = None /\
     loadingFlag (gen w) = false).
Proof.
  intros Hs Hwidth Hcur.
  pose proof (usage_reached_1000 s Hwidth Hcur) as Hu.
  destruct (Z.leb_spec (4 * (Max s - Min s + 1)) (5 * (Current s - Min s + 1)))
    as [Hratio|Hratio].
  2:{ exists 1%nat, w, []. cbn. rewrite Hs, Hu.
      split; [reflexivity|]. split; [reflexivity|]. split; [now right|].
      split; [intros [=]|intros (? & _); lia]. }
  destruct (nextSegment (gen w)) as [p|] eqn:Hnext.
  { exists 2%nat, w, []. cbn. rewrite Hs, Hu. cbn. rewrite Hnext.
    split; [reflexivity|]. split; [reflexivity|]. split; [now right|].
    split; [intros [=]|intros (_ & [=] & _)]. }
  destruct (loadingFlag (gen w)) eqn:Hflag.
  { exists 3%nat, w, []. cbn. rewrite Hs, Hu. cbn. rewrite Hnext. cbn. rewrite Hflag.
    split; [reflexivity|]. split; [reflexivity|]. split; [now right|].
    split; [intros [=]|intros (_ & _ & [=])]. }
  exists 4%nat, (go_loadNextSegment w), [Conc.LCas Conc.FromGo].
  cbn. rewrite Hs, Hu. cbn. rewrite Hnext. cbn. rewrite Hflag.
  split; [reflexivity|]. split; [reflexivity|]. split; [now left|].
  split; auto.
Qed.

(** The same on the next 1000 positions, a cursor past [Max]. *)
Lemma threshold_agrees_beyond :
  forallb (fun k => threshold_agrees 1000 (1001 + Z.of_nat k)) (seq 0 1000) = true.
Proof. vm_cast_no_check (eq_refl true). Qed.

Lemma threshold_2000 (used : Z) :
  1 <= used <= 2000 ->
  Float64.geb (Float64.div (Float64.of_int64 used) (Float64.of_int64 1000))
              Float64.c0_8
  = (4 * 1000 <=? 5 * used).
Proof.
  intros Hu. destruct (Z.le_gt_cases used 1000) as [Hle|Hgt].
  - apply threshold_1000. lia.
  - apply Bool.eqb_prop.
    assert (Hk : used = 1001 + Z.of_nat (Z.to_nat (used - 1001))) by lia.
    rewrite Hk.
    apply (proj1 (forallb_forall _ _) threshold_agrees_beyond (Z.to_nat (used - 1001))).
    apply in_seq. lia.
Qed.

Lemma usage_reached_2000 (s : Segment) :
  Max s - Min s + 1 = 1000 ->
  Min s <= Current s <= Max s + 1000 ->
  usage_reached s = (4 * (Max s - Min s + 1) <=? 5 * (Current s - Min s + 1)).
Proof.
  intros Hw Hc. unfold usage_reached.
  rewrite (sub_no_overflow (Current s)) by int64.
  rewrite (sub_no_overflow (Max s)) by int64.
  rewrite !add_no_overflow by int64.
  rewrite Hw. apply threshold_2000. lia.
Qed.

(** [shouldLoadNext] and the [go] statement of a caller that holds [id],
    among other threads: its accesses find the worlds [w1] (where it reads
    the cursor of the segment, [s1] there), [w2] (where it reads the
    standby slot), [w3] (where it reads the loading flag) and [w4] (where
    it starts the goroutine).  The caller returns [id] in any case, and
    starts a goroutine exactly when the float test holds of the cursor it
    read, the standby slot was nil when it read it and the flag was false
    when it read it. *)
Lemma shouldLoadNext_steps (a : addr) (id : Z) (w1 w2 w3 w4 : World) (s1 : Segment) :
  heap (gen w1) !! a = Some s1 ->
  exists started,
    steps_in [w1; w2; w3; w4] (Conc.NShouldCurrent a id)
    = (Conc.Done (Ok id), started) /\
    (started = [Conc.LCas Conc.FromGo] \/ started = []) /\
    (started = [Conc.LCas Conc.FromGo] <->
     usage_reached s1 = true /\
     nextSegment (gen w2) = None /\
     loadingFlag (gen w3) = false).
Proof.
  intros Hs.
  destruct (usage_reached s1) eqn:Hu;
    [destruct (nextSegment (gen w2)) as [p|] eqn:Hnext;
       [|destruct (loadingFlag (gen w3)) eqn:Hflag]|].
  all: repeat (cbn [steps_in Conc.step_thread is_nil negb];
               rewrite ?Hs, ?Hu, ?Hnext, ?Hflag).
  all: cbn.
  - exists []. split; [reflexivity|]. split; [now right|].
    split; [discriminate|intros (_ & [=] & _)].
  - exists []. split; [reflexivity|]. split; [now right|].
    split; [discriminate|intros (_ & _ & [=])].
  - exists [Conc.LCas Conc.FromGo]. split; [reflexivity|]. split; [now left|].
    split; auto.
  - exists []. split; [reflexivity|]. split; [now right|].
    split; [discriminate|intros ([=] & _)].
Qed.

(** C7, as amended: a successful [NextID] on an active segment [s] of
    1000 identifiers returns [id = Current s + 1] and, in the sequential
    reading, starts a refill goroutine exactly when the usage ratio
    [(id - Min s + 1) / (Max s - Min s + 1)] is at least 4/5 (written
    without division), the standby slot is nil and the loading flag is
    false; the result is [Ok id] in both cases, the generator is the one
    with the cursor advanced, and the call makes no round trip to the
    store.  Among other threads, the check and the [go] statement are up
    to four accesses, made in the worlds [w1], [w2], [w3] and [w4] that
    the other threads left at those moments, whatever they are: the caller
    still returns its [id], and it starts the goroutine exactly when the
    float test of [shouldLoadNext] holds of the cursor as read in [w1]
    (the segment is [s1] there), the standby slot is nil in [w2] and the
    loading flag is false in [w3].  On a segment of 1000 identifiers whose
    cursor stands between [Min] and [Max + 1000], the float test is the
    exact comparison of the ratio with 4/5. *)
Theorem NextID_prefetch_iff (w : World) (a : addr) (s : Segment) :
  currentSegment (gen w) = Some a ->
  heap (gen w) !! a = Some s ->
  Int64.in_range (Current s) -> Int64.in_range (Max s) ->
  Max s - Min s + 1 = 1000 ->
  Min s - 1 <= Current s < Max s ->
  (exists w',
     Seq.NextID w = (Ok (Current s + 1), w') /\
     gen w' = gen (advanced a s w) /\
     store_calls w' = store_calls w /\
     (spawned w' = S (spawned w) \/ spawned w' = spawned w) /\
     (spawned w' = S (spawned w) <->
      4 * (Max s - Min s + 1) <= 5 * ((Current s + 1) - Min s + 1) /\
      nextSegment (gen w) = None /\
      loadingFlag (gen w) = false)) /\
  (forall (w1 w2 w3 w4 : World) (s1 : Segment) (id : Z),
     heap (gen w1) !! a = Some s1 ->
     exists started,
       steps_in [w1; w2; w3; w4] (Conc.NShouldCurrent a id)
       = (Conc.Done (Ok id), started) /\
       (started = [Conc.LCas Conc.FromGo] \/ started = []) /\
       (started = [Conc.LCas Conc.FromGo] <->
        usage_reached s1 = true /\
        nextSegment (gen w2) = None /\
        loadingFlag (gen w3) = false) /\
       (Max s1 - Min s1 + 1 = 1000 ->
        Min s1 <= Current s1 <= Max s1 + 1000 ->
        (usage_reached s1 = true <->
         4 * (Max s1 - Min s1 + 1) <= 5 * (Current s1 - Min s1 + 1)))).
Proof.
  intros Hc Hs Hmin Hmax Hwidth Hcur.
  split.
  2:{ intros w1 w2 w3 w4 s1 id Hs1.
      destruct (shouldLoadNext_steps a id w1 w2 w3 w4 s1 Hs1) as (started & H1 & H2 & H3).
      exists started. split; [exact H1|]. split; [exact H2|]. split; [exact H3|].
      intros Hw1 Hc1. rewrite usage_reached_2000 by assumption.
      apply Z.leb_le. }
  rewrite (NextID_in_range w a s Hc Hs) by int64.
  unfold Seq.shouldLoadNext. rewrite (advanced_lookup w a s Hs).
  rewrite usage_reached_1000 by (cbn; lia). cbn [Min Max Current].
  change (nextSegment (gen (advanced a s w))) with (nextSegment (gen w)).
  change (loadingFlag (gen (advanced a s w))) with (loadingFlag (gen w)).
  destruct (Z.leb_spec (4 * (Max s - Min s + 1)) (5 * (Current s + 1 - Min s + 1)))
    as [Hratio|Hratio];
    destruct (nextSegment (gen w)) as [n|];
    destruct (loadingFlag (gen w)); cbn;
    eexists; (split; [reflexivity|]); cbn;
    (split; [reflexivity|]); (split; [reflexivity|]).
  all: split; [auto|]; split.
  all: try (intros (? & ? & ?); try discriminate; lia).
  all: try (intros; exfalso; lia).
  all: auto.
Qed.

(** ** What a refill and a switch can change *)

Lemma preserved_refl (w : World) : preserved w w.
Proof. split; auto. Qed.

Lemma preserved_trans (w1 w2 w3 : World) :
  preserved w1 w2 -> preserved w2 w3 -> preserved w1 w3.
Proof.
  intros [] []. split; try congruence. lia.
Qed.

Lemma loadNextSegment_frame (w w' : World) (r : option error) :
  Seq.loadNextSegment w = (r, w') ->
  preserved w w' /\
  (store_calls w' <= S (store_calls w))%nat /\
  slept w' = slept w /\
  spawned w' = spawned w /\
  currentSegment (gen w') = currentSegment (gen w) /\
  (forall e, r = Some e ->
     heap (gen w') = heap (gen w) /\ nextSegment (gen w') = nextSegment (gen w)) /\
  (r = None -> w' = w \/ is_nil (nextSegment (gen w')) = false).
Proof.
  unfold Seq.loadNextSegment.
  destruct (loadingFlag (gen w)) eqn:Hflag.
  - intros [= <- <-]. repeat split; auto; discriminate.
  - cbn. destruct (store w (store_calls w)) as [|v].
    + intros [= <- <-]. repeat split; cbn; auto; try discriminate; lia.
    + destruct (v <=? 0).
      * intros [= <- <-]. repeat split; cbn; auto; try discriminate; lia.
      * intros [= <- <-]. repeat split; cbn; auto; try discriminate; lia.
Qed.

Lemma switch_loop_break (n i : nat) (w : World) :
  is_nil (nextSegment (gen w)) = false -> Seq.switch_loop n i w = (None, w).
Proof. intros H. destruct n; cbn; [reflexivity|]. now rewrite H. Qed.

Lemma switch_loop_guarded (n i : nat) (w : World) :
  loadingFlag (gen w) = true -> Seq.switch_loop n i w = (None, w).
Proof.
  intros H. revert i. induction n as [|n IH]; intros i; cbn; [reflexivity|].
  destruct (negb (is_nil (nextSegment (gen w)))); [reflexivity|].
  rewrite (loadNextSegment_guarded w H). apply IH.
Qed.

Lemma no_backoff (i : nat) (l : list Z) :
  exists m, (m <= 2 - i)%nat /\
    l = l ++ map (fun k => 100 * (Z.of_nat k + 1)) (seq i m).
Proof. exists 0%nat. cbn. rewrite app_nil_r. split; [lia|reflexivity]. Qed.

(** The loop of [switchSegment] entered at index [i]: at most one round
    trip per remaining iteration, and a sleep of [100 * (k + 1)] after the
    failed attempt of each index [k] it went through, the last index
    excepted.  When it returns an error nothing was installed. *)
Lemma switch_loop_frame (n i : nat) : forall (w w' : World) (r : option error),
  (i + n = Seq.maxRetries)%nat ->
  Seq.switch_loop n i w = (r, w') ->
  preserved w w' /\
  (store_calls w' <= store_calls w + n)%nat /\
  (exists m, (m <= 2 - i)%nat /\
     slept w' = slept w ++ map (fun k => 100 * (Z.of_nat k + 1)) (seq i m)) /\
  spawned w' = spawned w /\
  currentSegment (gen w') = currentSegment (gen w) /\
  (forall e, r = Some e ->
     heap (gen w') = heap (gen w) /\ nextSegment (gen w') = None).
Proof.
  unfold Seq.maxRetries.
  revert i. induction n as [|n IH]; intros i w w' r Hi; cbn [Seq.switch_loop].
  - intros [= <- <-].
    conj; auto using preserved_refl, no_backoff; try discriminate; lia.
  - destruct (nextSegment (gen w)) as [p|] eqn:Hnext; cbn [is_nil negb].
    + intros [= <- <-].
      conj; auto using preserved_refl, no_backoff; try discriminate; try lia.
    + destruct (Seq.loadNextSegment w) as [err w1] eqn:Hload.
      destruct (loadNextSegment_frame _ _ _ Hload)
        as (Hp1 & Hc1 & Hs1 & Hg1 & Hcur1 & Herr1 & Hnil1).
      destruct err as [e|].
      * destruct (Herr1 e eq_refl) as [Hheap1 Hnext1].
        destruct (i =? Seq.maxRetries - 1)%nat eqn:Hlast.
        -- intros [= <- <-]. conj; auto; try lia; try congruence.
           ++ rewrite Hs1. apply no_backoff.
           ++ intros _ _. split; congruence.
        -- intros Hrec. apply Nat.eqb_neq in Hlast. unfold Seq.maxRetries in Hlast.
           apply IH in Hrec; [|lia].
           destruct Hrec as (Hp & Hc & (m & Hm & Hs) & Hg & Hcur & Herr).
           cbn in Hp, Hc, Hs, Hg, Hcur, Herr.
           conj; try lia; try congruence.
           ++ eapply preserved_trans; [exact Hp1|].
              destruct Hp; split; auto.
           ++ exists (S m). split; [lia|].
              rewrite Hs, Hs1, <- app_assoc. reflexivity.
           ++ intros e' He'. destruct (Herr e' He'). split; congruence.
      * assert (Hrest : Seq.switch_loop n (S i) w1 = (None, w1)).
        { destruct (Hnil1 eq_refl) as [-> | Hset].
          - destruct (loadingFlag (gen w)) eqn:Hflag.
            + now apply switch_loop_guarded.
            + exfalso. revert Hload. unfold Seq.loadNextSegment. rewrite Hflag. cbn.
              destruct (store w (store_calls w)) as [|v]; [discriminate|].
              destruct (v <=? 0); [discriminate|].
              intros [= Hw]. apply (f_equal store_calls) in Hw. cbn in Hw. lia.
          - now apply switch_loop_break. }
        rewrite Hrest. intros [= <- <-].
        conj; auto; try lia; try discriminate.
        rewrite Hs1. apply no_backoff.
Qed.

Lemma switchSegment_frame (w w' : World) (r : option error) :
  Seq.switchSegment w = (r, w') ->
  preserved w w' /\
  (store_calls w' <= store_calls w + Seq.maxRetries)%nat /\
  (exists m, (m <= 2)%nat /\ slept w' = slept w ++ backoff m) /\
  spawned w' = spawned w /\
  (forall e, r = Some e -> currentSegment (gen w') = currentSegment (gen w)) /\
  (r = None ->
     is_nil (currentSegment (gen w')) = false /\ nextSegment (gen w') = None).
Proof.
  unfold Seq.switchSegment.
  destruct (Seq.switch_loop Seq.maxRetries 0 w) as [err w1] eqn:Hloop.
  apply switch_loop_frame in Hloop; [|reflexivity].
  destruct Hloop as (Hp & Hc & (m & Hm & Hs) & Hg & Hcur & Herr).
  assert (Hback : exists m, (m <= 2)%nat /\ slept w1 = slept w ++ backoff m).
  { exists m. split; [lia|exact Hs]. }
  destruct err as [e|].
  - intros [= <- <-]. conj; auto; discriminate.
  - destruct (nextSegment (gen w1)) as [p|] eqn:Hnext; cbn [is_nil].
    + intros [= <- <-]. cbn.
      conj; auto; try discriminate.
      destruct Hp. split; auto.
    + intros [= <- <-]. conj; auto; discriminate.
Qed.

Lemma AddInt64_Current_frame (a : addr) (d v : Z) (w w' : World) :
  AddInt64_Current a d w = Some (v, w') ->
  preserved w w' /\
  store_calls w' = store_calls w /\
  slept w' = slept w /\
  spawned w' = spawned w /\
  currentSegment (gen w') = currentSegment (gen w) /\
  nextSegment (gen w') = nextSegment (gen w).
Proof.
  unfold AddInt64_Current. destruct (heap (gen w) !! a); [|discriminate].
  intros [= <- <-]. cbn. conj; auto. split; auto.
Qed.

(** The loop of [NextID] with [n] iterations left: each iteration makes at
    most one switch. *)
Lemma NextID_loop_frame (n : nat) : forall (w w' : World) (r : result Z),
  Seq.NextID_loop n w = (r, w') ->
  preserved w w' /\
  (store_calls w' <= store_calls w + n * Seq.maxRetries)%nat /\
  (exists ms, (length ms <= n)%nat /\ Forall (fun m => (m <= 2)%nat) ms /\
     slept w' = slept w ++ concat (map backoff ms)).
Proof.
  induction n as [|n IH]; intros w w' r; cbn [Seq.NextID_loop].
  - intros [= <- <-]. conj; auto using preserved_refl; try lia.
    exists []. cbn. rewrite app_nil_r. auto.
  - assert (Hstay : forall w1, preserved w w1 -> store_calls w1 = store_calls w ->
      slept w1 = slept w ->
      preserved w w1 /\
      (store_calls w1 <= store_calls w + S n * Seq.maxRetries)%nat /\
      (exists ms, (length ms <= S n)%nat /\ Forall (fun m => (m <= 2)%nat) ms /\
         slept w1 = slept w ++ concat (map backoff ms))).
    { intros w1 Hp Hc Hs. conj; auto; try lia.
      exists []. cbn. rewrite app_nil_r. conj; auto; lia. }
    destruct (currentSegment (gen w)) as [current|];
      [|intros [= <- <-]; apply Hstay; auto using preserved_refl].
    destruct (AddInt64_Current current 1 w) as [[id wa]|] eqn:Hadd;
      [|intros [= <- <-]; apply Hstay; auto using preserved_refl].
    apply AddInt64_Current_frame in Hadd.
    destruct Hadd as (Hpa & Hca & Hsa & _).
    destruct (heap (gen wa) !! current) as [s'|];
      [|intros [= <- <-]; apply Hstay; auto].
    destruct (id <=? Max s').
    + generalize (Seq.shouldLoadNext (Some current) wa).
      intros b [= <- <-]. destruct b; apply Hstay; auto.
      destruct Hpa; split; auto.
    + destruct (Seq.switchSegment wa) as [err w1] eqn:Hsw.
      apply switchSegment_frame in Hsw.
      destruct Hsw as (Hp1 & Hc1 & (m & Hm & Hs1) & _).
      destruct err as [e|].
      * intros [= <- <-]. conj; try lia.
        -- eapply preserved_trans; eauto.
        -- exists [m]. cbn. rewrite app_nil_r. conj; auto; try lia. congruence.
      * intros Hrec. apply IH in Hrec.
        destruct Hrec as (Hp & Hc & (ms & Hlen & Hall & Hs)).
        conj; try lia.
        -- eapply preserved_trans; [|exact Hp]. eapply preserved_trans; eauto.
        -- exists (m :: ms). cbn. conj; auto; try lia.
           rewrite Hs, Hs1, Hsa, <- app_assoc. reflexivity.
Qed.

(** ** Bounded progress in the interleaved reading *)

Ltac small_index i :=
  destruct i as [|[|[|i]]]; try discriminate.

(** Whatever the other threads do to the world, each access of a thread
    brings it strictly closer to its end, and the goroutines it starts are
    at the entry of [loadNextSegment]. *)
Lemma step_thread_decreases (t : Conc.pc) (w : World) :
  Conc.pc_ok t = true ->
  Conc.pc_ok (fst (fst (Conc.step_thread t w))) = true /\
  Forall (fun t' => t' = Conc.LCas Conc.FromGo) (snd (Conc.step_thread t w)) /\
  ((Conc.remaining (fst (fst (Conc.step_thread t w))) < Conc.remaining t)%nat \/
   (Conc.remaining t = 0%nat /\ fst (fst (Conc.step_thread t w)) = t)).
Proof.
  intros Hok.
  destruct t as [i|i a|a id|id|id|id|k i|k i|i|i|i p|i|c|c|c v|c r|r|];
    cbn [Conc.step_thread].
  all: try match goal with c : Conc.caller |- _ => destruct c as [k i|] end.
  all: cbn in Hok; try (apply andb_true_iff in Hok; destruct Hok as [Hk Hi]).
  all: try small_index k; try small_index i.
  all: cbn [Conc.ret_load Conc.ret_switch Conc.switch_iter Conc.NextID_iter
            Seq.maxRetries Nat.eqb Nat.ltb Nat.leb Nat.sub].
  all: repeat match goal with
         | |- context [match ?x with _ => _ end] =>
             match type of x with
             | ptr => destruct x
             | option _ => destruct x
             | bool => destruct x
             | StoreReply => destruct x
             | prod _ _ => destruct x
             end
         | |- context [if ?x then _ else _] => destruct x
         end.
  all: cbn; conj; auto; try (left; lia); try (right; split; reflexivity).
Qed.

Lemma remaining_0_finished (t : Conc.pc) :
  Conc.pc_ok t = true -> Conc.remaining t = 0%nat -> Conc.finished t = true.
Proof.
  destruct t as [i|i a|a id|id|id|id|k i|k i|i|i|i p|i|c|c|c v|c r|r|];
    cbn; auto; try lia.
  all: try match goal with c : Conc.caller |- _ => destruct c as [k i|] end.
  all: cbn; try lia.
  all: intros Hok; try (apply andb_true_iff in Hok; destruct Hok as [Hk Hi]).
  all: try small_index k; try small_index i; cbn; lia.
Qed.

Lemma exec_pc_ok (e : Conc.event) (c : Conc.Config) :
  Forall (fun t => Conc.pc_ok t = true) (Conc.threads c) ->
  Forall (fun t => Conc.pc_ok t = true) (Conc.threads (Conc.exec e c)).
Proof.
  intros Hall. destruct e as [|tid]; cbn.
  - apply Forall_app. split; [exact Hall|]. repeat constructor.
  - destruct (Conc.threads c !! tid) as [t|] eqn:Ht; [|exact Hall].
    assert (Hok : Conc.pc_ok t = true).
    { rewrite Forall_forall in Hall. apply Hall. eapply list_elem_of_lookup_2, Ht. }
    destruct (step_thread_decreases t (Conc.world c) Hok) as (Hok' & Hstarted & _).
    destruct (Conc.step_thread t (Conc.world c)) as [[t' w'] started]. cbn in *.
    apply Forall_app. split.
    + apply Forall_insert; assumption.
    + eapply Forall_impl; [exact Hstarted|]. intros ? ->. reflexivity.
Qed.

(** Under any schedule, a thread that is given [n] turns has at most
    [remaining - n] accesses left. *)
Lemma run_progress (schedule : list Conc.event) :
  forall (c : Conc.Config) (tid : nat) (t : Conc.pc),
  Forall (fun t => Conc.pc_ok t = true) (Conc.threads c) ->
  Conc.threads c !! tid = Some t ->
  exists t',
    Conc.threads (Conc.run schedule c) !! tid = Some t' /\
    Conc.pc_ok t' = true /\
    (Conc.remaining t' <= Conc.remaining t - Conc.turns tid schedule)%nat.
Proof.
  induction schedule as [|e rest IH]; intros c tid t Hall Ht.
  - exists t. cbn. conj; auto; try lia.
    rewrite Forall_forall in Hall. apply Hall. eapply list_elem_of_lookup_2, Ht.
  - assert (Hok : Conc.pc_ok t = true).
    { rewrite Forall_forall in Hall. apply Hall. eapply list_elem_of_lookup_2, Ht. }
    pose proof (exec_pc_ok e c Hall) as Hall'.
    change (Conc.run (e :: rest) c) with (Conc.run rest (Conc.exec e c)).
    pose proof (lookup_lt_Some _ _ _ Ht) as Hlen.
    destruct e as [|tid']; cbn [Conc.turns].
    + apply (IH (Conc.exec Conc.Arrive c) tid t Hall').
      cbn. now apply lookup_app_l_Some.
    + destruct (Nat.eqb_spec tid' tid) as [->|Hne].
      * destruct (step_thread_decreases t (Conc.world c) Hok) as (_ & _ & Hdec).
        destruct (IH (Conc.exec (Conc.Step tid) c) tid
                     (fst (fst (Conc.step_thread t (Conc.world c)))) Hall')
          as (t' & Hlook & Hok' & Hle).
        { cbn. rewrite Ht.
          destruct (Conc.step_thread t (Conc.world c)) as [[t1 w1] started]. cbn.
          apply lookup_app_l_Some. now apply list_lookup_insert_eq. }
        exists t'. conj; auto.
        destruct Hdec as [Hlt|[H0 Heq]]; [lia | rewrite Heq in Hle; lia].
      * apply (IH (Conc.exec (Conc.Step tid') c) tid t Hall').
        cbn. destruct (Conc.threads c !! tid') as [t1|]; [|exact Ht].
        destruct (Conc.step_thread t1 (Conc.world c)) as [[t2 w2] started]. cbn.
        apply lookup_app_l_Some. rewrite list_lookup_insert_ne; auto.
Qed.

(** ** Termination and the retry budget *)

(** C4: [NextID] always returns, an identifier or an error.  [NextID]
    goes through its loop at most twice, hence through at most two
    switches; a switch makes at most [maxRetries = 3] refill attempts and
    sleeps [100ms * k] after the failed attempt number [k], the last one
    excepted.  So one call of [switchSegment] makes at most 3 round trips
    to the store and sleeps [backoff m] for some [m <= 2], and one call of
    [NextID] makes at most 6 round trips and sleeps
    [backoff m1 ++ backoff m2]; the longest backoff is [100; 200]. *)
Theorem NextID_terminates_bounded (w : World) :
  (exists r w' m1 m2,
     Seq.NextID w = (r, w') /\
     (store_calls w' <= store_calls w + 2 * Seq.maxRetries)%nat /\
     (m1 <= 2)%nat /\ (m2 <= 2)%nat /\
     slept w' = slept w ++ backoff m1 ++ backoff m2) /\
  (exists r w' m,
     Seq.switchSegment w = (r, w') /\
     (store_calls w' <= store_calls w + Seq.maxRetries)%nat /\
     (m <= 2)%nat /\
     slept w' = slept w ++ backoff m) /\
  Seq.maxRetries = 3%nat /\
  backoff 0 = [] /\ backoff 1 = [100 * 1] /\ backoff 2 = [100 * 1; 100 * 2].
Proof.
  conj; try reflexivity.
  - destruct (Seq.NextID w) as [r w'] eqn:Hrun.
    apply NextID_loop_frame in Hrun.
    destruct Hrun as (_ & Hcalls & (ms & Hlen & Hall & Hslept)).
    destruct ms as [|m1 [|m2 [|m3 ms]]]; cbn in Hlen; try lia.
    + exists r, w', 0%nat, 0%nat. conj; auto; lia.
    + inversion Hall; subst.
      exists r, w', m1, 0%nat. conj; auto; lia.
    + inversion Hall as [|? ? ? Hall']; subst. inversion Hall'; subst.
      exists r, w', m1, m2. conj; auto; try lia.
      rewrite Hslept. cbn. now rewrite app_nil_r.
  - destruct (Seq.switchSegment w) as [r w'] eqn:Hrun.
    apply switchSegment_frame in Hrun.
    destruct Hrun as (_ & Hcalls & (m & Hm & Hslept) & _).
    exists r, w', m. auto.
Qed.

(** X2: in the interleaved reading: whatever the other callers and goroutines
    do, a thread that is given as many turns as [remaining] counts has
    finished; a caller of [NextID] has its result after at most 58
    accesses of its own, a refill goroutine ends after at most 4. *)
Theorem NextID_returns_under_any_schedule
    (schedule : list Conc.event) (c : Conc.Config) (tid : nat) (t : Conc.pc) :
  Forall (fun t => Conc.pc_ok t = true) (Conc.threads c) ->
  Conc.threads c !! tid = Some t ->
  (Conc.remaining t <= Conc.turns tid schedule)%nat ->
  exists t',
    Conc.threads (Conc.run schedule c) !! tid = Some t' /\
    Conc.finished t' = true /\
    Conc.remaining (Conc.NextID_iter 0) = 58%nat /\
    Conc.remaining (Conc.LCas Conc.FromGo) = 4%nat.
Proof.
  intros Hall Ht Hturns.
  destruct (run_progress schedule c tid t Hall Ht) as (t' & Hlook & Hok & Hle).
  exists t'. conj; auto. apply remaining_0_finished; [exact Hok|lia].
Qed.

(** ** Failure of the switch, and recovery *)

Lemma switchSegment_store_down (w : World) :
  loadingFlag (gen w) = false ->
  nextSegment (gen w) = None ->
  (forall k, (k < 3)%nat -> refused (store w (store_calls w + k)) = true) ->
  exists e, Seq.switchSegment w = (Some e, gave_up w).
Proof.
  intros Hflag Hnext Hdown.
  unfold Seq.switchSegment, Seq.maxRetries. cbn [Seq.switch_loop].
  rewrite Hnext. cbn [is_nil negb].
  destruct (loadNextSegment_refused w Hflag) as [e0 ->].
  { rewrite <- (Nat.add_0_r (store_calls w)). apply Hdown. lia. }
  cbn [Nat.eqb Seq.maxRetries Nat.sub].
  change (nextSegment (gen (Sleep _ (tick w)))) with (nextSegment (gen w)).
  rewrite Hnext. cbn [is_nil negb].
  destruct (loadNextSegment_refused (Sleep (100 * (Z.of_nat 0 + 1)) (tick w)))
    as [e1 ->]; [exact Hflag | |].
  { cbn. rewrite <- Nat.add_1_r. apply Hdown. lia. }
  cbn [Nat.eqb].
  change (nextSegment (gen (Sleep _ (tick (Sleep _ (tick w)))))) with (nextSegment (gen w)).
  rewrite Hnext. cbn [is_nil negb].
  destruct (loadNextSegment_refused
              (Sleep (100 * (Z.of_nat 1 + 1)) (tick (Sleep (100 * (Z.of_nat 0 + 1)) (tick w)))))
    as [e2 ->]; [exact Hflag | |].
  { cbn. replace (S (S (store_calls w))) with (store_calls w + 2)%nat by lia.
    apply Hdown. lia. }
  cbn [Nat.eqb]. eexists. reflexivity.
Qed.

Lemma switchSegment_recovers (w : World) (newMax : Z) :
  loadingFlag (gen w) = false ->
  nextSegment (gen w) = None ->
  store w (store_calls w) = StoreOk newMax ->
  0 < newMax <= Int64.max_int ->
  0 < step (gen w) < 2 ^ 31 ->
  Seq.switchSegment w = (None, promoted (installed newMax w)).
Proof.
  intros Hflag Hnext Hreply Hmax Hstep.
  unfold Seq.switchSegment, Seq.maxRetries. cbn [Seq.switch_loop].
  rewrite Hnext. cbn [is_nil negb].
  rewrite (loadNextSegment_ok w newMax) by assumption.
  cbn [installed gen nextSegment is_nil negb]. reflexivity.
Qed.

Lemma switchSegment_error_keeps_active (w w' : World) (e : error) :
  Seq.switchSegment w = (Some e, w') ->
  currentSegment (gen w') = currentSegment (gen w).
Proof.
  intros Hsw. apply switchSegment_frame in Hsw.
  destruct Hsw as (_ & _ & _ & _ & Herr & _). now apply (Herr e).
Qed.

(** ** The width of the segments *)

Lemma width_ok_cursor (w : World) (a : addr) (s : Segment) (v : Z) :
  heap (gen w) !! a = Some s ->
  width_ok w ->
  width_ok (with_gen (set_heap (<[a := mkSegment (Min s) (Max s) v]> (heap (gen w)))) w).
Proof.
  intros Hs [Hstep Hw]. split; [exact Hstep|]. cbn. intros b sb Hb.
  destruct (decide (a = b)) as [->|Hne].
  - rewrite list_lookup_insert_eq in Hb by (eapply lookup_lt_Some, Hs).
    injection Hb as <-. cbn. now apply (Hw b).
  - rewrite list_lookup_insert_ne in Hb by assumption. now apply (Hw b).
Qed.

Lemma width_ok_alloc (w : World) (v : Z) (f : SegmentIDGenerator -> SegmentIDGenerator) :
  (forall g, heap (f g) = heap g /\ step (f g) = step g) ->
  0 < v <= Int64.max_int ->
  width_ok w ->
  width_ok (with_gen f
    (snd (alloc (mkSegment (Int64.add (Int64.sub v (step (gen w))) 1) v
                           (Int64.sub v (step (gen w)))) w))).
Proof.
  intros Hf Hv [Hstep Hw]. unfold width_ok. cbn.
  destruct (Hf (set_heap (heap (gen w) ++
       [mkSegment (Int64.add (Int64.sub v (step (gen w))) 1) v
                  (Int64.sub v (step (gen w)))]) (gen w))) as [-> ->].
  cbn. split; [exact Hstep|].
  intros a s Ha. apply lookup_app_Some in Ha.
  destruct Ha as [Ha|[_ Ha]]; [now apply (Hw a)|].
  apply list_lookup_singleton_Some in Ha. destruct Ha as [_ <-]. cbn.
  rewrite Hstep.
  destruct (newSegment_fields v 1000 Hv ltac:(lia)) as [_ ->]. lia.
Qed.

Lemma width_ok_gen (w w' : World) :
  heap (gen w') = heap (gen w) -> step (gen w') = step (gen w) ->
  width_ok w -> width_ok w'.
Proof. unfold width_ok. intros -> ->. auto. Qed.

Lemma loadNextSegment_width (w : World) :
  store_typed (store w) -> width_ok w -> width_ok (snd (Seq.loadNextSegment w)).
Proof.
  intros Hst Hw. unfold Seq.loadNextSegment.
  destruct (loadingFlag (gen w)); [exact Hw|]. cbn.
  destruct (store w (store_calls w)) as [|v] eqn:Hreply; [exact Hw|].
  destruct (Z.leb_spec v 0) as [Hle|Hlt]; [exact Hw|].
  cbn [snd].
  assert (Hv : 0 < v <= Int64.max_int).
  { specialize (Hst _ _ Hreply). int64. }
  pose proof (width_ok_alloc w v
    (fun g => set_loadingFlag false (set_nextSegment (Some (length (heap (gen w)))) g))
    ltac:(intros; split; reflexivity) Hv Hw) as Hnew.
  eapply width_ok_gen; [| |exact Hnew]; reflexivity.
Qed.

Lemma loadNextSegment_store (w : World) : store (snd (Seq.loadNextSegment w)) = store w.
Proof.
  destruct (Seq.loadNextSegment w) as [r w'] eqn:H.
  apply loadNextSegment_frame in H. destruct H as ([] & _). assumption.
Qed.

Lemma switch_loop_width (n i : nat) (w : World) :
  store_typed (store w) -> width_ok w ->
  width_ok (snd (Seq.switch_loop n i w)).
Proof.
  revert i w. induction n as [|n IH]; intros i w Hst Hw; cbn [Seq.switch_loop];
    [exact Hw|].
  destruct (negb (is_nil (nextSegment (gen w)))); [exact Hw|].
  pose proof (loadNextSegment_width w Hst Hw) as Hw1.
  pose proof (loadNextSegment_store w) as Hst1.
  destruct (Seq.loadNextSegment w) as [err w1]. cbn [snd] in *.
  assert (Hst1' : store_typed (store w1)) by now rewrite Hst1.
  destruct err as [e|].
  - destruct (i =? Seq.maxRetries - 1)%nat; [exact Hw1|].
    apply IH; [exact Hst1'|]. eapply width_ok_gen; [| |exact Hw1]; reflexivity.
  - now apply IH.
Qed.

Lemma switchSegment_width (w : World) :
  store_typed (store w) -> width_ok w -> width_ok (snd (Seq.switchSegment w)).
Proof.
  intros Hst Hw. unfold Seq.switchSegment.
  pose proof (switch_loop_width Seq.maxRetries 0 w Hst Hw) as Hw1.
  destruct (Seq.switch_loop Seq.maxRetries 0 w) as [err w1]. cbn [snd] in *.
  destruct err as [e|]; [exact Hw1|].
  destruct (is_nil (nextSegment (gen w1))); [exact Hw1|].
  eapply width_ok_gen; [| |exact Hw1]; reflexivity.
Qed.

Lemma NextID_loop_width (n : nat) (w : World) :
  store_typed (store w) -> width_ok w -> width_ok (snd (Seq.NextID_loop n w)).
Proof.
  revert w. induction n as [|n IH]; intros w Hst Hw; cbn [Seq.NextID_loop];
    [exact Hw|].
  destruct (currentSegment (gen w)) as [current|]; [|exact Hw].
  unfold AddInt64_Current.
  destruct (heap (gen w) !! current) as [s|] eqn:Hs; [|exact Hw].
  pose proof (width_ok_cursor w current s (Int64.add (Current s) 1) Hs Hw) as Hwa.
  set (wa := with_gen _ w) in *.
  destruct (heap (gen wa) !! current) as [s'|]; [|exact Hwa].
  destruct (Int64.add (Current s) 1 <=? Max s').
  - generalize (Seq.shouldLoadNext (Some current) wa). intros [|]; [|exact Hwa].
    eapply width_ok_gen; [| |exact Hwa]; reflexivity.
  - pose proof (switchSegment_width wa Hst Hwa) as Hw1.
    assert (Hst1 : store (snd (Seq.switchSegment wa)) = store w).
    { destruct (Seq.switchSegment wa) as [r w1] eqn:H.
      apply switchSegment_frame in H. destruct H as ([] & _). assumption. }
    destruct (Seq.switchSegment wa) as [err w1]. cbn [snd] in *.
    destruct err as [e|]; [exact Hw1|].
    apply IH; [now rewrite Hst1|exact Hw1].
Qed.

Lemma NextID_loop_store (n : nat) (w : World) :
  store (snd (Seq.NextID_loop n w)) = store w.
Proof.
  destruct (Seq.NextID_loop n w) as [r w'] eqn:H.
  apply NextID_loop_frame in H. destruct H as ([] & _). assumption.
Qed.

Lemma apply_op_width (o : op) (w : World) :
  store_typed (store w) -> width_ok w ->
  store_typed (store (apply_op o w)) /\ width_ok (apply_op o w).
Proof.
  intros Hst Hw. destruct o; cbn [apply_op].
  - split; [unfold Seq.NextID; now rewrite NextID_loop_store|].
    now apply NextID_loop_width.
  - unfold Seq.background. destruct (spawned w) as [|k]; [auto|].
    split; [now rewrite loadNextSegment_store|].
    apply loadNextSegment_width; [exact Hst|].
    eapply width_ok_gen; [| |exact Hw]; reflexivity.
Qed.

Lemma run_ops_width (ops : list op) (w : World) :
  store_typed (store w) -> width_ok w -> width_ok (run_ops ops w).
Proof.
  revert w. induction ops as [|o ops IH]; intros w Hst Hw; [exact Hw|].
  destruct (apply_op_width o w Hst Hw). now apply IH.
Qed.

Lemma NewSegmentIDGenerator_width (connected : bool) (st : nat -> StoreReply) (w : World) :
  store_typed st ->
  Seq.NewSegmentIDGenerator connected st = Ok w ->
  store w = st /\ width_ok w.
Proof.
  intros Hst. unfold Seq.NewSegmentIDGenerator.
  destruct connected; [|discriminate]. cbn [negb].
  set (w0 := mkWorld (mkGenerator [] None None 1000 false) st 0 [] 0).
  assert (Hw0 : width_ok w0) by (split; [reflexivity|intros a s; discriminate]).
  pose proof (loadNextSegment_width w0 Hst Hw0) as Hw1.
  pose proof (loadNextSegment_store w0) as Hst1.
  destruct (Seq.loadNextSegment w0) as [err w1]. cbn [snd] in *.
  destruct err as [e|]; [discriminate|].
  intros [= <-]. split; [exact Hst1|].
  eapply width_ok_gen; [| |exact Hw1]; reflexivity.
Qed.


(** ** The steps of the interleaved reading, by cases *)

Lemma step_thread_trans (t : Conc.pc) (w : World) :
  Conc.trans w t (Conc.step_thread t w).
Proof.
  destruct t as [i|i a|a id|id|id|id|k i|k i|i|i|i p|i|c|c|c v|c r|r|];
    cbn [Conc.step_thread].
  - destruct (currentSegment (gen w)) eqn:H; econstructor; eassumption.
  - unfold AddInt64_Current.
    destruct (heap (gen w) !! a) as [s|] eqn:Hs; [|econstructor; eassumption].
    fold (Conc.bumped a s w).
    assert (Hs' : heap (gen (Conc.bumped a s w)) !! a
                  = Some (mkSegment (Min s) (Max s) (Int64.add (Current s) 1))).
    { cbn. apply list_lookup_insert_eq. eapply lookup_lt_Some, Hs. }
    rewrite Hs'. cbn [Max].
    destruct (Z.leb_spec (Int64.add (Current s) 1) (Max s));
      econstructor; eassumption.
  - destruct (heap (gen w) !! a) as [s|] eqn:Hs; [|econstructor; eassumption].
    destruct (usage_reached s) eqn:Hu; econstructor; eassumption.
  - destruct (nextSegment (gen w)) eqn:H; econstructor; eassumption.
  - destruct (loadingFlag (gen w)) eqn:H; econstructor; eassumption.
  - constructor.
  - destruct (nextSegment (gen w)) eqn:H; econstructor; eassumption.
  - constructor.
  - destruct (nextSegment (gen w)) eqn:H; econstructor; eassumption.
  - constructor.
  - constructor.
  - constructor.
  - destruct (loadingFlag (gen w)) eqn:H; econstructor; eassumption.
  - unfold FindOneAndUpdate. fold (tick w).
    destruct (store w (store_calls w)) as [|v] eqn:H; [econstructor; eassumption|].
    destruct (Z.leb_spec v 0); econstructor; eassumption.
  - apply Conc.T_LPublish.
  - constructor.
  - constructor.
  - constructor.
Qed.

Lemma publish_typed_resume (t : Conc.pc) :
  (forall c v, t <> Conc.LPublish c v) -> publish_typed t.
Proof. destruct t; cbn; auto. intros H. now destruct (H c maxID). Qed.

Lemma resume_not_publish :
  (forall i, forall c v, Conc.NextID_iter i <> Conc.LPublish c v) /\
  (forall k i, forall c v, Conc.switch_iter k i <> Conc.LPublish c v) /\
  (forall i r, forall c v, Conc.ret_switch i r <> Conc.LPublish c v) /\
  (forall c0 r, forall c v, Conc.ret_load c0 r <> Conc.LPublish c v).
Proof.
  assert (H1 : forall i c v, Conc.NextID_iter i <> Conc.LPublish c v).
  { intros i c v. unfold Conc.NextID_iter. destruct (i <? 2)%nat; discriminate. }
  assert (H2 : forall k i c v, Conc.switch_iter k i <> Conc.LPublish c v).
  { intros k i c v. unfold Conc.switch_iter.
    destruct (k <? Seq.maxRetries)%nat; discriminate. }
  assert (H3 : forall i r c v, Conc.ret_switch i r <> Conc.LPublish c v).
  { intros i [e|] c v; cbn; [discriminate|apply H1]. }
  conj; auto.
  intros [k i|] [e|] c v; cbn; try discriminate; auto.
  destruct (k =? 2)%nat; discriminate.
Qed.

(** Each access of a thread keeps the width invariant. *)
Lemma trans_width (w : World) (t : Conc.pc) (out : Conc.pc * World * list Conc.pc) :
  Conc.trans w t out ->
  store_typed (store w) -> width_ok w -> publish_typed t ->
  store (snd (fst out)) = store w /\
  width_ok (snd (fst out)) /\
  publish_typed (fst (fst out)) /\
  Forall publish_typed (snd out).
Proof.
  destruct resume_not_publish as (R1 & R2 & R3 & R4).
  intros Hstep Hst Hw Ht.
  destruct Hstep; cbn [fst snd]; refine (conj _ (conj _ (conj _ _)));
    try reflexivity; try exact Hw; try exact I; try (constructor; fail);
    try (apply publish_typed_resume; auto; fail);
    try (repeat constructor; fail).
  - now apply width_ok_cursor.
  - now apply width_ok_cursor.
  - cbn. match goal with H : store w _ = StoreOk _ |- _ => specialize (Hst _ _ H) end.
    int64.
  - apply (width_ok_alloc w maxID (set_nextSegment (Some (length (heap (gen w)))))).
    + intros g. split; reflexivity.
    + exact Ht.
    + exact Hw.
Qed.

Lemma exec_width (e : Conc.event) (c : Conc.Config) :
  conc_width c -> conc_width (Conc.exec e c).
Proof.
  intros (Hst & Hw & Hall). destruct e as [|tid]; cbn [Conc.exec].
  - refine (conj Hst (conj Hw _)).
    apply Forall_app. split; [exact Hall|]. repeat constructor.
  - destruct (Conc.threads c !! tid) as [t|] eqn:Ht; [|exact (conj Hst (conj Hw Hall))].
    assert (Htyped : publish_typed t).
    { rewrite Forall_forall in Hall. apply Hall. eapply list_elem_of_lookup_2, Ht. }
    destruct (trans_width _ _ _ (step_thread_trans t (Conc.world c)) Hst Hw Htyped)
      as (Hst' & Hw' & Ht' & Hstarted).
    destruct (Conc.step_thread t (Conc.world c)) as [[t' w'] started].
    cbn [fst snd Conc.world Conc.threads] in *.
    refine (conj _ (conj Hw' _)); cbn [Conc.world Conc.threads].
    + now rewrite Hst'.
    + apply Forall_app. split; [now apply Forall_insert|exact Hstarted].
Qed.

Lemma run_width (schedule : list Conc.event) (c : Conc.Config) :
  conc_width c -> conc_width (Conc.run schedule c).
Proof.
  revert c. induction schedule as [|e rest IH]; intros c Hc; [exact Hc|].
  apply IH, exec_width, Hc.
Qed.

(** C10: a generator built by [NewSegmentIDGenerator] has step 1000 and
    its first segment spans 1000 identifiers; and after any sequence of
    [NextID] calls and background refills, as after any interleaving of
    any number of callers and goroutines, the step is still 1000 and
    every segment object satisfies [Max - Min + 1 = 1000]. *)
Theorem segment_width_invariant
    (connected : bool) (st : nat -> StoreReply) (w : World)
    (ops : list op) (schedule : list Conc.event) :
  store_typed st ->
  Seq.NewSegmentIDGenerator connected st = Ok w ->
  width_ok w /\
  width_ok (run_ops ops w) /\
  width_ok (Conc.world (Conc.run schedule (Conc.mkConfig w []))).
Proof.
  intros Hst Hnew.
  destruct (NewSegmentIDGenerator_width connected st w Hst Hnew) as [Hstore Hw].
  refine (conj Hw (conj _ _)).
  - apply run_ops_width; [now rewrite Hstore|exact Hw].
  - apply (run_width schedule (Conc.mkConfig w [])).
    refine (conj _ (conj Hw _)); cbn; [now rewrite Hstore|constructor].
Qed.

(** ** The promotion is not atomic *)

(** C1 (the code departs from it): on the used-up generator with a
    standby segment ready and a healthy store, the schedule [race] of two
    concurrent callers shows the promotion of [switchSegment] as three
    separate accesses.  After A's store into the active slot both slots
    point to the same segment; after B's promotion the active slot is nil
    although no error occurred; both callers get "no available segment",
    and so does every later call, which finds the world unchanged. *)
Theorem promote_race_loses_active_segment :
  let before := Conc.mkConfig used_up_generator [] in
  let half := Conc.run (race_enter ++ race_promote_A) before in
  let after := Conc.run race before in
  (currentSegment (gen used_up_generator) = Some 0%nat /\
   nextSegment (gen used_up_generator) = Some 1%nat /\
   heap (gen used_up_generator) = [mkSegment 1 1000 1000; mkSegment 1001 2000 1000]) /\
  (currentSegment (gen (Conc.world half)) = Some 1%nat /\
   nextSegment (gen (Conc.world half)) = Some 1%nat) /\
  (currentSegment (gen (Conc.world after)) = None /\
   nextSegment (gen (Conc.world after)) = None /\
   store_calls (Conc.world after) = store_calls used_up_generator /\
   Conc.returned after 0 = Some (Err ErrNoSegment) /\
   Conc.returned after 1 = Some (Err ErrNoSegment)) /\
  (fst (Seq.NextID (Conc.world after)) = Err ErrNoSegment /\
   gen (snd (Seq.NextID (Conc.world after))) = gen (Conc.world after)).
Proof. vm_compute. repeat split; reflexivity. Qed.

(** ** Uniqueness and order of the identifiers, under any interleaving *)

Lemma neutral_NextID_iter (i : nat) : neutral (Conc.NextID_iter i).
Proof.
  unfold Conc.NextID_iter. destruct (i <? 2)%nat; repeat split; discriminate.
Qed.

Lemma neutral_switch_iter (k i : nat) : neutral (Conc.switch_iter k i).
Proof.
  unfold Conc.switch_iter. destruct (k <? Seq.maxRetries)%nat; repeat split; discriminate.
Qed.

Lemma neutral_ret_switch (i : nat) (r : option error) : neutral (Conc.ret_switch i r).
Proof.
  destruct r as [e|]; cbn; [repeat split; discriminate|apply neutral_NextID_iter].
Qed.

Lemma neutral_ret_load (c : Conc.caller) (r : option error) : neutral (Conc.ret_load c r).
Proof.
  destruct c as [k i|]; cbn; [|repeat split; discriminate].
  destruct r as [e|]; [|apply neutral_switch_iter].
  destruct (k =? 2)%nat; repeat split; discriminate.
Qed.

Create HintDb neutral.
#[local] Hint Resolve neutral_NextID_iter neutral_switch_iter neutral_ret_switch
  neutral_ret_load : neutral.

Ltac neutral_of t :=
  let H := fresh "Hneutral" in
  assert (H : neutral t) by auto with neutral;
  destruct H as (? & ? & ? & ?);
  generalize dependent t; intros.

(** Replaces every resumption point of the goal by a thread of which only
    [neutral] is known. *)
Ltac forget_resume :=
  repeat match goal with
         | |- context [Conc.ret_load ?c ?r] => neutral_of (Conc.ret_load c r)
         | |- context [Conc.ret_switch ?i ?r] => neutral_of (Conc.ret_switch i r)
         | |- context [Conc.switch_iter ?k ?i] => neutral_of (Conc.switch_iter k i)
         | |- context [Conc.NextID_iter ?i] => neutral_of (Conc.NextID_iter i)
         end.

Lemma trans_frame (w w' : World) (t t' : Conc.pc) (started : list Conc.pc) :
  Conc.trans w t (t', w', started) ->
  store w' = store w /\
  step (gen w') = step (gen w) /\
  (store_calls w' = store_calls w \/
   (exists c, t = Conc.LFetch c) /\ store_calls w' = S (store_calls w)) /\
  Forall (fun t0 => t0 = Conc.LCas Conc.FromGo) started.
Proof.
  inversion 1; subst; cbn; conj; auto; eauto.
Qed.

Lemma trans_heap (w w' : World) (t t' : Conc.pc) (started : list Conc.pc) :
  Conc.trans w t (t', w', started) ->
  heap (gen w') = heap (gen w) \/
  (exists i a s, t = Conc.NAdd i a /\ heap (gen w) !! a = Some s /\
     heap (gen w') =
       <[a := mkSegment (Min s) (Max s) (Int64.add (Current s) 1)]> (heap (gen w))) \/
  (exists c v, t = Conc.LPublish c v /\
     heap (gen w') = heap (gen w) ++
       [mkSegment (Int64.add (Int64.sub v (step (gen w))) 1) v
                  (Int64.sub v (step (gen w)))]).
Proof.
  inversion 1; subst; cbn; auto.
  - right. left. do 3 eexists. split; [reflexivity|]. split; [eassumption|reflexivity].
  - right. left. do 3 eexists. split; [reflexivity|]. split; [eassumption|reflexivity].
  - right. right. do 2 eexists. split; reflexivity.
Qed.

Lemma trans_guard (w w' : World) (t t' : Conc.pc) (started : list Conc.pc) :
  Conc.trans w t (t', w', started) ->
  (Conc.in_refill t' = Conc.in_refill t /\
   loadingFlag (gen w') = loadingFlag (gen w)) \/
  (Conc.in_refill t = false /\ Conc.in_refill t' = true /\
   loadingFlag (gen w) = false /\ loadingFlag (gen w') = true) \/
  (Conc.in_refill t = true /\ Conc.in_refill t' = false /\
   loadingFlag (gen w') = false).
Proof.
  inversion 1; subst; clear H; forget_resume; cbn; intuition congruence.
Qed.

Lemma trans_claimed (w w' : World) (t t' : Conc.pc) (started : list Conc.pc) (x : Z) :
  Conc.trans w t (t', w', started) ->
  Conc.claimed t' = Some x ->
  (Conc.claimed t = Some x /\ forall tid, Conc.claim_of tid t t' = []) \/
  (exists i a s,
     t = Conc.NAdd i a /\ t' = Conc.NShouldCurrent a x /\
     heap (gen w) !! a = Some s /\
     x = Int64.add (Current s) 1 /\ x <= Max s /\
     heap (gen w') = <[a := mkSegment (Min s) (Max s) x]> (heap (gen w))).
Proof.
  inversion 1; subst; clear H; forget_resume; cbn; try congruence; auto.
  intros [= <-]. right. do 3 eexists. repeat split; eauto.
Qed.

Lemma trans_unclaimed (t t' : Conc.pc) (tid : nat) :
  Conc.claimed t' = None -> Conc.claim_of tid t t' = [].
Proof. destruct t, t'; cbn; auto; discriminate. Qed.

Lemma trans_publish (w w' : World) (t t' : Conc.pc) (started : list Conc.pc)
    (c : Conc.caller) (v : Z) :
  Conc.trans w t (t', w', started) ->
  t' = Conc.LPublish c v ->
  t = Conc.LFetch c /\ store w (store_calls w) = StoreOk v /\ 0 < v /\
  store_calls w' = S (store_calls w) /\ heap (gen w') = heap (gen w).
Proof.
  intros Htrans ->. inversion Htrans; subst; cbn; auto.
  all: exfalso;
    match goal with
    | H : ?t = Conc.LPublish _ _ |- _ =>
        let N := fresh in
        assert (N : neutral t) by auto with neutral;
        destruct N as (_ & _ & N & _); exact (N _ _ H)
    end.
Qed.

Lemma lookup_stepped (ths started : list Conc.pc) (tid j : nat) (t' tj : Conc.pc) :
  (tid < length ths)%nat ->
  (<[tid := t']> ths ++ started) !! j = Some tj ->
  (j = tid /\ tj = t') \/
  (j <> tid /\ ths !! j = Some tj) \/
  In tj started.
Proof.
  intros Hlen Hj. apply lookup_app_Some in Hj. destruct Hj as [Hj|[_ Hj]].
  - destruct (decide (j = tid)) as [->|Hne].
    + rewrite list_lookup_insert_eq in Hj by assumption. left. split; congruence.
    + rewrite list_lookup_insert_ne in Hj by congruence. right. left. auto.
  - right. right. apply list_elem_of_In. eapply list_elem_of_lookup_2, Hj.
Qed.

Lemma started_is_LCas (started : list Conc.pc) (tj : Conc.pc) :
  Forall (fun t0 => t0 = Conc.LCas Conc.FromGo) started ->
  In tj started -> tj = Conc.LCas Conc.FromGo.
Proof. rewrite Forall_forall. intros H Hin. apply H. now apply list_elem_of_In. Qed.

Lemma segment_inv_later (st : nat -> StoreReply) (B : Z) (n calls n' calls' : nat)
    (s : Segment) :
  (n <= n')%nat -> (calls <= calls')%nat ->
  segment_inv st B n calls s -> segment_inv st B n' calls' s.
Proof.
  intros Hn Hc [H1 H2 H3 H4 (k & Hk & Hg)].
  split; auto; try lia. exists k. split; [lia|exact Hg].
Qed.

Section Preservation.

Variable st : nat -> StoreReply.
Variable B : Z.
Hypothesis Hmonotone : store_monotone st.
Hypothesis Hbounded : store_bounded B st.

(** What one step does to the objects of the heap: an object that was
    there is still there, with the same bounds and a cursor that moved by
    at most one; an object that was not there is the one just published. *)
Lemma heap_after_step (n : nat) (log : list (nat * addr * Z)) (c : Conc.Config)
    (tid : nat) (t t' : Conc.pc) (w' : World) (started : list Conc.pc) :
  B + Z.of_nat n < Int64.max_int ->
  inv st B n log c ->
  Conc.threads c !! tid = Some t ->
  Conc.trans (Conc.world c) t (t', w', started) ->
  (forall a s, heap (gen (Conc.world c)) !! a = Some s ->
     exists s', heap (gen w') !! a = Some s' /\
       Min s' = Min s /\ Max s' = Max s /\
       Current s <= Current s' <= Current s + 1) /\
  (forall a s', heap (gen w') !! a = Some s' ->
     (exists s, heap (gen (Conc.world c)) !! a = Some s /\
        Min s' = Min s /\ Max s' = Max s /\
        Current s <= Current s' <= Current s + 1) \/
     (exists c0 v, t = Conc.LPublish c0 v /\
        a = length (heap (gen (Conc.world c))) /\
        s' = mkSegment (v - 999) v (v - 1000))).
Proof.
  intros Hroom Hinv Ht Htrans.
  destruct (trans_heap _ _ _ _ _ Htrans)
    as [Hsame | [(i & a0 & s0 & -> & Hs0 & Hheap) | (c0 & v & -> & Hheap)]].
  - rewrite Hsame. split; intros a s Hs; [|left]; exists s; repeat split; auto; lia.
  - assert (Hadd : Int64.add (Current s0) 1 = Current s0 + 1).
    { destruct (inv_segments _ _ _ _ _ Hinv a0 s0 Hs0) as [_ Hpos Hlo Hhi _].
      apply add_no_overflow. int64. }
    rewrite Hheap, Hadd.
    pose proof (lookup_lt_Some _ _ _ Hs0) as Hlen.
    split; intros a s Hs.
    + destruct (decide (a = a0)) as [->|Hne].
      * rewrite list_lookup_insert_eq by assumption.
        eexists. split; [reflexivity|]. cbn.
        rewrite Hs0 in Hs. injection Hs as <-. repeat split; lia.
      * rewrite list_lookup_insert_ne by congruence.
        exists s. repeat split; auto; lia.
    + left. destruct (decide (a = a0)) as [->|Hne].
      * rewrite list_lookup_insert_eq in Hs by assumption.
        injection Hs as <-. exists s0. cbn. repeat split; auto; lia.
      * rewrite list_lookup_insert_ne in Hs by congruence.
        exists s. repeat split; auto; lia.
  - destruct (inv_publish _ _ _ _ _ Hinv tid c0 v Ht) as (Hpos & (k & Hk & Hgrant) & _).
    pose proof (Hbounded k v Hgrant) as Hle.
    rewrite (inv_step _ _ _ _ _ Hinv) in Hheap.
    destruct (newSegment_fields v 1000) as [Hcur Hmin]; [lia|lia|].
    rewrite Hmin, Hcur in Hheap. rewrite Hheap.
    split; intros a s Hs.
    + exists s. rewrite lookup_app_l by (eapply lookup_lt_Some, Hs).
      repeat split; auto; lia.
    + apply lookup_app_Some in Hs. destruct Hs as [Hs|[Hge Hs]].
      * left. exists s. repeat split; auto; lia.
      * right. exists c0, v. apply list_lookup_singleton_Some in Hs.
        destruct Hs as [Hz <-]. repeat split; auto. lia.
        f_equal; lia.
Qed.

(** The ranges of two different objects do not meet. *)
Lemma ranges_disjoint (n : nat) (log : list (nat * addr * Z)) (c : Conc.Config)
    (a b : nat) (sa sb : Segment) (x : Z) :
  inv st B n log c ->
  heap (gen (Conc.world c)) !! a = Some sa ->
  heap (gen (Conc.world c)) !! b = Some sb ->
  Min sa <= x <= Max sa -> Min sb <= x <= Max sb -> a = b.
Proof.
  intros Hinv Ha Hb Hxa Hxb.
  destruct (inv_segments _ _ _ _ _ Hinv a sa Ha) as [Hmina _ _ _ _].
  destruct (inv_segments _ _ _ _ _ Hinv b sb Hb) as [Hminb _ _ _ _].
  destruct (Nat.lt_trichotomy a b) as [Hlt|[Heq|Hgt]]; [|exact Heq|].
  - pose proof (inv_sorted _ _ _ _ _ Hinv a b sa sb Hlt Ha Hb). lia.
  - pose proof (inv_sorted _ _ _ _ _ Hinv b a sb sa Hgt Hb Ha). lia.
Qed.

(** One access of a thread keeps the invariant, and what it dispenses
    joins the log. *)
Lemma step_inv (n : nat) (log : list (nat * addr * Z)) (c : Conc.Config)
    (tid : nat) (t : Conc.pc) :
  B + Z.of_nat n < Int64.max_int ->
  inv st B n log c ->
  Conc.threads c !! tid = Some t ->
  inv st B (S n) (log ++ Conc.claims_of_event (Conc.Step tid) c)
      (Conc.exec (Conc.Step tid) c).
Proof.
  intros Hroom Hinv Ht.
  pose proof (step_thread_trans t (Conc.world c)) as Htrans.
  unfold Conc.claims_of_event, Conc.exec. rewrite Ht.
  destruct (Conc.step_thread t (Conc.world c)) as [[t' w'] started].
  cbn [fst snd].
  destruct (trans_frame _ _ _ _ _ Htrans) as (Hstore & Hstep & Hcalls & Hstarted).
  destruct (heap_after_step n log c tid t t' w' started Hroom Hinv Ht Htrans)
    as [Hkept Hafter].
  pose proof (trans_guard _ _ _ _ _ Htrans) as Hguard.
  pose proof (lookup_lt_Some _ _ _ Ht) as Hlen.
  assert (Hcalls' : (store_calls (Conc.world c) <= store_calls w')%nat).
  { destruct Hcalls as [->|[_ ->]]; lia. }
  assert (Hthread : forall j tj,
    (<[tid := t']> (Conc.threads c) ++ started) !! j = Some tj ->
    (j = tid /\ tj = t') \/
    (j <> tid /\ Conc.threads c !! j = Some tj) \/
    tj = Conc.LCas Conc.FromGo).
  { intros j tj Hj.
    destruct (lookup_stepped _ _ _ _ _ _ Hlen Hj) as [H|[H|H]]; auto.
    right. right. eapply started_is_LCas; eassumption. }
  split; cbn [Conc.world Conc.threads].
  - (* inv_store *)
    rewrite Hstore. apply (inv_store _ _ _ _ _ Hinv).
  - (* inv_step *)
    rewrite Hstep. apply (inv_step _ _ _ _ _ Hinv).
  - (* inv_segments *)
    intros a s' Hs'.
    destruct (Hafter a s' Hs')
      as [(s & Hs & Hmin & Hmax & Hcur) | (c0 & v & -> & -> & ->)].
    + destruct (inv_segments _ _ _ _ _ Hinv a s Hs) as [H1 H2 H3 H4 (k & Hk & Hg)].
      split; try lia. exists k. split; [lia|congruence].
    + destruct (inv_publish _ _ _ _ _ Hinv tid c0 v Ht) as (Hpos & (k & Hk & Hg) & _).
      pose proof (Hbounded k v Hg).
      split; cbn; try lia. exists k. split; [lia|exact Hg].
  - (* inv_sorted *)
    intros a b sa sb Hab Ha Hb.
    destruct (Hafter a sa Ha)
      as [(sa0 & Hsa0 & _ & Hmaxa & _) | (c0 & v & -> & -> & ->)];
    destruct (Hafter b sb Hb)
      as [(sb0 & Hsb0 & _ & Hmaxb & _) | (c1 & v1 & Heq & -> & ->)].
    + rewrite Hmaxa, Hmaxb. eapply (inv_sorted _ _ _ _ _ Hinv); eassumption.
    + subst t. rewrite Hmaxa. cbn.
      destruct (inv_publish _ _ _ _ _ Hinv tid c1 v1 Ht) as (_ & _ & Hnewer).
      eapply Hnewer, Hsa0.
    + apply lookup_lt_Some in Hsb0. lia.
    + lia.
  - (* inv_publish *)
    intros j c0 v Hj.
    destruct (Hthread j _ Hj) as [[-> Heq]|[[Hne Hold]|Heq]]; [| |discriminate].
    + destruct (trans_publish _ _ _ _ _ c0 v Htrans (eq_sym Heq))
        as (-> & Hreply & Hpos & Hcalls1 & Hheap).
      rewrite (inv_store _ _ _ _ _ Hinv) in Hreply.
      split; [exact Hpos|]. split.
      * exists (store_calls (Conc.world c)). split; [lia|exact Hreply].
      * intros a s Hs. rewrite Hheap in Hs.
        destruct (inv_segments _ _ _ _ _ Hinv a s Hs) as [_ _ _ _ (k & Hk & Hg)].
        eapply Hmonotone; eassumption.
    + destruct (inv_publish _ _ _ _ _ Hinv j c0 v Hold) as (Hpos & (k & Hk & Hg) & Hnewer).
      split; [exact Hpos|]. split.
      * exists k. split; [lia|exact Hg].
      * intros a s' Hs'.
        destruct (Hafter a s' Hs')
          as [(s & Hs & _ & Hmax & _) | (c1 & v1 & -> & _ & _)].
        -- rewrite Hmax. eapply Hnewer, Hs.
        -- exfalso. apply Hne.
           eapply (inv_mutex _ _ _ _ _ Hinv); try eassumption; reflexivity.
  - (* inv_guard *)
    intros j tj Hj Hin.
    destruct (Hthread j _ Hj) as [[-> ->]|[[Hne Hold]| ->]]; [| |discriminate].
    + destruct Hguard as [[Heq Hflag]|[(_ & _ & _ & Hflag)|(_ & Hout & _)]];
        [|exact Hflag|congruence].
      rewrite Hflag. eapply (inv_guard _ _ _ _ _ Hinv); [exact Ht|congruence].
    + pose proof (inv_guard _ _ _ _ _ Hinv j tj Hold Hin) as Hheld.
      destruct Hguard as [[Heq Hflag]|[(_ & _ & Hfree & _)|(Hinside & _ & _)]];
        [congruence|congruence|].
      exfalso. apply Hne.
      eapply (inv_mutex _ _ _ _ _ Hinv); eassumption.
  - (* inv_mutex *)
    assert (Hother : forall j tj, j <> tid -> Conc.threads c !! j = Some tj ->
              Conc.in_refill tj = true -> Conc.in_refill t' = true -> False).
    { intros j tj Hne Hold Hin Hin'.
      pose proof (inv_guard _ _ _ _ _ Hinv j tj Hold Hin) as Hheld.
      destruct Hguard as [[Heq Hflag]|[(_ & _ & Hfree & _)|(_ & Hout & _)]];
        [|congruence|congruence].
      apply Hne. eapply (inv_mutex _ _ _ _ _ Hinv); try eassumption. congruence. }
    intros j1 j2 t1 t2 Hj1 Hj2 Hin1 Hin2.
    destruct (Hthread j1 _ Hj1) as [[-> ->]|[[Hne1 Hold1]| ->]]; [| |discriminate];
    destruct (Hthread j2 _ Hj2) as [[-> ->]|[[Hne2 Hold2]| ->]];
      try discriminate; try reflexivity.
    + exfalso. eapply Hother; eassumption.
    + exfalso. eapply Hother; eassumption.
    + eapply (inv_mutex _ _ _ _ _ Hinv); eassumption.
  - (* inv_log *)
    intros j a x Hin. apply in_app_or in Hin. destruct Hin as [Hin|Hin].
    + destruct (inv_log _ _ _ _ _ Hinv j a x Hin) as (s & Hs & Hrange & Hcur).
      destruct (Hkept a s Hs) as (s' & Hs' & Hmin & Hmax & Hcur').
      exists s'. split; [exact Hs'|]. lia.
    + destruct (Conc.claimed t') as [x'|] eqn:Hclaimed;
        [|rewrite trans_unclaimed in Hin by assumption; destruct Hin].
      destruct (trans_claimed _ _ _ _ _ x' Htrans Hclaimed)
        as [[_ Hnone]|(i & a0 & s0 & -> & -> & Hs0 & Hx & Hle & Hheap)];
        [rewrite Hnone in Hin; destruct Hin|].
      cbn in Hin. destruct Hin as [[= <- <- <-]|[]].
      destruct (Hkept a0 s0 Hs0) as (s' & Hs' & Hmin & Hmax & Hcur').
      destruct (inv_segments _ _ _ _ _ Hinv a0 s0 Hs0) as [H1 H2 H3 H4 _].
      assert (Hadd : Int64.add (Current s0) 1 = Current s0 + 1)
        by (apply add_no_overflow; int64).
      assert (Hbump : Current s' = Current s0 + 1).
      { rewrite Hheap in Hs'.
        rewrite list_lookup_insert_eq in Hs' by (eapply lookup_lt_Some; eassumption).
        injection Hs' as <-. cbn. congruence. }
      exists s'. split; [exact Hs'|]. rewrite Hx, Hadd in *. lia.
  - (* inv_claimed *)
    intros j tj x Hj Hclaimed.
    destruct (Hthread j _ Hj) as [[-> ->]|[[Hne Hold]| ->]]; [| |discriminate].
    + destruct (trans_claimed _ _ _ _ _ x Htrans Hclaimed)
        as [[Hbefore _]|(i & a0 & s0 & -> & -> & _)].
      * destruct (inv_claimed _ _ _ _ _ Hinv tid t x Ht Hbefore) as [a Ha].
        exists a. apply in_or_app. now left.
      * exists a0. apply in_or_app. right. cbn. now left.
    + destruct (inv_claimed _ _ _ _ _ Hinv j tj x Hold Hclaimed) as [a Ha].
      exists a. apply in_or_app. now left.
  - (* inv_nodup *)
    destruct (Conc.claimed t') as [x|] eqn:Hclaimed;
      [|rewrite trans_unclaimed by assumption; rewrite app_nil_r;
        apply (inv_nodup _ _ _ _ _ Hinv)].
    destruct (trans_claimed _ _ _ _ _ x Htrans Hclaimed)
      as [[_ Hnone]|(i & a0 & s0 & -> & -> & Hs0 & Hx & Hle & _)];
      [rewrite Hnone, app_nil_r; apply (inv_nodup _ _ _ _ _ Hinv)|].
    cbn [Conc.claim_of]. rewrite map_app. cbn [map snd].
    apply NoDup_app. split; [apply (inv_nodup _ _ _ _ _ Hinv)|]. split.
    + intros y Hy Hy'. apply list_elem_of_In in Hy.
      apply list_elem_of_In in Hy'. destruct Hy' as [<-|[]].
      apply in_map_iff in Hy. destruct Hy as ([[j b] y] & Heq & Hin).
      cbn in Heq. subst y.
      destruct (inv_log _ _ _ _ _ Hinv j b x Hin) as (sb & Hsb & Hrange & Hcur).
      destruct (inv_segments _ _ _ _ _ Hinv a0 s0 Hs0) as [H1 H2 H3 H4 _].
      assert (Hadd : Int64.add (Current s0) 1 = Current s0 + 1)
        by (apply add_no_overflow; int64).
      rewrite Hadd in *.
      assert (b = a0).
      { eapply (ranges_disjoint n log c b a0 sb s0 x Hinv); try eassumption. lia. }
      subst b. rewrite Hs0 in Hsb. injection Hsb as <-. lia.
    + apply NoDup_singleton.
  - (* inv_increasing *)
    intros i j tid1 tid2 a x y Hij Hi Hj.
    apply lookup_app_Some in Hj. destruct Hj as [Hj|[Hge Hj]].
    + pose proof (lookup_lt_Some _ _ _ Hj) as Hlt.
      rewrite lookup_app_l in Hi by lia.
      exact (inv_increasing _ _ _ _ _ Hinv i j tid1 tid2 a x y Hij Hi Hj).
    + destruct (Conc.claimed t') as [x'|] eqn:Hclaimed;
        [|rewrite trans_unclaimed in Hj by assumption; discriminate].
      destruct (trans_claimed _ _ _ _ _ x' Htrans Hclaimed)
        as [[_ Hnone]|(i0 & a0 & s0 & -> & -> & Hs0 & Hx & Hle & _)];
        [rewrite Hnone in Hj; discriminate|].
      cbn [Conc.claim_of] in Hi, Hj.
      apply list_lookup_singleton_Some in Hj. destruct Hj as [Hj [= <- <- <-]].
      rewrite lookup_app_l in Hi by lia.
      apply list_elem_of_lookup_2, list_elem_of_In in Hi.
      destruct (inv_log _ _ _ _ _ Hinv tid1 a0 x Hi) as (s & Hs & _ & Hcur).
      rewrite Hs0 in Hs. injection Hs as <-.
      destruct (inv_segments _ _ _ _ _ Hinv a0 s0 Hs0) as [H1 H2 H3 H4 _].
      rewrite Hx, add_no_overflow by int64. lia.
Qed.

Lemma inv_later (n : nat) (log : list (nat * addr * Z)) (c : Conc.Config) :
  inv st B n log c -> inv st B (S n) log c.
Proof.
  intros [H1 H2 H3 H4 H5 H6 H7 H8 H9 H10 H11]. split; auto.
  intros a s Hs. eapply segment_inv_later; [| |apply (H3 a s Hs)]; lia.
Qed.

Lemma arrive_inv (n : nat) (log : list (nat * addr * Z)) (c : Conc.Config) :
  inv st B n log c ->
  inv st B (S n) log (Conc.exec Conc.Arrive c).
Proof.
  intros Hinv. apply inv_later in Hinv.
  destruct Hinv as [H1 H2 H3 H4 H5 H6 H7 H8 H9 H10 H11].
  assert (Hthread : forall j tj,
    (Conc.threads c ++ [Conc.NextID_iter 0]) !! j = Some tj ->
    Conc.threads c !! j = Some tj \/ tj = Conc.NLoad 0).
  { intros j tj Hj. apply lookup_app_Some in Hj. destruct Hj as [Hj|[_ Hj]]; [auto|].
    apply list_lookup_singleton_Some in Hj. destruct Hj as [_ <-]. auto. }
  split; cbn [Conc.exec Conc.world Conc.threads]; auto.
  - intros j c0 v Hj. destruct (Hthread j _ Hj) as [Hold|[=]]. eauto.
  - intros j tj Hj Hin. destruct (Hthread j _ Hj) as [Hold| ->]; [eauto|discriminate].
  - intros j1 j2 t1 t2 Hj1 Hj2 Hin1 Hin2.
    destruct (Hthread j1 _ Hj1) as [Hold1| ->]; [|discriminate].
    destruct (Hthread j2 _ Hj2) as [Hold2| ->]; [|discriminate].
    eauto.
  - intros j tj x Hj Hclaimed.
    destruct (Hthread j _ Hj) as [Hold| ->]; [eauto|discriminate].
Qed.

Lemma exec_inv (n : nat) (log : list (nat * addr * Z)) (c : Conc.Config)
    (e : Conc.event) :
  B + Z.of_nat n < Int64.max_int ->
  inv st B n log c ->
  inv st B (S n) (log ++ Conc.claims_of_event e c) (Conc.exec e c).
Proof.
  intros Hroom Hinv. destruct e as [|tid].
  - cbn [Conc.claims_of_event]. rewrite app_nil_r. now apply arrive_inv.
  - destruct (Conc.threads c !! tid) as [t|] eqn:Ht.
    + now apply (step_inv n log c tid t).
    + unfold Conc.claims_of_event, Conc.exec. rewrite Ht, app_nil_r.
      now apply inv_later.
Qed.

(** The invariant holds all along a run that leaves the cursors room. *)
Lemma run_inv (schedule : list Conc.event) :
  forall (n : nat) (log : list (nat * addr * Z)) (c : Conc.Config),
  B + Z.of_nat (n + length schedule) < Int64.max_int ->
  inv st B n log c ->
  inv st B (n + length schedule) (log ++ Conc.dispensed schedule c)
      (Conc.run schedule c).
Proof.
  induction schedule as [|e rest IH]; intros n log c Hroom Hinv.
  - cbn. rewrite app_nil_r, Nat.add_0_r. exact Hinv.
  - cbn [Conc.dispensed length].
    change (Conc.run (e :: rest) c) with (Conc.run rest (Conc.exec e c)).
    rewrite app_assoc. replace (n + S (length rest))%nat with (S n + length rest)%nat by lia.
    apply IH.
    + cbn [length] in Hroom. replace (S n + length rest)%nat with (n + S (length rest))%nat by lia.
      exact Hroom.
    + apply exec_inv; [|exact Hinv]. cbn [length] in Hroom. lia.
Qed.

(** A freshly built generator with no caller yet satisfies the invariant. *)
Lemma NewSegmentIDGenerator_inv (connected : bool) (w : World) :
  B < Int64.max_int ->
  Seq.NewSegmentIDGenerator connected st = Ok w ->
  inv st B 0 [] (Conc.mkConfig w []).
Proof.
  intros Hroom. unfold Seq.NewSegmentIDGenerator.
  destruct connected; [|discriminate]. cbn [negb].
  unfold Seq.loadNextSegment. cbn.
  destruct (st 0%nat) as [|v] eqn:Hreply; [discriminate|].
  destruct (Z.leb_spec v 0) as [Hle|Hpos]; [discriminate|].
  intros [= <-].
  pose proof (Hbounded _ _ Hreply) as Hv.
  destruct (newSegment_fields v 1000) as [Hcur Hmin]; [lia|lia|].
  split; cbn; auto.
  - intros a s Hs. apply list_lookup_singleton_Some in Hs. destruct Hs as [_ <-].
    rewrite Hmin, Hcur. split; cbn; try lia. exists 0%nat. split; [lia|exact Hreply].
  - intros a b sa sb Hab Ha Hb.
    apply list_lookup_singleton_Some in Ha. apply list_lookup_singleton_Some in Hb. lia.
  - intros tid c0 v0 [=].
  - intros tid t [=].
  - intros tid1 tid2 t1 t2 [=].
  - intros tid a x [].
  - intros tid t x [=].
  - constructor.
  - intros i j tid1 tid2 a x y _ [=].
Qed.

End Preservation.

Lemma NoDup_map_eq {A K : Type} (f : A -> K) (l : list A) (e1 e2 : A) :
  NoDup (map f l) -> In e1 l -> In e2 l -> f e1 = f e2 -> e1 = e2.
Proof.
  induction l as [|e l IH]; cbn; [intros _ []|].
  intros Hnd H1 H2 Heq. apply NoDup_cons in Hnd. destruct Hnd as [Hnotin Hnd].
  destruct H1 as [->|H1], H2 as [->|H2]; auto.
  - exfalso. apply Hnotin. rewrite Heq. apply list_elem_of_In, in_map, H2.
  - exfalso. apply Hnotin. rewrite <- Heq. apply list_elem_of_In, in_map, H1.
Qed.

(** The invariant at the end of a run from a freshly built generator. *)
Lemma run_from_new_inv (st : nat -> StoreReply) (B : Z) (connected : bool)
    (w : World) (schedule : list Conc.event) :
  store_monotone st -> store_bounded B st ->
  B + Z.of_nat (length schedule) < Int64.max_int ->
  Seq.NewSegmentIDGenerator connected st = Ok w ->
  inv st B (length schedule) (Conc.dispensed schedule (Conc.mkConfig w []))
      (Conc.run schedule (Conc.mkConfig w [])).
Proof.
  intros Hm Hb Hroom Hnew.
  apply (run_inv st B Hm Hb schedule 0 [] (Conc.mkConfig w [])); [exact Hroom|].
  apply (NewSegmentIDGenerator_inv st B Hb connected); [lia|exact Hnew].
Qed.

(** X1: uniqueness: on a store whose counter only grows, whatever the number
    of callers and the interleaving of their accesses, no identifier is
    dispensed twice and no two callers are returned the same identifier,
    as long as no cursor comes near the end of [int64]. *)
Theorem NextID_unique_under_any_schedule
    (st : nat -> StoreReply) (B : Z) (connected : bool) (w : World)
    (schedule : list Conc.event) :
  store_monotone st -> store_bounded B st ->
  B + Z.of_nat (length schedule) < Int64.max_int ->
  Seq.NewSegmentIDGenerator connected st = Ok w ->
  NoDup (map snd (Conc.dispensed schedule (Conc.mkConfig w []))) /\
  forall tid1 tid2 x,
    Conc.returned (Conc.run schedule (Conc.mkConfig w [])) tid1 = Some (Ok x) ->
    Conc.returned (Conc.run schedule (Conc.mkConfig w [])) tid2 = Some (Ok x) ->
    tid1 = tid2.
Proof.
  intros Hm Hb Hroom Hnew.
  pose proof (run_from_new_inv st B connected w schedule Hm Hb Hroom Hnew) as Hinv.
  split; [apply (inv_nodup _ _ _ _ _ Hinv)|].
  intros tid1 tid2 x H1 H2. unfold Conc.returned in H1, H2.
  destruct (Conc.threads _ !! tid1) as [t1|] eqn:Ht1; [|discriminate].
  destruct (Conc.threads _ !! tid2) as [t2|] eqn:Ht2; [|discriminate].
  destruct t1; try discriminate. destruct t2; try discriminate.
  injection H1 as ->. injection H2 as ->.
  destruct (inv_claimed _ _ _ _ _ Hinv tid1 _ x Ht1 eq_refl) as [a1 Hin1].
  destruct (inv_claimed _ _ _ _ _ Hinv tid2 _ x Ht2 eq_refl) as [a2 Hin2].
  pose proof (NoDup_map_eq snd _ _ _ (inv_nodup _ _ _ _ _ Hinv) Hin1 Hin2 eq_refl) as Heq.
  congruence.
Qed.

(** C3: on a store whose counter grows by at least the step at each
    refill, the segment objects lie in the heap in the order they were
    installed, and under any interleaving an identifier dispensed from a
    later object [b] is strictly greater than one dispensed from an
    earlier object [a]: both lie in the range of their segment, and the
    range of [a] ends below the start of the range of [b]. *)
Theorem cross_segment_order
    (st : nat -> StoreReply) (B : Z) (connected : bool) (w : World)
    (schedule : list Conc.event) (tid1 tid2 a b : nat) (x y : Z) :
  store_monotone st -> store_bounded B st ->
  B + Z.of_nat (length schedule) < Int64.max_int ->
  Seq.NewSegmentIDGenerator connected st = Ok w ->
  In (tid1, a, x) (Conc.dispensed schedule (Conc.mkConfig w [])) ->
  In (tid2, b, y) (Conc.dispensed schedule (Conc.mkConfig w [])) ->
  (a < b)%nat ->
  x < y /\
  exists sa sb,
    heap (gen (Conc.world (Conc.run schedule (Conc.mkConfig w [])))) !! a = Some sa /\
    heap (gen (Conc.world (Conc.run schedule (Conc.mkConfig w [])))) !! b = Some sb /\
    Min sa <= x <= Max sa /\ Max sa < Min sb /\ Min sb <= y <= Max sb.
Proof.
  intros Hm Hb Hroom Hnew Hx Hy Hab.
  pose proof (run_from_new_inv st B connected w schedule Hm Hb Hroom Hnew) as Hinv.
  destruct (inv_log _ _ _ _ _ Hinv tid1 a x Hx) as (sa & Hsa & Hxa & _).
  destruct (inv_log _ _ _ _ _ Hinv tid2 b y Hy) as (sb & Hsb & Hyb & _).
  pose proof (inv_sorted _ _ _ _ _ Hinv a b sa sb Hab Hsa Hsb) as Hsorted.
  destruct (inv_segments _ _ _ _ _ Hinv b sb Hsb) as [Hminb _ _ _ _].
  split; [lia|]. exists sa, sb. repeat split; auto; lia.
Qed.

Lemma existsb_entry_In (e : nat * nat * Z) (l : list (nat * nat * Z)) :
  existsb (entry_eqb e) l = true -> In e l.
Proof.
  intros H. apply existsb_exists in H. destruct H as ([[t a] x] & Hin & Heq).
  destruct e as [[t' a'] x']. unfold entry_eqb in Heq. cbn in Heq.
  apply andb_true_iff in Heq. destruct Heq as [Heq Hx].
  apply andb_true_iff in Heq. destruct Heq as [Ht Ha].
  apply Nat.eqb_eq in Ht, Ha. apply Z.eqb_eq in Hx. subst. exact Hin.
Qed.

(** ** The two readings agree on a thread that runs alone *)

Lemma solo_app (n m : nat) : forall (t : Conc.pc) (w : World),
  Conc.solo (n + m) t w =
    (let '(t1, w1, started1) := Conc.solo n t w in
     let '(t2, w2, started2) := Conc.solo m t1 w1 in
     (t2, w2, started1 ++ started2)).
Proof.
  induction n as [|n IH]; intros t w; cbn [Conc.solo Nat.add].
  - destruct (Conc.solo m t w) as [[t2 w2] s2]. reflexivity.
  - destruct (Conc.step_thread t w) as [[t1 w1] s1]. rewrite IH.
    destruct (Conc.solo n t1 w1) as [[t2 w2] s2].
    destruct (Conc.solo m t2 w2) as [[t3 w3] s3]. now rewrite app_assoc.
Qed.

Lemma reaches_refl (t : Conc.pc) (w : World) : reaches t w t w [].
Proof. exists 0%nat. reflexivity. Qed.

Lemma reaches_step (t t1 t' : Conc.pc) (w w1 w' : World) (s1 s2 : list Conc.pc) :
  Conc.step_thread t w = (t1, w1, s1) ->
  reaches t1 w1 t' w' s2 ->
  reaches t w t' w' (s1 ++ s2).
Proof.
  intros Hstep [n Hn]. exists (S n). cbn [Conc.solo]. now rewrite Hstep, Hn.
Qed.

Lemma reaches_trans (t t1 t' : Conc.pc) (w w1 w' : World) (s1 s2 : list Conc.pc) :
  reaches t w t1 w1 s1 ->
  reaches t1 w1 t' w' s2 ->
  reaches t w t' w' (s1 ++ s2).
Proof.
  intros [n Hn] [m Hm]. exists (n + m)%nat. now rewrite solo_app, Hn, Hm.
Qed.

(** [loadNextSegment]: from the compare-and-swap to the return. *)
Lemma loadNextSegment_alone (c : Conc.caller) (w : World) :
  reaches (Conc.LCas c) w
          (Conc.ret_load c (fst (Seq.loadNextSegment w)))
          (snd (Seq.loadNextSegment w)) [].
Proof.
  unfold Seq.loadNextSegment.
  destruct (loadingFlag (gen w)) eqn:Hflag.
  - (* the guard is held *)
    exists 1%nat. cbn. now rewrite Hflag.
  - cbn [FindOneAndUpdate fst snd].
    change (store (with_gen (set_loadingFlag true) w)) with (store w).
    change (store_calls (with_gen (set_loadingFlag true) w)) with (store_calls w).
    destruct (store w (store_calls w)) as [|v] eqn:Hreply.
    + exists 3%nat. cbn. rewrite Hflag. cbn. now rewrite Hreply.
    + destruct (v <=? 0) eqn:Hv.
      * exists 3%nat. cbn. rewrite Hflag. cbn. now rewrite Hreply, Hv.
      * exists 4%nat. cbn. rewrite Hflag. cbn. now rewrite Hreply, Hv.
Qed.

(** The loop of [switchSegment], from the test of iteration [k]. *)
Lemma switch_loop_alone (n : nat) : forall (k i : nat) (w : World),
  (k + n = Seq.maxRetries)%nat ->
  reaches (Conc.switch_iter k i) w
          (match fst (Seq.switch_loop n k w) with
           | Some e => Conc.ret_switch i (Some e)
           | None => Conc.SAfter i
           end)
          (snd (Seq.switch_loop n k w)) [].
Proof.
  unfold Seq.maxRetries.
  induction n as [|n IH]; intros k i w Hk; cbn [Seq.switch_loop fst snd].
  - replace k with 3%nat by lia. apply reaches_refl.
  - assert (Hiter : Conc.switch_iter k i = Conc.SCheck k i).
    { unfold Conc.switch_iter, Seq.maxRetries.
      destruct (Nat.ltb_spec k 3); [reflexivity|lia]. }
    rewrite Hiter.
    destruct (nextSegment (gen w)) as [p|] eqn:Hnext; cbn [is_nil negb fst snd].
    + exists 1%nat. cbn. now rewrite Hnext.
    + apply (reaches_step _ (Conc.LCas (Conc.FromSwitch k i)) _ _ w _ [] []);
        [cbn; now rewrite Hnext|].
      pose proof (loadNextSegment_alone (Conc.FromSwitch k i) w) as Hload.
      destruct (Seq.loadNextSegment w) as [err w1]. cbn [fst snd] in Hload.
      destruct err as [e|]; cbn [Conc.ret_load] in Hload.
      * unfold Seq.maxRetries in *. cbn [Nat.sub] in *.
        destruct (k =? 2)%nat eqn:Hlast; [exact Hload|].
        apply Nat.eqb_neq in Hlast.
        apply (reaches_trans _ _ _ _ _ _ [] [] Hload).
        apply (reaches_step _ (Conc.switch_iter (S k) i) _ _
                 (Sleep (100 * (Z.of_nat k + 1)) w1) _ [] []);
          [reflexivity|].
        apply IH. lia.
      * apply (reaches_trans _ _ _ _ _ _ [] [] Hload). apply IH. lia.
Qed.

(** [switchSegment], from its first test to its return. *)
Lemma switchSegment_alone (i : nat) (w : World) :
  reaches (Conc.switch_iter 0 i) w
          (Conc.ret_switch i (fst (Seq.switchSegment w)))
          (snd (Seq.switchSegment w)) [].
Proof.
  unfold Seq.switchSegment.
  pose proof (switch_loop_alone Seq.maxRetries 0 i w eq_refl) as Hloop.
  destruct (Seq.switch_loop Seq.maxRetries 0 w) as [err w1]. cbn [fst snd] in Hloop.
  destruct err as [e|]; [exact Hloop|].
  apply (reaches_trans _ _ _ _ _ _ [] [] Hloop).
  destruct (nextSegment (gen w1)) as [p|] eqn:Hnext; cbn [is_nil fst snd].
  - apply (reaches_step _ (Conc.SPromoteLoad i) _ _ w1 _ [] []);
      [cbn; now rewrite Hnext|].
    apply (reaches_step _ (Conc.SPromoteStore i (Some p)) _ _ w1 _ [] []);
      [cbn; now rewrite Hnext|].
    apply (reaches_step _ (Conc.SClear i) _ _
             (with_gen (set_currentSegment (Some p)) w1) _ [] []);
      [reflexivity|].
    eapply (reaches_step _ _ _ _ _ _ [] []); [reflexivity|apply reaches_refl].
  - eapply (reaches_step _ _ _ _ _ _ [] []); [cbn; now rewrite Hnext|].
    apply reaches_refl.
Qed.

Lemma switchSegment_spawned (w : World) :
  spawned (snd (Seq.switchSegment w)) = spawned w.
Proof.
  destruct (Seq.switchSegment w) as [r w'] eqn:H.
  apply switchSegment_frame in H. destruct H as (_ & _ & _ & Hs & _). exact Hs.
Qed.

(** [NextID], from the head of iteration [i] of its loop to its return:
    the result and the world are those of the sequential reading, and a
    goroutine is waiting for each [go]. *)
Lemma NextID_loop_alone (n : nat) : forall (i : nat) (w : World),
  (i + n = 2)%nat ->
  reaches (Conc.NextID_iter i) w
          (Conc.Done (fst (Seq.NextID_loop n w)))
          (snd (Seq.NextID_loop n w))
          (replicate (spawned (snd (Seq.NextID_loop n w)) - spawned w)
                     (Conc.LCas Conc.FromGo)).
Proof.
  induction n as [|n IH]; intros i w Hi; cbn [Seq.NextID_loop fst snd].
  - replace i with 2%nat by lia. rewrite Nat.sub_diag. apply reaches_refl.
  - assert (Hiter : Conc.NextID_iter i = Conc.NLoad i).
    { unfold Conc.NextID_iter. destruct (Nat.ltb_spec i 2); [reflexivity|lia]. }
    rewrite Hiter.
    destruct (currentSegment (gen w)) as [current|] eqn:Hcur; cbn [fst snd].
    2:{ rewrite Nat.sub_diag.
        eapply (reaches_step _ _ _ _ _ _ [] []); [cbn; now rewrite Hcur|].
        apply reaches_refl. }
    apply (reaches_step _ (Conc.NAdd i current) _ _ w _ [] _);
      [cbn; now rewrite Hcur|].
    unfold AddInt64_Current.
    destruct (heap (gen w) !! current) as [s|] eqn:Hs; cbn [fst snd].
    2:{ rewrite Nat.sub_diag.
        eapply (reaches_step _ _ _ _ _ _ [] []);
          [cbn; unfold AddInt64_Current; now rewrite Hs|].
        apply reaches_refl. }
    fold (Conc.bumped current s w).
    assert (Hs' : heap (gen (Conc.bumped current s w)) !! current
                  = Some (mkSegment (Min s) (Max s) (Int64.add (Current s) 1))).
    { cbn. apply list_lookup_insert_eq. eapply lookup_lt_Some, Hs. }
    rewrite Hs'. cbn [Max].
    assert (Hadd : Conc.step_thread (Conc.NAdd i current) w =
      (if Int64.add (Current s) 1 <=? Max s
       then Conc.NShouldCurrent current (Int64.add (Current s) 1)
       else Conc.switch_iter 0 i, Conc.bumped current s w, [])).
    { cbn [Conc.step_thread]. unfold AddInt64_Current. rewrite Hs.
      fold (Conc.bumped current s w). rewrite Hs'. cbn [Max].
      destruct (Int64.add (Current s) 1 <=? Max s); reflexivity. }
    destruct (Int64.add (Current s) 1 <=? Max s) eqn:Hle; cbn [fst snd].
    + (* dispensed: shouldLoadNext and the go statement *)
      apply (reaches_step _ _ _ _ _ _ [] _ Hadd).
      unfold Seq.shouldLoadNext. rewrite Hs'.
      set (wa := Conc.bumped current s w) in *.
      set (id := Int64.add (Current s) 1) in *.
      change (spawned w) with (spawned wa).
      destruct (usage_reached _) eqn:Hu; cbn [andb].
      2:{ rewrite Nat.sub_diag.
          apply (reaches_step _ (Conc.Done (Ok id)) _ _ wa _ [] []);
            [cbn [Conc.step_thread]; now rewrite Hs', Hu|apply reaches_refl]. }
      apply (reaches_step _ (Conc.NShouldNext id) _ _ wa _ [] _);
        [cbn [Conc.step_thread]; now rewrite Hs', Hu|].
      destruct (nextSegment (gen wa)) as [p|] eqn:Hnext; cbn [is_nil andb].
      { rewrite Nat.sub_diag.
        apply (reaches_step _ (Conc.Done (Ok id)) _ _ wa _ [] []);
          [cbn [Conc.step_thread]; now rewrite Hnext|apply reaches_refl]. }
      apply (reaches_step _ (Conc.NShouldFlag id) _ _ wa _ [] _);
        [cbn [Conc.step_thread]; now rewrite Hnext|].
      destruct (loadingFlag (gen wa)) eqn:Hflag; cbn [negb].
      { rewrite Nat.sub_diag.
        apply (reaches_step _ (Conc.Done (Ok id)) _ _ wa _ [] []);
          [cbn [Conc.step_thread]; now rewrite Hflag|apply reaches_refl]. }
      apply (reaches_step _ (Conc.NGo id) _ _ wa _ [] _);
        [cbn [Conc.step_thread]; now rewrite Hflag|].
      replace (spawned (go_loadNextSegment wa) - spawned wa)%nat with 1%nat
        by (cbn; lia).
      apply (reaches_step _ (Conc.Done (Ok id)) _ _ (go_loadNextSegment wa) _
               [Conc.LCas Conc.FromGo] []);
        [reflexivity|apply reaches_refl].
    + (* exhausted: switchSegment, then the next iteration *)
      apply (reaches_step _ _ _ _ _ _ [] _ Hadd).
      set (wa := Conc.bumped current s w).
      change (spawned w) with (spawned wa).
      pose proof (switchSegment_alone i wa) as Hswitch.
      pose proof (switchSegment_spawned wa) as Hsp.
      destruct (Seq.switchSegment wa) as [err w1]. cbn [fst snd] in Hswitch, Hsp.
      destruct err as [e|]; cbn [fst snd Conc.ret_switch] in *.
      * rewrite Hsp, Nat.sub_diag. exact Hswitch.
      * apply (reaches_trans _ _ _ _ _ _ [] _ Hswitch).
        rewrite <- Hsp. apply IH. lia.
Qed.

(** A caller that runs alone gets from [NextID] what the sequential
    reading says, leaves the world it says, and has started a goroutine
    exactly when the sequential reading counted one. *)
Theorem NextID_alone (w : World) :
  exists n,
    Conc.solo n (Conc.NextID_iter 0) w =
      (Conc.Done (fst (Seq.NextID w)),
       snd (Seq.NextID w),
       replicate (spawned (snd (Seq.NextID w)) - spawned w) (Conc.LCas Conc.FromGo)).
Proof. apply (NextID_loop_alone 2 0 w eq_refl). Qed.

(** Running alone is being the only thread the schedule picks. *)
Lemma run_solo (n : nat) : forall (c : Conc.Config) (tid : nat) (t : Conc.pc),
  Conc.threads c !! tid = Some t ->
  Conc.run (replicate n (Conc.Step tid)) c =
    (let '(t', w', started) := Conc.solo n t (Conc.world c) in
     Conc.mkConfig w' (<[tid := t']> (Conc.threads c) ++ started)).
Proof.
  induction n as [|n IH]; intros c tid t Ht.
  - cbn. rewrite app_nil_r, list_insert_id by assumption. now destruct c.
  - cbn [replicate Conc.solo].
    change (Conc.run (Conc.Step tid :: replicate n (Conc.Step tid)) c)
      with (Conc.run (replicate n (Conc.Step tid)) (Conc.exec (Conc.Step tid) c)).
    pose proof (lookup_lt_Some _ _ _ Ht) as Hlen.
    cbn [Conc.exec]. rewrite Ht.
    destruct (Conc.step_thread t (Conc.world c)) as [[t1 w1] s1].
    rewrite (IH _ tid t1);
      [|cbn; apply lookup_app_l_Some; now apply list_lookup_insert_eq].
    cbn [Conc.world Conc.threads].
    destruct (Conc.solo n t1 w1) as [[t2 w2] s2].
    f_equal. rewrite insert_app_l by (rewrite length_insert; exact Hlen).
    now rewrite list_insert_insert_eq, app_assoc.
Qed.

(** C9, as amended: whenever [switchSegment] returns an error the active
    slot is the one it was.  In particular, on a generator whose active
    segment [s] is exhausted and which has no standby, if the store refuses
    the three attempts of the switch, [NextID] returns an error and the
    active slot still points to [s]; and if the store then answers
    [newMax] on the next round trip, the following [NextID], made while no
    refill holds the loading flag and no other thread moves, switches to
    the new segment and returns its first identifier,
    [newMax - step + 1].  Both calls are the same in the sequential reading
    and for a thread of the interleaved reading that runs alone. *)
Theorem NextID_switch_failure_recoverable
    (w : World) (a : addr) (s : Segment) (newMax : Z) :
  currentSegment (gen w) = Some a ->
  heap (gen w) !! a = Some s ->
  Int64.in_range (Max s) ->
  Max s <= Current s -> Current s + 2 <= Int64.max_int ->
  nextSegment (gen w) = None ->
  loadingFlag (gen w) = false ->
  0 < step (gen w) < 2 ^ 31 ->
  (forall k, (k < 3)%nat -> refused (store w (store_calls w + k)) = true) ->
  store w (store_calls w + 3) = StoreOk newMax ->
  0 < newMax <= Int64.max_int ->
  (forall w0 w0' e0, Seq.switchSegment w0 = (Some e0, w0') ->
     currentSegment (gen w0') = currentSegment (gen w0)) /\
  exists e w1 w2,
    Seq.NextID w = (Err (ErrSwitch e), w1) /\
    currentSegment (gen w1) = Some a /\
    nextSegment (gen w1) = None /\
    loadingFlag (gen w1) = false /\
    Seq.NextID w1 = (Ok (newMax - step (gen w) + 1), w2) /\
    currentSegment (gen w2) = Some (length (heap (gen w))) /\
    (exists n started,
       Conc.solo n (Conc.NextID_iter 0) w
       = (Conc.Done (Err (ErrSwitch e)), w1, started)) /\
    (exists n started,
       Conc.solo n (Conc.NextID_iter 0) w1
       = (Conc.Done (Ok (newMax - step (gen w) + 1)), w2, started)).
Proof.
  intros Hc Hs Hmax Hge Hroom Hnext Hflag Hstep Hdown Hreply HnewMax.
  split; [exact switchSegment_error_keeps_active|].
  (* the call that fails *)
  destruct (switchSegment_store_down (advanced a s w) Hflag Hnext Hdown) as [e Hsw].
  set (w1 := gave_up (advanced a s w)) in *.
  assert (Hfail : Seq.NextID w = (Err (ErrSwitch e), w1)).
  { unfold Seq.NextID. rewrite (NextID_loop_exhausted 1 w a s Hc Hs Hge) by int64.
    now rewrite Hsw. }
  (* the call after the store is back *)
  set (s1 := mkSegment (Min s) (Max s) (Current s + 1)).
  assert (Hs1 : heap (gen w1) !! a = Some s1) by apply (advanced_lookup w a s Hs).
  assert (Hc1 : currentSegment (gen w1) = Some a) by exact Hc.
  set (wa := advanced a s1 w1).
  assert (Hreply1 : store wa (store_calls wa) = StoreOk newMax).
  { cbn. replace (S (S (S (store_calls w)))) with (store_calls w + 3)%nat by lia.
    exact Hreply. }
  assert (Hlen : length (heap (gen wa)) = length (heap (gen w))).
  { subst wa w1. cbn. now rewrite !length_insert. }
  set (fresh := mkSegment (newMax - step (gen w) + 1) newMax (newMax - step (gen w))).
  set (w2 := promoted (installed newMax wa)).
  assert (Hfresh : heap (gen w2) !! length (heap (gen w)) = Some fresh).
  { subst w2. cbn [promoted with_gen gen heap installed set_nextSegment
                  set_currentSegment].
    rewrite <- Hlen. apply list_lookup_middle. reflexivity. }
  assert (Hc2 : currentSegment (gen w2) = Some (length (heap (gen w)))).
  { subst w2. cbn. now rewrite <- Hlen. }
  assert (Hok : exists w3,
             Seq.NextID w1 = (Ok (newMax - step (gen w) + 1), w3) /\
             currentSegment (gen w3) = Some (length (heap (gen w)))).
  { unfold Seq.NextID.
    rewrite (NextID_loop_exhausted 1 w1 a s1 Hc1 Hs1) by (cbn; int64).
    fold wa. rewrite (switchSegment_recovers wa newMax Hflag Hnext Hreply1 HnewMax Hstep).
    fold w2.
    rewrite (NextID_loop_in_range 0 w2 (length (heap (gen w))) fresh)
      by (subst w2 fresh; cbn; try rewrite Hlen; auto; int64).
    eexists. split; [reflexivity|].
    destruct (Seq.shouldLoadNext _ _); exact Hc2. }
  destruct Hok as (w3 & Hok & Hc3).
  exists e, w1, w3.
  split; [exact Hfail|]. split; [exact Hc1|]. split; [exact Hnext|].
  split; [exact Hflag|]. split; [exact Hok|]. split; [exact Hc3|].
  split.
  - destruct (NextID_alone w) as [n Hn]. rewrite Hfail in Hn. eauto.
  - destruct (NextID_alone w1) as [n Hn]. rewrite Hok in Hn. eauto.
Qed.

(** X3: within a segment, under any interleaving, the identifiers come out in
    the order of the atomic adds: of two entries of the log for the same
    segment the later one is the greater. *)
Theorem dispense_order_within_segment
    (st : nat -> StoreReply) (B : Z) (connected : bool) (w : World)
    (schedule : list Conc.event) (i j tid1 tid2 a : nat) (x y : Z) :
  store_monotone st -> store_bounded B st ->
  B + Z.of_nat (length schedule) < Int64.max_int ->
  Seq.NewSegmentIDGenerator connected st = Ok w ->
  (i < j)%nat ->
  Conc.dispensed schedule (Conc.mkConfig w []) !! i = Some (tid1, a, x) ->
  Conc.dispensed schedule (Conc.mkConfig w []) !! j = Some (tid2, a, y) ->
  x < y.
Proof.
  intros Hm Hb Hroom Hnew Hij Hi Hj.
  pose proof (run_from_new_inv st B connected w schedule Hm Hb Hroom Hnew) as Hinv.
  exact (inv_increasing _ _ _ _ _ Hinv i j tid1 tid2 a x y Hij Hi Hj).
Qed.

(** * The theorems at concrete inputs *)

Lemma healthy_store_typed : store_typed healthy_store.
Proof.
  intros k v. unfold healthy_store.
  destruct (Z.leb_spec (1000 * (Z.of_nat k + 1)) (2 ^ 62)); [|discriminate].
  intros [= <-]. int64.
Qed.

Lemma NextID_dispenses_witness :
  (exists w',
     Seq.NextID fresh_generator = (Ok (0 + 1), w') /\
     0 + 1 <= 1000 /\
     currentSegment (gen w') = Some 0%nat /\
     heap (gen w') !! 0%nat = Some (mkSegment 1 1000 (0 + 1)) /\
     (0 + 1 < 1000 ->
      exists w'', Seq.NextID w' = (Ok (0 + 2), w'') /\ 0 + 1 < 0 + 2 <= 1000)) /\
  (forall w0 w0' id,
     Seq.NextID w0 = (Ok id, w0') ->
     exists a0 s0,
       currentSegment (gen w0') = Some a0 /\
       heap (gen w0') !! a0 = Some s0 /\
       Current s0 = id /\ id <= Max s0) /\
  (forall i,
     Conc.step_thread (Conc.NAdd i 0) fresh_generator =
       (Conc.NShouldCurrent 0 (0 + 1),
        advanced 0%nat (mkSegment 1 1000 0) fresh_generator, [])).
Proof.
  apply (NextID_dispenses fresh_generator 0%nat (mkSegment 1 1000 0)).
  - reflexivity.
  - reflexivity.
  - vm_compute. discriminate.
  - vm_compute. discriminate.
  - simpl. lia.
Defined.

Lemma loadNextSegment_installs_witness :
  exists w',
    Seq.loadNextSegment fresh_generator = (None, w') /\
    heap (gen w') = [mkSegment 1 1000 0; mkSegment 1001 2000 1000] /\
    nextSegment (gen w') = Some 1%nat /\
    currentSegment (gen w') = Some 0%nat /\
    loadingFlag (gen w') = false /\
    store_calls w' = 2%nat /\
    (forall c,
       Conc.step_thread (Conc.LFetch c) (with_gen (set_loadingFlag true) fresh_generator)
       = (Conc.LPublish c 2000, tick (with_gen (set_loadingFlag true) fresh_generator), []) /\
       forall w1, step (gen w1) = 1000 ->
         exists w1',
           Conc.step_thread (Conc.LPublish c 2000) w1 = (Conc.LRelease c None, w1', []) /\
           heap (gen w1') = heap (gen w1) ++ [mkSegment 1001 2000 1000] /\
           nextSegment (gen w1') = Some (length (heap (gen w1)))).
Proof.
  apply (loadNextSegment_installs fresh_generator 2000).
  - reflexivity.
  - reflexivity.
  - vm_compute. split; [reflexivity|discriminate].
  - vm_compute. split; reflexivity.
Defined.

Lemma loadNextSegment_invalid_range_witness :
  exists w',
    Seq.loadNextSegment (mkWorld (gen fresh_generator) corrupt_store 1 [] 0)
    = (Some (ErrInvalidMaxId 0), w') /\
    nextSegment (gen w') = None /\
    gen w' = gen fresh_generator /\
    store_calls w' = 2%nat /\
    (forall c,
       Conc.step_thread (Conc.LFetch c)
         (with_gen (set_loadingFlag true)
            (mkWorld (gen fresh_generator) corrupt_store 1 [] 0))
       = (Conc.LRelease c (Some (ErrInvalidMaxId 0)),
          tick (with_gen (set_loadingFlag true)
                  (mkWorld (gen fresh_generator) corrupt_store 1 [] 0)), [])).
Proof.
  apply (loadNextSegment_invalid_range
           (mkWorld (gen fresh_generator) corrupt_store 1 [] 0) 0).
  - reflexivity.
  - reflexivity.
  - lia.
Defined.

Lemma NextID_prefetch_iff_witness :
  (exists w',
     Seq.NextID fresh_generator = (Ok (0 + 1), w') /\
     gen w' = gen (advanced 0%nat (mkSegment 1 1000 0) fresh_generator) /\
     store_calls w' = store_calls fresh_generator /\
     (spawned w' = S (spawned fresh_generator) \/ spawned w' = spawned fresh_generator) /\
     (spawned w' = S (spawned fresh_generator) <->
      4 * (1000 - 1 + 1) <= 5 * ((0 + 1) - 1 + 1) /\
      nextSegment (gen fresh_generator) = None /\
      loadingFlag (gen fresh_generator) = false)) /\
  (forall (w1 w2 w3 w4 : World) (s1 : Segment) (id : Z),
     heap (gen w1) !! 0%nat = Some s1 ->
     exists started,
       steps_in [w1; w2; w3; w4] (Conc.NShouldCurrent 0 id)
       = (Conc.Done (Ok id), started) /\
       (started = [Conc.LCas Conc.FromGo] \/ started = []) /\
       (started = [Conc.LCas Conc.FromGo] <->
        usage_reached s1 = true /\
        nextSegment (gen w2) = None /\
        loadingFlag (gen w3) = false) /\
       (Max s1 - Min s1 + 1 = 1000 ->
        Min s1 <= Current s1 <= Max s1 + 1000 ->
        (usage_reached s1 = true <->
         4 * (Max s1 - Min s1 + 1) <= 5 * (Current s1 - Min s1 + 1)))).
Proof.
  apply (NextID_prefetch_iff fresh_generator 0%nat (mkSegment 1 1000 0)).
  - reflexivity.
  - reflexivity.
  - vm_compute. split; discriminate.
  - vm_compute. split; discriminate.
  - reflexivity.
  - simpl. lia.
Defined.

(** The claim C7 as it was stated fails when a caller is overtaken: A is
    returned 799, whose ratio 799/1000 is below 4/5, and yet A has started
    the refill goroutine (thread 2; B is still before its check), because
    the cursor A read was B's 800. *)
Lemma prefetch_on_claimed_value_counterexample :
  let before := Conc.mkConfig near_threshold [] in
  let after := Conc.run overtaking before in
  (nextSegment (gen near_threshold) = None /\
   loadingFlag (gen near_threshold) = false /\
   heap (gen near_threshold) = [mkSegment 1 1000 798]) /\
  Conc.threads after =
    [Conc.Done (Ok 799); Conc.NShouldCurrent 0 800; Conc.LCas Conc.FromGo] /\
  ~ (Conc.threads after !! 2%nat = Some (Conc.LCas Conc.FromGo) <->
     4 * (1000 - 1 + 1) <= 5 * (799 - 1 + 1) /\
     nextSegment (gen near_threshold) = None /\
     loadingFlag (gen near_threshold) = false).
Proof.
  vm_compute. split; [auto|]. split; [reflexivity|].
  intros [Hstarted _]. destruct (Hstarted eq_refl) as [Hratio _].
  apply Hratio. reflexivity.
Qed.

Lemma loadNextSegment_coalesces_witness :
  let busy := with_gen (set_loadingFlag true) fresh_generator in
  Seq.loadNextSegment busy = (None, busy) /\
  Nat.iter 3 (fun w => snd (Seq.loadNextSegment w)) busy = busy /\
  store_calls (Nat.iter 3 (fun w => snd (Seq.loadNextSegment w)) busy) = store_calls busy /\
  nextSegment (gen (Nat.iter 3 (fun w => snd (Seq.loadNextSegment w)) busy))
    = nextSegment (gen busy) /\
  (forall c, Conc.step_thread (Conc.LCas c) busy = (Conc.ret_load c None, busy, [])).
Proof.
  apply (loadNextSegment_coalesces (with_gen (set_loadingFlag true) fresh_generator) 3).
  reflexivity.
Defined.

Lemma NextID_switch_failure_recoverable_witness :
  (forall w0 w0' e0, Seq.switchSegment w0 = (Some e0, w0') ->
     currentSegment (gen w0') = currentSegment (gen w0)) /\
  exists e w1 w2,
    Seq.NextID stalled_generator = (Err (ErrSwitch e), w1) /\
    currentSegment (gen w1) = Some 0%nat /\
    nextSegment (gen w1) = None /\
    loadingFlag (gen w1) = false /\
    Seq.NextID w1 = (Ok (2000 - 1000 + 1), w2) /\
    currentSegment (gen w2) = Some 1%nat /\
    (exists n started,
       Conc.solo n (Conc.NextID_iter 0) stalled_generator
       = (Conc.Done (Err (ErrSwitch e)), w1, started)) /\
    (exists n started,
       Conc.solo n (Conc.NextID_iter 0) w1
       = (Conc.Done (Ok (2000 - 1000 + 1)), w2, started)).
Proof.
  apply (NextID_switch_failure_recoverable stalled_generator 0%nat
           (mkSegment 1 1000 1000) 2000).
  - reflexivity.
  - reflexivity.
  - vm_compute. split; discriminate.
  - simpl. lia.
  - vm_compute. discriminate.
  - reflexivity.
  - reflexivity.
  - vm_compute. split; reflexivity.
  - intros k Hk. destruct k as [|[|[|k]]]; [reflexivity | reflexivity | reflexivity | lia].
  - reflexivity.
  - vm_compute. split; [reflexivity|discriminate].
Defined.

(** The claim C9 as it was stated fails while a refill is in flight.  On
    the generator of the outage, caller A (thread 1201) finds the segment
    used up and the store down three times: its switch fails, the active
    slot is the one it was, the flag is free again and the store is back
    (its next reply is 5000).  The goroutine an earlier call had started
    (thread 800) then wins the compare-and-swap and waits for the store.
    Caller B (thread 1202) comes next: its three attempts return from the
    failed compare-and-swap, and it fails with "failed to load next
    segment" although the store would have answered; it made no round
    trip. *)
Lemma retry_during_prefetch_counterexample :
  let c0 := Conc.mkConfig outage_generator [] in
  let after_A := Conc.run retry_during_prefetch_A c0 in
  let after_B := Conc.run retry_during_prefetch c0 in
  Seq.NewSegmentIDGenerator true outage_store = Ok outage_generator /\
  (Conc.returned after_A 1201
   = Some (Err (ErrSwitch (ErrSwitchRetries 3 ErrLoadSegment))) /\
   currentSegment (gen (Conc.world after_A)) = Some 0%nat /\
   loadingFlag (gen (Conc.world after_A)) = false /\
   store (Conc.world after_A) (store_calls (Conc.world after_A)) = StoreOk 5000) /\
  (Conc.threads after_B !! 800%nat = Some (Conc.LFetch Conc.FromGo) /\
   Conc.returned after_B 1202 = Some (Err (ErrSwitch ErrLoadNext)) /\
   store_calls (Conc.world after_B) = store_calls (Conc.world after_A) /\
   store (Conc.world after_B) (store_calls (Conc.world after_B)) = StoreOk 5000).
Proof.
  split; [reflexivity|]. vm_compute. repeat split; reflexivity.
Qed.

Lemma segment_width_invariant_witness :
  width_ok fresh_generator /\
  width_ok (run_ops [CallNextID; RunBackground] fresh_generator) /\
  width_ok (Conc.world (Conc.run [Conc.Arrive; Conc.Step 0; Conc.Step 0]
                                 (Conc.mkConfig fresh_generator []))).
Proof.
  apply (segment_width_invariant true healthy_store fresh_generator
           [CallNextID; RunBackground] [Conc.Arrive; Conc.Step 0; Conc.Step 0]).
  - exact healthy_store_typed.
  - reflexivity.
Defined.

Lemma healthy_store_monotone : store_monotone healthy_store.
Proof.
  intros i j v v' Hij. unfold healthy_store.
  destruct (Z.leb_spec (1000 * (Z.of_nat i + 1)) (2 ^ 62)); [|discriminate].
  destruct (Z.leb_spec (1000 * (Z.of_nat j + 1)) (2 ^ 62)); [|discriminate].
  intros [= <-] [= <-]. lia.
Qed.

Lemma healthy_store_bounded : store_bounded (2 ^ 62) healthy_store.
Proof.
  intros k v. unfold healthy_store.
  destruct (Z.leb_spec (1000 * (Z.of_nat k + 1)) (2 ^ 62)); [|discriminate].
  intros [= <-]. assumption.
Qed.

Lemma cross_segment_order_witness :
  1 < 1001 /\
  exists sa sb,
    heap (gen (Conc.world (Conc.run crossing (Conc.mkConfig fresh_generator []))))
      !! 0%nat = Some sa /\
    heap (gen (Conc.world (Conc.run crossing (Conc.mkConfig fresh_generator []))))
      !! 1%nat = Some sb /\
    Min sa <= 1 <= Max sa /\ Max sa < Min sb /\ Min sb <= 1001 <= Max sb.
Proof.
  apply (cross_segment_order healthy_store (2 ^ 62) true fresh_generator crossing
           0 1201 0 1 1 1001).
  - exact healthy_store_monotone.
  - exact healthy_store_bounded.
  - vm_compute. reflexivity.
  - reflexivity.
  - apply existsb_entry_In. vm_compute. reflexivity.
  - apply existsb_entry_In. vm_compute. reflexivity.
  - lia.
Defined.

(** ** The scenario of the specification, evaluated *)

(** The first call on a fresh generator returns 1. *)
Example scenario_first_id :
  heap (gen fresh_generator) = [mkSegment 1 1000 0] /\
  fst (Seq.NextID fresh_generator) = Ok 1.
Proof. vm_compute. split; reflexivity. Qed.

(** The 800th call, and no earlier one, starts the prefetch, which puts
    segment 1001..2000 in the standby slot. *)
Example scenario_prefetch_at_800 :
  spawned (run_ops (replicate 799 CallNextID) fresh_generator) = 0%nat /\
  spawned (run_ops (replicate 800 CallNextID) fresh_generator) = 1%nat /\
  gen (run_ops (replicate 800 CallNextID ++ [RunBackground]) fresh_generator)
  = mkGenerator [mkSegment 1 1000 800; mkSegment 1001 2000 1000]
                (Some 0%nat) (Some 1%nat) 1000 false.
Proof. vm_compute. repeat split; reflexivity. Qed.

(** Call 1000 returns 1000; call 1001 finds the segment used up, promotes
    the standby segment and returns 1001. *)
Example scenario_switch :
  fst (Seq.NextID (run_ops (replicate 800 CallNextID ++ [RunBackground]
                            ++ replicate 199 CallNextID) fresh_generator))
  = Ok 1000 /\
  fst (Seq.NextID used_up_generator) = Ok 1001 /\
  gen (snd (Seq.NextID used_up_generator))
  = mkGenerator [mkSegment 1 1000 1001; mkSegment 1001 2000 1001]
                (Some 1%nat) None 1000 false.
Proof. vm_compute. repeat split; reflexivity. Qed.

(** ** The other theorems at concrete inputs *)

Lemma NextID_returns_under_any_schedule_witness :
  exists t',
    Conc.threads (Conc.run (replicate 58 (Conc.Step 0))
                    (Conc.mkConfig fresh_generator [Conc.NextID_iter 0]))
      !! 0%nat = Some t' /\
    Conc.finished t' = true /\
    Conc.remaining (Conc.NextID_iter 0) = 58%nat /\
    Conc.remaining (Conc.LCas Conc.FromGo) = 4%nat.
Proof.
  apply (NextID_returns_under_any_schedule (replicate 58 (Conc.Step 0))
           (Conc.mkConfig fresh_generator [Conc.NextID_iter 0]) 0
           (Conc.NextID_iter 0)).
  - repeat constructor.
  - reflexivity.
  - vm_compute. reflexivity.
Defined.

Lemma NextID_unique_under_any_schedule_witness :
  NoDup (map snd (Conc.dispensed crossing (Conc.mkConfig fresh_generator []))) /\
  forall tid1 tid2 x,
    Conc.returned (Conc.run crossing (Conc.mkConfig fresh_generator [])) tid1
      = Some (Ok x) ->
    Conc.returned (Conc.run crossing (Conc.mkConfig fresh_generator [])) tid2
      = Some (Ok x) ->
    tid1 = tid2.
Proof.
  apply (NextID_unique_under_any_schedule healthy_store (2 ^ 62) true
           fresh_generator crossing).
  - exact healthy_store_monotone.
  - exact healthy_store_bounded.
  - vm_compute. reflexivity.
  - reflexivity.
Defined.

Lemma dispense_order_within_segment_witness :
  Conc.dispensed crossing (Conc.mkConfig fresh_generator []) !! 0%nat
  = Some (0%nat, 0%nat, 1) /\
  Conc.dispensed crossing (Conc.mkConfig fresh_generator []) !! 1%nat
  = Some (1%nat, 0%nat, 2) /\
  1 < 2.
Proof.
  assert (H0 : Conc.dispensed crossing (Conc.mkConfig fresh_generator []) !! 0%nat
               = Some (0%nat, 0%nat, 1)) by (vm_compute; reflexivity).
  assert (H1 : Conc.dispensed crossing (Conc.mkConfig fresh_generator []) !! 1%nat
               = Some (1%nat, 0%nat, 2)) by (vm_compute; reflexivity).
  split; [exact H0|]. split; [exact H1|].
  apply (dispense_order_within_segment healthy_store (2 ^ 62) true
           fresh_generator crossing 0 1 0 1 0 1 2).
  - exact healthy_store_monotone.
  - exact healthy_store_bounded.
  - vm_compute. reflexivity.
  - reflexivity.
  - lia.
  - exact H0.
  - exact H1.
Defined.

(** ** The sequential reading keeps its invariant *)

Lemma loadNextSegment_cases (w : World) :
  loadingFlag (gen w) = false ->
  step (gen w) = 1000 ->
  (forall v, store w (store_calls w) = StoreOk v -> v <= Int64.max_int) ->
  (refused (store w (store_calls w)) = true /\
   exists e, Seq.loadNextSegment w = (Some e, tick w)) \/
  (exists m, store w (store_calls w) = StoreOk m /\ 0 < m /\
     Seq.loadNextSegment w = (None, installed m w)).
Proof.
  intros Hflag Hstep Htyped.
  destruct (refused (store w (store_calls w))) eqn:Href.
  - left. split; [reflexivity|]. now apply loadNextSegment_refused.
  - right. destruct (store w (store_calls w)) as [|m] eqn:Hreply; [discriminate|].
    cbn in Href. apply Z.leb_gt in Href.
    exists m. conj; auto.
    apply (loadNextSegment_ok w m Hflag Hreply); [|rewrite Hstep; lia].
    split; [lia|]. now apply Htyped.
Qed.

Section Sequential.

Variable st : nat -> StoreReply.
Variable B : Z.
Hypothesis Hmonotone : store_monotone st.
Hypothesis Hbounded : store_bounded B st.

(** The invariant only looks at the generator, the store and the number of
    round trips; it stays true when the counts grow and [last] shrinks. *)
Lemma seq_inv_weaken (k k' : nat) (last last' : Z) (w w' : World) :
  gen w' = gen w -> store w' = store w ->
  (store_calls w <= store_calls w')%nat -> (k <= k')%nat -> last' <= last ->
  seq_inv st B k last w -> seq_inv st B k' last' w'.
Proof.
  intros Hgen Hstore Hcalls Hk Hlast [H1 H2 H3 H4 H5 (a & s & Ha & Hs & Hl1 & Hl2 & Hu & Hn)].
  split; rewrite ?Hgen, ?Hstore; auto.
  - intros a0 s0 Hs0. eapply segment_inv_later; [| |apply (H4 a0 s0 Hs0)]; lia.
  - exists a, s. conj; auto; lia.
Qed.

(** After the atomic add on the cursor of the active segment. *)
Lemma advanced_seq_inv (k : nat) (last last' : Z) (w : World) (a : addr) (s : Segment) :
  B + Z.of_nat k < Int64.max_int ->
  seq_inv st B k last w ->
  currentSegment (gen w) = Some a -> heap (gen w) !! a = Some s ->
  last' <= Current s + 1 -> last' <= Max s ->
  seq_inv st B (S k) last' (advanced a s w).
Proof.
  intros Hroom [H1 H2 H3 H4 H5 (a0 & s0 & Ha & Hs & Hl1 & Hl2 & Hu & Hn)] Hc Hsa Hl1' Hl2'.
  rewrite Hc in Ha. injection Ha as <-. rewrite Hsa in Hs. injection Hs as <-.
  pose proof (lookup_lt_Some _ _ _ Hsa) as Hlen.
  destruct (H4 a s Hsa) as [Hmin Hpos Hlo Hhi Hgr].
  split; cbn; auto.
  - intros b sb Hb. destruct (decide (b = a)) as [->|Hne].
    + rewrite list_lookup_insert_eq in Hb by assumption. injection Hb as <-.
      split; cbn; auto; lia.
    + rewrite list_lookup_insert_ne in Hb by congruence.
      eapply segment_inv_later; [| |apply (H4 b sb Hb)]; lia.
  - intros b1 b2 s1 s2 Hlt Hb1 Hb2.
    assert (Hold : forall b sb,
      <[a := mkSegment (Min s) (Max s) (Current s + 1)]> (heap (gen w)) !! b = Some sb ->
      exists sb', heap (gen w) !! b = Some sb' /\ Max sb' = Max sb).
    { intros b sb Hb. destruct (decide (b = a)) as [->|Hne].
      - rewrite list_lookup_insert_eq in Hb by assumption. injection Hb as <-.
        exists s. auto.
      - rewrite list_lookup_insert_ne in Hb by congruence. exists sb. auto. }
    destruct (Hold _ _ Hb1) as (s1' & Hs1 & <-).
    destruct (Hold _ _ Hb2) as (s2' & Hs2 & <-).
    eapply H5; eauto.
  - exists a, (mkSegment (Min s) (Max s) (Current s + 1)).
    rewrite length_insert. conj; cbn; auto.
    + now apply list_lookup_insert_eq.
    + intros b sb Hlt Hb. rewrite list_lookup_insert_ne in Hb by lia. eauto.
Qed.

(** After a refill that obtained [m] from the store. *)
Lemma installed_seq_inv (k : nat) (last m : Z) (w : World) :
  seq_inv st B k last w ->
  store w (store_calls w) = StoreOk m -> 0 < m ->
  seq_inv st B k last (installed m w).
Proof.
  intros [H1 H2 H3 H4 H5 (a & s & Ha & Hs & Hl1 & Hl2 & Hu & Hn)] Hreply Hpos.
  rewrite H1 in Hreply. pose proof (Hbounded _ _ Hreply) as Hle.
  pose proof (lookup_lt_Some _ _ _ Hs) as Hlen.
  unfold installed. rewrite H2.
  split; cbn; auto.
  - intros b sb Hb. apply lookup_app_Some in Hb. destruct Hb as [Hb|[_ Hb]].
    + eapply segment_inv_later; [| |apply (H4 b sb Hb)]; lia.
    + apply list_lookup_singleton_Some in Hb. destruct Hb as [_ <-].
      split; cbn; try lia. exists (store_calls w). split; [lia|exact Hreply].
  - intros b1 b2 s1 s2 Hlt Hb1 Hb2.
    apply lookup_app_Some in Hb1, Hb2.
    destruct Hb1 as [Hb1|[Hge1 Hb1]].
    + destruct Hb2 as [Hb2|[_ Hb2]]; [eapply H5; eauto|].
      apply list_lookup_singleton_Some in Hb2. destruct Hb2 as [_ <-]. cbn.
      destruct (H4 b1 s1 Hb1) as [_ _ _ _ (j & Hj & Hgr)].
      apply (Hmonotone j (store_calls w)); auto.
    + apply list_lookup_singleton_Some in Hb1. destruct Hb1 as [Hz _].
      destruct Hb2 as [Hb2|[_ Hb2]].
      * apply lookup_lt_Some in Hb2. lia.
      * apply list_lookup_singleton_Some in Hb2. lia.
  - exists a, s. rewrite length_app. cbn. conj; auto.
    + now apply lookup_app_l_Some.
    + intros b sb Hlt Hb. apply lookup_app_Some in Hb. destruct Hb as [Hb|[_ Hb]]; [eauto|].
      apply list_lookup_singleton_Some in Hb. destruct Hb as [_ <-]. cbn. lia.
    + intros b [= <-]. lia.
Qed.

Lemma seq_inv_typed (k : nat) (last : Z) (w : World) :
  B <= Int64.max_int ->
  seq_inv st B k last w ->
  forall v, store w (store_calls w) = StoreOk v -> v <= Int64.max_int.
Proof.
  intros HB Hinv v Hv. rewrite (sq_store _ _ _ _ _ Hinv) in Hv.
  pose proof (Hbounded _ _ Hv). lia.
Qed.

Lemma loadNextSegment_seq_inv (k : nat) (last : Z) (w : World) :
  B <= Int64.max_int ->
  seq_inv st B k last w ->
  seq_inv st B k last (snd (Seq.loadNextSegment w)).
Proof.
  intros HB Hinv.
  destruct (loadNextSegment_cases w (sq_flag _ _ _ _ _ Hinv) (sq_step _ _ _ _ _ Hinv)
              (seq_inv_typed k last w HB Hinv))
    as [(_ & e & ->) | (m & Hreply & Hpos & ->)]; cbn [snd].
  - apply (seq_inv_weaken k k last last w); auto; cbn; lia.
  - now apply installed_seq_inv.
Qed.

Lemma background_seq_inv (k : nat) (last : Z) (w : World) :
  B <= Int64.max_int ->
  seq_inv st B k last w -> seq_inv st B k last (Seq.background w).
Proof.
  intros HB Hinv. unfold Seq.background. destruct (spawned w) as [|j]; [exact Hinv|].
  apply loadNextSegment_seq_inv; [exact HB|].
  apply (seq_inv_weaken k k last last w); auto; cbn; lia.
Qed.

(** The loop of [switchSegment] on a generator in service: it ends with a
    standby segment, or every attempt was refused by the store. *)
Lemma switch_loop_seq (n : nat) : forall (i k : nat) (last : Z) (w : World),
  B <= Int64.max_int ->
  (i + n = Seq.maxRetries)%nat ->
  seq_inv st B k last w ->
  exists r w1,
    Seq.switch_loop n i w = (r, w1) /\
    seq_inv st B k last w1 /\
    match r with
    | Some e =>
        (exists e', e = ErrSwitchRetries 3 e') /\
        nextSegment (gen w) = None /\
        store_calls w1 = (store_calls w + n)%nat /\
        forall j, (j < n)%nat -> refused (st (store_calls w + j)%nat) = true
    | None => n = 0%nat \/ is_nil (nextSegment (gen w1)) = false
    end.
Proof.
  unfold Seq.maxRetries.
  induction n as [|n IH]; intros i k last w HB Hi Hinv; cbn [Seq.switch_loop].
  - exists None, w. auto.
  - destruct (nextSegment (gen w)) as [p|] eqn:Hnext; cbn [is_nil negb].
    { exists None, w. conj; auto. right. now rewrite Hnext. }
    destruct (loadNextSegment_cases w (sq_flag _ _ _ _ _ Hinv) (sq_step _ _ _ _ _ Hinv)
                (seq_inv_typed k last w HB Hinv))
      as [(Href & e & ->) | (m & Hreply & Hpos & ->)].
    + assert (Hinv1 : seq_inv st B k last (tick w)).
      { apply (seq_inv_weaken k k last last w); auto; cbn; lia. }
      rewrite (sq_store _ _ _ _ _ Hinv) in Href.
      unfold Seq.maxRetries. cbn [Nat.sub].
      destruct (Nat.eqb_spec i 2) as [->|Hne].
      * assert (n = 0)%nat as -> by lia.
        eexists _, _. split; [reflexivity|]. split; [exact Hinv1|].
        conj; eauto; [cbn; lia|].
        intros j Hj. replace j with 0%nat by lia. now rewrite Nat.add_0_r.
      * destruct (IH (S i) k last (Sleep (100 * (Z.of_nat i + 1)) (tick w)) HB)
          as (r & w1 & Hrun & Hinv' & Hr); [lia| |].
        { apply (seq_inv_weaken k k last last (tick w)); auto; lia. }
        exists r, w1. split; [exact Hrun|]. split; [exact Hinv'|].
        destruct r as [e1|].
        -- destruct Hr as (He1 & _ & Hcalls & Hdown). cbn in Hcalls, Hdown.
           conj; auto; [lia|].
           intros j Hj. destruct j as [|j]; [now rewrite Nat.add_0_r|].
           replace (store_calls w + S j)%nat with (S (store_calls w) + j)%nat by lia.
           apply Hdown. lia.
        -- destruct Hr as [->|Hr]; [lia|]. now right.
    + assert (Hinv1 : seq_inv st B k last (installed m w))
        by now apply installed_seq_inv.
      rewrite switch_loop_break by reflexivity.
      exists None, (installed m w). conj; auto.
Qed.

(** [switchSegment] on a generator in service: either it promotes an
    untouched segment, or the store refused three round trips in a row and
    the generator is as it was, three round trips later. *)
Lemma switchSegment_seq (k : nat) (last : Z) (w : World) :
  B <= Int64.max_int ->
  seq_inv st B k last w ->
  exists r w1,
    Seq.switchSegment w = (r, w1) /\
    seq_inv st B k last w1 /\
    match r with
    | Some e =>
        (exists e', e = ErrSwitchRetries 3 e') /\
        nextSegment (gen w) = None /\
        store_calls w1 = (store_calls w + 3)%nat /\
        forall j, (j < 3)%nat -> refused (st (store_calls w + j)%nat) = true
    | None =>
        exists b sb, currentSegment (gen w1) = Some b /\
          heap (gen w1) !! b = Some sb /\ Current sb = Max sb - 1000
    end.
Proof.
  intros HB Hinv. unfold Seq.switchSegment.
  destruct (switch_loop_seq Seq.maxRetries 0 k last w HB eq_refl Hinv)
    as (r & w1 & -> & Hinv1 & Hr).
  destruct r as [e|].
  - exists (Some e), w1. auto.
  - destruct Hr as [[=]|Hset].
    destruct (nextSegment (gen w1)) as [b|] eqn:Hnext; [|discriminate].
    cbn [is_nil].
    eexists None, _. split; [reflexivity|].
    destruct Hinv1 as [H1 H2 H3 H4 H5 (a & s & Ha & Hs & Hl1 & Hl2 & Hu & Hn)].
    destruct (Hn b Hnext) as [Hab Hlen].
    destruct (lookup_lt_is_Some_2 _ _ Hlen) as [sb Hsb].
    pose proof (Hu b sb Hab Hsb) as Hfresh.
    pose proof (H5 a b s sb Hab Hs Hsb) as Hsorted.
    split.
    + split; cbn; auto. rewrite ?Hnext.
      exists b, sb. conj; auto; try lia.
      * intros c sc Hbc Hc. apply (Hu c sc); [lia|exact Hc].
      * intros c [=].
    + exists b, sb. cbn. rewrite ?Hnext. auto.
Qed.

(** One call of [NextID] on a generator in service: it returns an
    identifier above every one returned before, or the store refused
    three round trips in a row. *)
Lemma NextID_seq (k : nat) (last : Z) (w : World) :
  B + Z.of_nat k + 2 < Int64.max_int ->
  seq_inv st B k last w ->
  exists r w',
    Seq.NextID w = (r, w') /\
    match r with
    | Ok id => last < id /\ seq_inv st B (k + 2) id w'
    | Err e =>
        seq_inv st B (k + 2) last w' /\
        (exists e', e = ErrSwitch (ErrSwitchRetries 3 e')) /\
        nextSegment (gen w) = None /\
        store_calls w' = (store_calls w + 3)%nat /\
        forall j, (j < 3)%nat -> refused (st (store_calls w + j)%nat) = true
    end.
Proof.
  intros Hroom Hinv.
  pose proof Hinv as [H1 H2 H3 H4 H5 (a & s & Ha & Hs & Hl1 & Hl2 & Hu & Hn)].
  destruct (H4 a s Hs) as [Hmin Hpos Hlo Hhi (j0 & _ & Hgr)].
  pose proof (Hbounded _ _ Hgr) as HmaxB.
  assert (Hgo : forall p k' last' w0, seq_inv st B k' last' w0 ->
    (k' <= k + 2)%nat ->
    seq_inv st B (k + 2) last'
      (if Seq.shouldLoadNext p w0 then go_loadNextSegment w0 else w0)).
  { intros p k' last' w0 Hw0 Hk'. destruct (Seq.shouldLoadNext _ _).
    - apply (seq_inv_weaken k' (k + 2) last' last' w0); auto; lia.
    - apply (seq_inv_weaken k' (k + 2) last' last' w0); auto; lia. }
  destruct (Z.lt_ge_cases (Current s) (Max s)) as [Hlt|Hge].
  - (* room in the active segment *)
    rewrite (NextID_in_range w a s Ha Hs) by int64.
    eexists _, _. split; [reflexivity|]. split; [lia|].
    apply (Hgo _ (S k)); [|lia].
    apply (advanced_seq_inv k last); auto; lia.
  - (* exhausted *)
    unfold Seq.NextID. rewrite (NextID_loop_exhausted 1 w a s Ha Hs Hge) by int64.
    assert (Hinva : seq_inv st B (S k) last (advanced a s w)).
    { apply (advanced_seq_inv k last); auto; lia. }
    destruct (switchSegment_seq (S k) last (advanced a s w)) as (r & w1 & -> & Hinv1 & Hr);
      [lia|exact Hinva|].
    destruct r as [e|].
    + destruct Hr as ((e' & ->) & Hnext & Hcalls & Hdown).
      eexists _, _. split; [reflexivity|]. cbv beta iota. conj; eauto.
      apply (seq_inv_weaken (S k) (k + 2) last last w1); auto; lia.
    + destruct Hr as (b & sb & Hb & Hsb & Hfresh).
      destruct (sq_segments _ _ _ _ _ Hinv1 b sb Hsb) as [Hminb Hposb Hlob Hhib (jb & _ & Hgrb)].
      pose proof (Hbounded _ _ Hgrb) as HmaxbB.
      rewrite (NextID_loop_in_range 0 w1 b sb Hb Hsb) by int64.
      eexists _, _. split; [reflexivity|].
      pose proof Hinv1 as [_ _ _ _ _ (b' & sb' & Hb' & Hsb' & Hlb1 & Hlb2 & _)].
      assert (b' = b) as -> by congruence.
      assert (sb' = sb) as -> by congruence.
      split; [lia|].
      apply (Hgo _ (S (S k))); [|lia].
      apply (advanced_seq_inv (S k) last); auto; lia.
Qed.

(** The generator the constructor returns is in service. *)
Lemma NewSegmentIDGenerator_seq_inv (connected : bool) (w : World) :
  B < Int64.max_int ->
  Seq.NewSegmentIDGenerator connected st = Ok w ->
  exists m, st 0%nat = StoreOk m /\ 0 < m /\
    gen w = mkGenerator [mkSegment (m - 999) m (m - 1000)] (Some 0%nat) None 1000 false /\
    store_calls w = 1%nat /\
    seq_inv st B 0 (m - 1000) w.
Proof.
  intros Hroom. unfold Seq.NewSegmentIDGenerator.
  destruct connected; [|discriminate]. cbn [negb].
  unfold Seq.loadNextSegment. cbn.
  destruct (st 0%nat) as [|v] eqn:Hreply; [discriminate|].
  destruct (Z.leb_spec v 0) as [Hle|Hpos]; [discriminate|].
  intros [= <-].
  pose proof (Hbounded _ _ Hreply) as Hv.
  destruct (newSegment_fields v 1000) as [Hcur Hmin]; [lia|lia|].
  exists v. cbn. rewrite Hmin, Hcur.
  replace (v - 1000 + 1) with (v - 999) by lia.
  conj; auto.
  split; cbn; auto.
  - intros a s Hs. apply list_lookup_singleton_Some in Hs. destruct Hs as [_ <-].
    split; cbn; try lia. exists 0%nat. split; [lia|exact Hreply].
  - intros a b sa sb Hab Ha Hb.
    apply list_lookup_singleton_Some in Ha. apply list_lookup_singleton_Some in Hb. lia.
  - exists 0%nat, (mkSegment (v - 999) v (v - 1000)). cbn. conj; auto; try lia.
    + intros b sb Hb Hsb. apply list_lookup_singleton_Some in Hsb. lia.
    + intros b [=].
Qed.

(** What a sequence of calls and refills returns: increasing identifiers,
    all above [last]. *)
Lemma ids_of_seq (ops : list op) : forall (k : nat) (last : Z) (w : World),
  B + Z.of_nat (k + 2 * length ops) < Int64.max_int ->
  seq_inv st B k last w ->
  StronglySorted Z.lt (ids_of ops w) /\
  Forall (fun x => last < x) (ids_of ops w) /\
  exists last', last <= last' /\
    Forall (fun x => x <= last') (ids_of ops w) /\
    seq_inv st B (k + 2 * length ops) last' (run_ops ops w).
Proof.
  induction ops as [|o rest IH]; intros k last w Hroom Hinv.
  - cbn. conj; try constructor. exists last. conj; auto; try lia.
    now rewrite Nat.add_0_r.
  - cbn [length] in Hroom.
    replace (k + 2 * length (o :: rest))%nat with (k + 2 + 2 * length rest)%nat
      by (cbn [length]; lia).
    change (run_ops (o :: rest) w) with (run_ops rest (apply_op o w)).
    destruct o; cbn [ids_of apply_op].
    + destruct (NextID_seq k last w) as (r & w' & Hrun & Hr); [lia|exact Hinv|].
      rewrite Hrun. cbn [snd]. destruct r as [id|e].
      * destruct Hr as [Hlt Hinv'].
        destruct (IH (k + 2)%nat id w') as (Hsorted & Habove & last' & Hle & Hbelow & Hend);
          [lia|exact Hinv'|].
        conj.
        -- constructor; [exact Hsorted|exact Habove].
        -- constructor; [exact Hlt|].
           eapply Forall_impl; [exact Habove|]. cbn. intros; lia.
        -- exists last'. conj; auto; try lia.
      * destruct Hr as (Hinv' & _).
        apply (IH (k + 2)%nat last w'); [lia|exact Hinv'].
    + apply (IH (k + 2)%nat last (Seq.background w)); [lia|].
      apply background_seq_inv; [lia|].
      apply (seq_inv_weaken k (k + 2) last last w); auto; lia.
Qed.

(** The loop of the batch handler: the identifiers it appends are
    increasing and above [last]; it stops early only when the store refused
    three round trips in a row. *)
Lemma batch_loop_seq (n : nat) : forall (ids : list Z) (k : nat) (last : Z) (w : World),
  B + Z.of_nat (k + 2 * n) < Int64.max_int ->
  seq_inv st B k last w ->
  exists got err w' last',
    batch_loop n ids w = (ids ++ got, err, w') /\
    StronglySorted Z.lt got /\
    Forall (fun x => last < x <= last') got /\
    last <= last' /\
    seq_inv st B (k + 2 * n) last' w' /\
    match err with
    | None => length got = n
    | Some e => (length got < n)%nat /\ exists e', e = ErrSwitch (ErrSwitchRetries 3 e')
    end.
Proof.
  induction n as [|n IH]; intros ids k last w Hroom Hinv; cbn [batch_loop].
  - exists [], None, w, last. rewrite app_nil_r, Nat.add_0_r.
    conj; auto; try constructor; lia.
  - destruct (NextID_seq k last w) as (r & w' & Hrun & Hr); [lia|exact Hinv|].
    rewrite Hrun. destruct r as [id|e].
    + destruct Hr as [Hlt Hinv'].
      destruct (IH (ids ++ [id]) (k + 2)%nat id w')
        as (got & err & w'' & last' & Hloop & Hsorted & Hrange & Hle & Hend & Herr);
        [lia|exact Hinv'|].
      exists (id :: got), err, w'', last'.
      rewrite Hloop, <- app_assoc. cbn [app].
      replace (k + 2 * S n)%nat with (k + 2 + 2 * n)%nat by lia.
      conj; auto; try lia.
      * constructor; [exact Hsorted|].
        eapply Forall_impl; [exact Hrange|]. cbn. intros; lia.
      * constructor; [lia|].
        eapply Forall_impl; [exact Hrange|]. cbn. intros; lia.
      * destruct err as [e|]; cbn [length]; [|lia].
        destruct Herr as [Hlen He]. split; [lia|exact He].
    + destruct Hr as (Hinv' & He & _).
      exists [], (Some e), w', last. rewrite app_nil_r.
      split; [reflexivity|]. split; [constructor|]. split; [constructor|].
      split; [lia|]. split; [|split; [cbn; lia|exact He]].
      apply (seq_inv_weaken (k + 2) (k + 2 * S n) last last w'); auto; lia.
Qed.

Lemma batch_count_range (atoi : option Z) : 1 <= batch_count atoi <= 1000.
Proof.
  unfold batch_count. destruct atoi as [c|]; [|lia].
  destruct (Z.leb_spec c 0); cbn [orb]; [lia|].
  destruct (Z.ltb_spec 1000 c); lia.
Qed.

Lemma ids_in_write_ids (s : Z) (ids : list Z) : forall i,
  ids_in (mkResponse s (write_ids i ids)) = ids.
Proof.
  unfold ids_in. cbn [body].
  induction ids as [|id rest IH]; intros i; cbn [write_ids]; [reflexivity|].
  rewrite omap_app. destruct (0 <? i)%nat; cbn; now rewrite IH.
Qed.

Lemma StronglySorted_lt_app (l1 l2 : list Z) (mid : Z) :
  StronglySorted Z.lt l1 -> StronglySorted Z.lt l2 ->
  Forall (fun x => x <= mid) l1 -> Forall (fun x => mid < x) l2 ->
  StronglySorted Z.lt (l1 ++ l2).
Proof.
  intros H1 H2 Hle Hgt. induction H1 as [|x l1 Hs IH Hx]; cbn; [exact H2|].
  apply Forall_cons in Hle. destruct Hle as [Hxm Hle].
  constructor; [now apply IH|].
  apply Forall_app. split; [exact Hx|].
  eapply Forall_impl; [exact Hgt|]. cbn. intros; lia.
Qed.

(** One request, answered on a generator in service. *)
Lemma answer_seq (r : request) (k : nat) (last : Z) (w : World) :
  B + Z.of_nat (k + 2000) < Int64.max_int ->
  seq_inv st B k last w ->
  exists last', last <= last' /\
    StronglySorted Z.lt (ids_served (fst (answer r w))) /\
    Forall (fun x => last < x <= last') (ids_served (fst (answer r w))) /\
    Forall well_formed (fst (answer r w)) /\
    seq_inv st B (k + 2000) last' (snd (answer r w)).
Proof.
  intros Hroom Hinv.
  assert (Hsingle : forall (f : Z -> chunk) (e2c : error -> chunk),
    (forall id s, ids_in (mkResponse s [f id]) = [id]) ->
    (forall e s, ids_in (mkResponse s [e2c e]) = []) ->
    exists last', last <= last' /\
      let out := match Seq.NextID w with
                 | (Err e, w) => (mkResponse StatusInternalServerError [e2c e], w)
                 | (Ok id, w) => (mkResponse StatusOK [f id], w)
                 end in
      StronglySorted Z.lt (ids_served [fst out]) /\
      Forall (fun x => last < x <= last') (ids_served [fst out]) /\
      Forall well_formed [fst out] /\
      seq_inv st B (k + 2000) last' (snd out)).
  { intros f e2c Hf He.
    destruct (NextID_seq k last w) as (res & w' & Hrun & Hres); [lia|exact Hinv|].
    rewrite Hrun. destruct res as [id|e]; cbn [fst snd ids_served map concat].
    - destruct Hres as [Hlt Hinv']. exists id. rewrite Hf, app_nil_r.
      split; [lia|]. split; [repeat constructor|].
      split; [repeat constructor; lia|]. split.
      + constructor; [|constructor]. left. split; [reflexivity|]. now rewrite Hf.
      + apply (seq_inv_weaken (k + 2) (k + 2000) id id w'); auto; lia.
    - destruct Hres as (Hinv' & _). exists last. rewrite He. cbn.
      split; [lia|]. split; [constructor|]. split; [constructor|]. split.
      + constructor; [|constructor]. right. left. split; [reflexivity|apply He].
      + apply (seq_inv_weaken (k + 2) (k + 2000) last last w'); auto; lia. }
  destruct r as [|atoi|is_get|]; cbn [answer].
  - unfold handle_id.
    destruct (Hsingle Dec ErrorText) as (last' & Hle & H); [reflexivity|reflexivity|].
    exists last'. split; [exact Hle|].
    destruct (Seq.NextID w) as [[id|e] w']; exact H.
  - unfold handle_batch.
    pose proof (batch_count_range atoi) as Hcount.
    destruct (batch_loop_seq (Z.to_nat (batch_count atoi)) [] k last w)
      as (got & err & w' & last' & Hloop & Hsorted & Hrange & Hle & Hend & Herr);
      [lia|exact Hinv|].
    rewrite Hloop. cbn [app].
    assert (Hinv' : seq_inv st B (k + 2000) last' w').
    { apply (seq_inv_weaken (k + 2 * Z.to_nat (batch_count atoi)) (k + 2000)
               last' last' w'); auto; lia. }
    destruct err as [e|]; cbn [fst snd ids_served map concat].
    + exists last'. split; [exact Hle|]. cbn.
      split; [constructor|]. split; [constructor|]. split; [|exact Hinv'].
      constructor; [|constructor]. right. left. split; reflexivity.
    + exists last'. rewrite ids_in_write_ids, app_nil_r.
      split; [exact Hle|]. split; [exact Hsorted|]. split; [exact Hrange|].
      split; [|exact Hinv'].
      constructor; [|constructor]. left. split; [reflexivity|]. rewrite ids_in_write_ids.
      intros ->. cbn in Herr.
      lia.
  - unfold ServeHTTP. destruct is_get; cbn [negb].
    + destruct (Hsingle JsonId JsonError) as (last' & Hle & H); [reflexivity|reflexivity|].
      exists last'. split; [exact Hle|].
      destruct (Seq.NextID w) as [[id|e] w']; exact H.
    + exists last. cbn. split; [lia|]. split; [constructor|]. split; [constructor|].
      split.
      * constructor; [|constructor]. right. right. split; reflexivity.
      * apply (seq_inv_weaken k (k + 2000) last last w); auto; lia.
  - exists last. cbn. split; [lia|]. split; [constructor|]. split; [constructor|].
    split; [constructor|].
    apply background_seq_inv; [lia|].
    apply (seq_inv_weaken k (k + 2000) last last w); auto; lia.
Qed.

(** Any sequence of requests, answered one at a time. *)
Lemma serve_seq (reqs : list request) : forall (k : nat) (last : Z) (w : World),
  B + Z.of_nat (k + 2000 * length reqs) < Int64.max_int ->
  seq_inv st B k last w ->
  StronglySorted Z.lt (ids_served (fst (serve reqs w))) /\
  Forall (fun x => last < x) (ids_served (fst (serve reqs w))) /\
  Forall well_formed (fst (serve reqs w)) /\
  exists last', last <= last' /\
    Forall (fun x => x <= last') (ids_served (fst (serve reqs w))) /\
    seq_inv st B (k + 2000 * length reqs) last' (snd (serve reqs w)).
Proof.
  induction reqs as [|r rest IH]; intros k last w Hroom Hinv; cbn [serve].
  - cbn. conj; try constructor. exists last. conj; auto; try lia.
    now rewrite Nat.add_0_r.
  - cbn [length] in Hroom.
    destruct (answer_seq r k last w) as (last1 & Hle & Hsorted & Hrange & Hwf & Hinv');
      [lia|exact Hinv|].
    destruct (answer r w) as [out w']. cbn [fst snd] in *.
    destruct (IH (k + 2000)%nat last1 w')
      as (Hsorted' & Habove & Hwf' & last' & Hle' & Hbelow & Hend); [lia|exact Hinv'|].
    destruct (serve rest w') as [out' w'']. cbn [fst snd] in *.
    unfold ids_served in *. rewrite map_app, concat_app.
    conj.
    + apply (StronglySorted_lt_app _ _ last1); auto.
      eapply Forall_impl; [exact Hrange|]. cbn. intros; lia.
    + apply Forall_app. split.
      * eapply Forall_impl; [exact Hrange|]. cbn. intros; lia.
      * eapply Forall_impl; [exact Habove|]. cbn. intros; lia.
    + apply Forall_app. auto.
    + exists last'. conj; try lia.
      * apply Forall_app. split; [|exact Hbelow].
        eapply Forall_impl; [exact Hrange|]. cbn. intros; lia.
      * replace (k + 2000 * length (r :: rest))%nat with (k + 2000 + 2000 * length rest)%nat
          by (cbn [length]; lia).
        exact Hend.
Qed.

End Sequential.

(** ** The identifiers of a sequential run *)

(** X7: calls made one after the other on a generator the constructor built,
    with refill goroutines running in between at any point, return
    strictly increasing identifiers, across segment switches and failed
    calls; the first one is above [m - 1000], [m] being the first reply of
    the store. *)
Theorem sequential_ids_increasing
    (st : nat -> StoreReply) (B : Z) (connected : bool) (w : World) (ops : list op) :
  store_monotone st -> store_bounded B st ->
  B + 2 * Z.of_nat (length ops) < Int64.max_int ->
  Seq.NewSegmentIDGenerator connected st = Ok w ->
  StronglySorted Z.lt (ids_of ops w) /\
  forall m, st 0%nat = StoreOk m -> Forall (fun x => m - 1000 < x) (ids_of ops w).
Proof.
  intros Hm Hb Hroom Hnew.
  destruct (NewSegmentIDGenerator_seq_inv st B Hb connected w) as (m & Hreply & _ & _ & _ & Hinv);
    [lia|exact Hnew|].
  destruct (ids_of_seq st B Hm Hb ops 0 (m - 1000) w) as (Hsorted & Habove & _);
    [lia|exact Hinv|].
  split; [exact Hsorted|]. intros m' Hm'.
  assert (m' = m) as -> by congruence. exact Habove.
Qed.

(** In the sequential reading, where a goroutine started by [go] runs to
    its end between two calls, a generator in service fails in one way
    only: the active segment is used up, there is no standby, and the
    store refused three round trips in a row, the three of
    [switchSegment]. *)
Theorem NextID_in_service_fails_only_on_outage
    (st : nat -> StoreReply) (B : Z) (connected : bool) (w0 : World) (ops : list op)
    (e : error) :
  store_monotone st -> store_bounded B st ->
  B + 2 * Z.of_nat (length ops) + 2 < Int64.max_int ->
  Seq.NewSegmentIDGenerator connected st = Ok w0 ->
  fst (Seq.NextID (run_ops ops w0)) = Err e ->
  (exists e', e = ErrSwitch (ErrSwitchRetries 3 e')) /\
  nextSegment (gen (run_ops ops w0)) = None /\
  store_calls (snd (Seq.NextID (run_ops ops w0))) = (store_calls (run_ops ops w0) + 3)%nat /\
  forall j, (j < 3)%nat -> refused (st (store_calls (run_ops ops w0) + j)%nat) = true.
Proof.
  intros Hm Hb Hroom Hnew Herr.
  destruct (NewSegmentIDGenerator_seq_inv st B Hb connected w0) as (m & _ & _ & _ & _ & Hinv);
    [lia|exact Hnew|].
  destruct (ids_of_seq st B Hm Hb ops 0 (m - 1000) w0) as (_ & _ & last & _ & _ & Hend);
    [lia|exact Hinv|].
  destruct (NextID_seq st B Hm Hb (0 + 2 * length ops) last (run_ops ops w0))
    as (r & w' & Hrun & Hr);
    [lia|exact Hend|].
  rewrite Hrun in *. cbn [fst snd] in *. subst r.
  destruct Hr as (_ & He & Hnext & Hcalls & Hdown). auto.
Qed.

(** X15: requests answered one at a time by the handlers, on a generator the
    constructor built: the identifiers of all the responses, in the order
    they were written, are strictly increasing, and each response carries
    identifiers under status 200 or none under status 500 or 405. *)
Theorem served_ids_increasing
    (st : nat -> StoreReply) (B : Z) (connected : bool) (w : World)
    (reqs : list request) :
  store_monotone st -> store_bounded B st ->
  B + 2000 * Z.of_nat (length reqs) < Int64.max_int ->
  Seq.NewSegmentIDGenerator connected st = Ok w ->
  StronglySorted Z.lt (ids_served (fst (serve reqs w))) /\
  Forall well_formed (fst (serve reqs w)).
Proof.
  intros Hm Hb Hroom Hnew.
  destruct (NewSegmentIDGenerator_seq_inv st B Hb connected w) as (m & _ & _ & _ & _ & Hinv);
    [lia|exact Hnew|].
  destruct (serve_seq st B Hm Hb reqs 0 (m - 1000) w) as (Hsorted & _ & Hwf & _);
    [lia|exact Hinv|].
  auto.
Qed.

Lemma batch_loop_length (n : nat) : forall (ids out : list Z) (w w' : World),
  batch_loop n ids w = (out, None, w') -> length out = (length ids + n)%nat.
Proof.
  induction n as [|n IH]; intros ids out w w'; cbn [batch_loop].
  - intros [= <- _]. lia.
  - destruct (Seq.NextID w) as [[id|e] w1]; [|discriminate].
    intros H. apply IH in H. rewrite length_app in H. cbn in H. lia.
Qed.

(** X14: the count of a batch: whatever the query says, between 1 and 1000
    identifiers are asked for; a count that does not parse, is not
    positive or exceeds 1000 is answered exactly as a request for one
    identifier on [/id]; and a batch answered with status 200 carries as
    many identifiers as were asked for. *)
Theorem batch_count_clamped (atoi : option Z) (w : World) :
  1 <= batch_count atoi <= 1000 /\
  (forall c, atoi = Some c -> 1 <= c <= 1000 -> batch_count atoi = c) /\
  (atoi = None \/ (exists c, atoi = Some c /\ (c <= 0 \/ 1000 < c)) ->
   handle_batch atoi w = handle_id w) /\
  (status (fst (handle_batch atoi w)) = StatusOK ->
   Z.of_nat (length (ids_in (fst (handle_batch atoi w)))) = batch_count atoi).
Proof.
  pose proof (batch_count_range atoi) as Hrange.
  conj; try lia.
  - intros c -> Hc. unfold batch_count.
    destruct (Z.leb_spec c 0); cbn [orb]; [lia|].
    destruct (Z.ltb_spec 1000 c); lia.
  - intros Hbad.
    assert (Hone : batch_count atoi = 1).
    { destruct Hbad as [->|(c & -> & Hc)]; [reflexivity|]. unfold batch_count.
      destruct (Z.leb_spec c 0); cbn [orb]; [reflexivity|].
      destruct (Z.ltb_spec 1000 c); [reflexivity|lia]. }
    unfold handle_batch, handle_id. rewrite Hone.
    change (Z.to_nat 1) with 1%nat. cbn [batch_loop].
    destruct (Seq.NextID w) as [[id|e] w']; reflexivity.
  - unfold handle_batch.
    destruct (batch_loop (Z.to_nat (batch_count atoi)) [] w) as [[ids err] w'] eqn:Hloop.
    destruct err as [e|]; cbn [fst status]; [discriminate|]. intros _.
    rewrite ids_in_write_ids. apply batch_loop_length in Hloop. cbn in Hloop. lia.
Qed.

(** X16: a batch that fails answers 500 with the error and no identifier,
    although the calls made before the failure claimed theirs: those are
    below every identifier any later request is answered with, so they are
    never handed out. *)
Theorem failed_batch_burns_ids
    (st : nat -> StoreReply) (B : Z) (connected : bool) (w0 : World)
    (reqs later : list request) (atoi : option Z) :
  store_monotone st -> store_bounded B st ->
  B + 2000 * Z.of_nat (length reqs + 1 + length later) < Int64.max_int ->
  Seq.NewSegmentIDGenerator connected st = Ok w0 ->
  status (fst (handle_batch atoi (snd (serve reqs w0)))) <> StatusOK ->
  (exists e, fst (handle_batch atoi (snd (serve reqs w0)))
             = mkResponse StatusInternalServerError [ErrorText e]) /\
  forall x y,
    In x (fst (fst (batch_loop (Z.to_nat (batch_count atoi)) [] (snd (serve reqs w0))))) ->
    In y (ids_served (fst (serve later (snd (handle_batch atoi (snd (serve reqs w0))))))) ->
    x < y.
Proof.
  intros Hm Hb Hroom Hnew Hfail.
  destruct (NewSegmentIDGenerator_seq_inv st B Hb connected w0) as (m & _ & _ & _ & _ & Hinv);
    [lia|exact Hnew|].
  destruct (serve_seq st B Hm Hb reqs 0 (m - 1000) w0) as (_ & _ & _ & last & _ & _ & Hend);
    [lia|exact Hinv|].
  set (w := snd (serve reqs w0)) in *.
  pose proof (batch_count_range atoi) as Hcount.
  destruct (batch_loop_seq st B Hm Hb (Z.to_nat (batch_count atoi)) []
              (0 + 2000 * length reqs) last w)
    as (got & err & w' & last' & Hloop & _ & Hrange & _ & Hinv' & _); [lia|exact Hend|].
  unfold handle_batch in *. rewrite Hloop in *. cbn [app fst snd] in *.
  destruct err as [e|]; cbn [fst snd status] in *; [|congruence].
  split; [now exists e|].
  intros x y Hx Hy.
  destruct (serve_seq st B Hm Hb later
              (0 + 2000 * length reqs + 2 * Z.to_nat (batch_count atoi)) last' w')
    as (_ & Habove & _); [lia|exact Hinv'|].
  rewrite Forall_forall in Hrange, Habove.
  apply list_elem_of_In in Hx, Hy.
  specialize (Hrange x Hx). specialize (Habove y Hy). cbn in *. lia.
Qed.

(** ** More on the interleaved reading *)

(** X4: under any interleaving, an identifier returned to a caller lies in a
    range the store granted: it was dispensed from a segment
    [m - 999 .. m] whose [m] is the reply of one of the round trips made
    so far. *)
Theorem returned_id_within_granted_range
    (st : nat -> StoreReply) (B : Z) (connected : bool) (w : World)
    (schedule : list Conc.event) (tid : nat) (x : Z) :
  store_monotone st -> store_bounded B st ->
  B + Z.of_nat (length schedule) < Int64.max_int ->
  Seq.NewSegmentIDGenerator connected st = Ok w ->
  Conc.returned (Conc.run schedule (Conc.mkConfig w [])) tid = Some (Ok x) ->
  exists a s k,
    In (tid, a, x) (Conc.dispensed schedule (Conc.mkConfig w [])) /\
    heap (gen (Conc.world (Conc.run schedule (Conc.mkConfig w [])))) !! a = Some s /\
    (k < store_calls (Conc.world (Conc.run schedule (Conc.mkConfig w []))))%nat /\
    st k = StoreOk (Max s) /\
    0 < Max s /\ Max s - 999 <= x <= Max s.
Proof.
  intros Hm Hb Hroom Hnew Hret.
  pose proof (run_from_new_inv st B connected w schedule Hm Hb Hroom Hnew) as Hinv.
  unfold Conc.returned in Hret.
  destruct (Conc.threads _ !! tid) as [t|] eqn:Ht; [|discriminate].
  destruct t; try discriminate. injection Hret as ->.
  destruct (inv_claimed _ _ _ _ _ Hinv tid _ x Ht eq_refl) as [a Hin].
  destruct (inv_log _ _ _ _ _ Hinv tid a x Hin) as (s & Hs & Hrange & _).
  destruct (inv_segments _ _ _ _ _ Hinv a s Hs) as [Hmin Hpos _ _ (k & Hk & Hgr)].
  exists a, s, k. conj; auto; lia.
Qed.

(** X5: under any interleaving, the loading flag is a lock: at most one
    thread is between its successful compare-and-swap and the deferred
    store that releases the flag, and the flag is set while it is there.
    So the round trips of the refills never overlap. *)
Theorem refill_is_exclusive
    (st : nat -> StoreReply) (B : Z) (connected : bool) (w : World)
    (schedule : list Conc.event) (tid1 tid2 : nat) (t1 t2 : Conc.pc) :
  store_monotone st -> store_bounded B st ->
  B + Z.of_nat (length schedule) < Int64.max_int ->
  Seq.NewSegmentIDGenerator connected st = Ok w ->
  Conc.threads (Conc.run schedule (Conc.mkConfig w [])) !! tid1 = Some t1 ->
  Conc.threads (Conc.run schedule (Conc.mkConfig w [])) !! tid2 = Some t2 ->
  Conc.in_refill t1 = true -> Conc.in_refill t2 = true ->
  tid1 = tid2 /\
  loadingFlag (gen (Conc.world (Conc.run schedule (Conc.mkConfig w [])))) = true.
Proof.
  intros Hm Hb Hroom Hnew H1 H2 Hr1 Hr2.
  pose proof (run_from_new_inv st B connected w schedule Hm Hb Hroom Hnew) as Hinv.
  split.
  - exact (inv_mutex _ _ _ _ _ Hinv tid1 tid2 t1 t2 H1 H2 Hr1 Hr2).
  - exact (inv_guard _ _ _ _ _ Hinv tid1 t1 H1 Hr1).
Qed.

(** ** Edges of the sequential reading *)

(** A caller among other threads that finds, at each of its accesses, the
    active segment used up, the standby slot nil and the loading flag set:
    its nine accesses are the load of the active slot in [w1], the add in
    [w2], and three rounds of a nil check and a failed compare-and-swap,
    then the last nil check in [w9].  It fails with "failed to load next
    segment", and the add is the only access that changes the world it
    finds. *)
Lemma NextID_steps_while_refill_in_flight
    (a : addr) (s : Segment) (w1 w2 w3 w4 w5 w6 w7 w8 w9 : World) :
  currentSegment (gen w1) = Some a ->
  heap (gen w2) !! a = Some s ->
  Max s <= Current s -> Int64.in_range (Current s + 1) ->
  nextSegment (gen w3) = None -> loadingFlag (gen w4) = true ->
  nextSegment (gen w5) = None -> loadingFlag (gen w6) = true ->
  nextSegment (gen w7) = None -> loadingFlag (gen w8) = true ->
  nextSegment (gen w9) = None ->
  steps_in [w1; w2; w3; w4; w5; w6; w7; w8; w9] (Conc.NextID_iter 0)
  = (Conc.Done (Err (ErrSwitch ErrLoadNext)), []) /\
  worlds_in [w1; w2; w3; w4; w5; w6; w7; w8; w9] (Conc.NextID_iter 0)
  = [w1; advanced a s w2; w3; w4; w5; w6; w7; w8; w9].
Proof.
  intros Hc Hs Hge Hr Hn3 Hf4 Hn5 Hf6 Hn7 Hf8 Hn9.
  assert (Hadd : Conc.step_thread (Conc.NAdd 0 a) w2
                 = (Conc.switch_iter 0 0, advanced a s w2, [])).
  { cbn [Conc.step_thread]. unfold AddInt64_Current. rewrite Hs.
    cbn. rewrite list_lookup_insert_eq by now apply lookup_lt_Some in Hs.
    cbn [Max]. rewrite add_no_overflow by exact Hr.
    destruct (Z.leb_spec (Current s + 1) (Max s)); [lia|reflexivity]. }
  unfold steps_in, worlds_in.
  change (Conc.NextID_iter 0) with (Conc.NLoad 0).
  cbn [Conc.step_thread]. rewrite Hc, Hadd.
  repeat (cbn [Conc.step_thread Conc.ret_load Conc.switch_iter Conc.ret_switch
               Seq.maxRetries Nat.ltb Nat.leb is_nil negb];
          rewrite ?Hn3, ?Hf4, ?Hn5, ?Hf6, ?Hn7, ?Hf8, ?Hn9).
  split; reflexivity.
Qed.

(** X9: a caller that finds the active segment used up and no standby while a
    refill is in flight (the loading flag is set) does not wait for it:
    the three attempts of [switchSegment] return at once from the
    compare-and-swap, and [NextID] fails with "failed to load next
    segment", without a round trip to the store and without sleeping.
    This is so in the sequential reading and for a caller that runs while
    the thread holding the flag is paused; and among other threads that
    move, it is so whenever the flag is still set at each of the caller's
    three compare-and-swaps and the standby slot is still nil at each of
    its four nil checks (worlds [w1] to [w9], one per access). *)
Theorem NextID_fails_while_refill_in_flight (w : World) (a : addr) (s : Segment) :
  currentSegment (gen w) = Some a ->
  heap (gen w) !! a = Some s ->
  Max s <= Current s -> Int64.in_range (Current s + 1) ->
  nextSegment (gen w) = None ->
  loadingFlag (gen w) = true ->
  Seq.NextID w = (Err (ErrSwitch ErrLoadNext), advanced a s w) /\
  store_calls (advanced a s w) = store_calls w /\
  slept (advanced a s w) = slept w /\
  (exists n,
     Conc.solo n (Conc.NextID_iter 0) w
     = (Conc.Done (Err (ErrSwitch ErrLoadNext)), advanced a s w, [])) /\
  (forall (s2 : Segment) (w1 w2 w3 w4 w5 w6 w7 w8 w9 : World),
     currentSegment (gen w1) = Some a ->
     heap (gen w2) !! a = Some s2 ->
     Max s2 <= Current s2 -> Int64.in_range (Current s2 + 1) ->
     nextSegment (gen w3) = None -> loadingFlag (gen w4) = true ->
     nextSegment (gen w5) = None -> loadingFlag (gen w6) = true ->
     nextSegment (gen w7) = None -> loadingFlag (gen w8) = true ->
     nextSegment (gen w9) = None ->
     steps_in [w1; w2; w3; w4; w5; w6; w7; w8; w9] (Conc.NextID_iter 0)
     = (Conc.Done (Err (ErrSwitch ErrLoadNext)), []) /\
     worlds_in [w1; w2; w3; w4; w5; w6; w7; w8; w9] (Conc.NextID_iter 0)
     = [w1; advanced a s2 w2; w3; w4; w5; w6; w7; w8; w9]).
Proof.
  intros Hc Hs Hge Hr Hnext Hflag.
  assert (Hrun : Seq.NextID w = (Err (ErrSwitch ErrLoadNext), advanced a s w)).
  { unfold Seq.NextID. rewrite (NextID_loop_exhausted 1 w a s Hc Hs Hge Hr).
    unfold Seq.switchSegment. rewrite switch_loop_guarded by exact Hflag.
    cbn [advanced with_gen gen nextSegment set_heap]. rewrite Hnext. reflexivity. }
  split; [exact Hrun|]. split; [reflexivity|]. split; [reflexivity|]. split.
  - destruct (NextID_alone w) as [n Hn]. exists n.
    rewrite Hn, Hrun. cbn [fst snd advanced with_gen spawned].
    now rewrite Nat.sub_diag.
  - intros s2 w1 w2 w3 w4 w5 w6 w7 w8 w9 H1 H2 Hge2 Hr2 H3 H4 H5 H6 H7 H8 H9.
    apply NextID_steps_while_refill_in_flight; assumption.
Qed.

(** X10: a caller that finds the active segment used up and a standby segment
    ready, and that runs while no other thread makes an access (a refill
    that holds the loading flag is paused), promotes the standby and
    returns its first free identifier, without a round trip to the store
    and without sleeping, whether the loading flag is set or not; the
    standby slot is left empty.  The sequential reading and a thread of
    the interleaved reading that runs alone agree on it. *)
Theorem NextID_promotes_ready_standby
    (w : World) (a b : addr) (s sb : Segment) :
  currentSegment (gen w) = Some a ->
  heap (gen w) !! a = Some s ->
  Max s <= Current s -> Int64.in_range (Current s + 1) ->
  nextSegment (gen w) = Some b ->
  heap (gen w) !! b = Some sb ->
  Int64.min_int <= Current sb -> Max sb <= Int64.max_int -> Current sb < Max sb ->
  exists w',
    Seq.NextID w = (Ok (Current sb + 1), w') /\
    currentSegment (gen w') = Some b /\
    nextSegment (gen w') = None /\
    heap (gen w') !! b = Some (mkSegment (Min sb) (Max sb) (Current sb + 1)) /\
    heap (gen w') !! a = Some (mkSegment (Min s) (Max s) (Current s + 1)) /\
    store_calls w' = store_calls w /\
    slept w' = slept w /\
    exists n started,
      Conc.solo n (Conc.NextID_iter 0) w
      = (Conc.Done (Ok (Current sb + 1)), w', started).
Proof.
  intros Hc Hs Hge Hr Hnext Hsb Hlo Hhi Hlt.
  assert (Hab : a <> b).
  { intros ->. rewrite Hs in Hsb. injection Hsb as ->. lia. }
  pose proof (lookup_lt_Some _ _ _ Hs) as Hlena.
  pose proof (lookup_lt_Some _ _ _ Hsb) as Hlenb.
  destruct (NextID_alone w) as [n Hn]. revert Hn.
  set (wa := advanced a s w).
  assert (Hsb' : heap (gen wa) !! b = Some sb).
  { cbn. now rewrite list_lookup_insert_ne. }
  assert (Hnexta : nextSegment (gen wa) = Some b) by exact Hnext.
  assert (Hswitch : Seq.switchSegment wa = (None, promoted wa)).
  { unfold Seq.switchSegment. rewrite switch_loop_break by now rewrite Hnexta.
    unfold promoted. rewrite Hnexta. reflexivity. }
  unfold Seq.NextID. rewrite (NextID_loop_exhausted 1 w a s Hc Hs Hge Hr).
  fold wa. rewrite Hswitch.
  assert (Hcp : currentSegment (gen (promoted wa)) = Some b) by (cbn; exact Hnext).
  rewrite (NextID_loop_in_range 0 (promoted wa) b sb Hcp Hsb') by assumption.
  intros Hn.
  eexists. split; [reflexivity|].
  assert (Hheap : heap (gen (advanced b sb (promoted wa))) !! b
                  = Some (mkSegment (Min sb) (Max sb) (Current sb + 1)) /\
                  heap (gen (advanced b sb (promoted wa))) !! a
                  = Some (mkSegment (Min s) (Max s) (Current s + 1))).
  { cbn. split.
    - apply list_lookup_insert_eq. now rewrite length_insert.
    - rewrite list_lookup_insert_ne by congruence. now apply list_lookup_insert_eq. }
  destruct Hheap as [Hb' Ha'].
  cbn [fst snd] in Hn.
  destruct (Seq.shouldLoadNext _ _); cbn [go_loadNextSegment gen store_calls slept];
    conj; auto; eauto.
Qed.

Lemma wrap_bounds (z : Z) : Int64.min_int <= Int64.wrap z <= Int64.max_int.
Proof.
  unfold Int64.wrap, Int64.min_int, Int64.max_int.
  pose proof (Z.mod_pos_bound (z + 2 ^ 63) (2 ^ 64)). lia.
Qed.

(** X13: a segment whose [Max] is the largest [int64] is never found used up:
    the test [id <= current.Max] holds for every [int64], so [NextID]
    returns the cursor plus one modulo [2 ^ 64]; once the cursor stands at
    [Max] the next identifier is the smallest [int64], a negative number
    below all those returned before. *)
Theorem NextID_wraps_at_MaxInt64 (w : World) (a : addr) (s : Segment) :
  currentSegment (gen w) = Some a ->
  heap (gen w) !! a = Some s ->
  Max s = Int64.max_int ->
  exists w',
    Seq.NextID w = (Ok (Int64.add (Current s) 1), w') /\
    currentSegment (gen w') = Some a /\
    store_calls w' = store_calls w /\
    (Current s = Int64.max_int -> Int64.add (Current s) 1 = Int64.min_int).
Proof.
  intros Hc Hs Hmax.
  pose proof (lookup_lt_Some _ _ _ Hs) as Hlen.
  unfold Seq.NextID. cbn [Seq.NextID_loop]. rewrite Hc.
  unfold AddInt64_Current. rewrite Hs.
  cbn [with_gen gen set_heap heap].
  rewrite list_lookup_insert_eq by assumption. cbn [Max]. rewrite Hmax.
  destruct (Z.leb_spec (Int64.add (Current s) 1) Int64.max_int) as [_|Hgt].
  2:{ pose proof (wrap_bounds (Current s + 1)). unfold Int64.add in Hgt. lia. }
  eexists. split; [reflexivity|].
  destruct (Seq.shouldLoadNext _ _); cbn; conj; auto; intros ->; reflexivity.
Qed.

(** X11: what the constructor returns.  It fails when the connection fails,
    when the first round trip fails, and when the store answers a counter
    that is not positive; otherwise the generator has one segment,
    [m - 999 .. m] for the reply [m], in the active slot, the standby slot
    is empty, one round trip was made, and the first call of [NextID]
    returns [m - 999].  That identifier is positive only when [m] is at
    least 1000: the check [MaxID <= 0] lets a counter below the step
    through. *)
Theorem NewSegmentIDGenerator_outcome (connected : bool) (st : nat -> StoreReply) :
  store_typed st ->
  match Seq.NewSegmentIDGenerator connected st with
  | Err e =>
      (connected = false /\ e = ErrConnect) \/
      (connected = true /\ st 0%nat = StoreErr /\ e = ErrLoadSegment) \/
      (connected = true /\ exists m, st 0%nat = StoreOk m /\ m <= 0 /\ e = ErrInvalidMaxId m)
  | Ok w =>
      connected = true /\
      exists m, st 0%nat = StoreOk m /\ 0 < m /\
        gen w = mkGenerator [mkSegment (m - 999) m (m - 1000)] (Some 0%nat) None 1000 false /\
        store w = st /\ store_calls w = 1%nat /\ slept w = [] /\ spawned w = 0%nat /\
        fst (Seq.NextID w) = Ok (m - 999) /\
        (0 < m - 999 <-> 1000 <= m)
  end.
Proof.
  intros Htyped. unfold Seq.NewSegmentIDGenerator.
  destruct connected; cbn [negb]; [|left; auto].
  set (w0 := mkWorld (mkGenerator [] None None 1000 false) st 0 [] 0).
  destruct (st 0%nat) as [|m] eqn:Hreply.
  { assert (Hload : Seq.loadNextSegment w0 = (Some ErrLoadSegment, tick w0))
      by (unfold Seq.loadNextSegment; cbn; now rewrite Hreply).
    rewrite Hload. right; left; auto. }
  destruct (Z.leb_spec m 0) as [Hle|Hpos].
  { assert (Hload : Seq.loadNextSegment w0 = (Some (ErrInvalidMaxId m), tick w0)).
    { unfold Seq.loadNextSegment. cbn. rewrite Hreply.
      destruct (Z.leb_spec m 0); [reflexivity|lia]. }
    rewrite Hload. right; right; eauto. }
  pose proof (Htyped _ _ Hreply) as Hm.
  rewrite (loadNextSegment_ok w0 m) by (cbn; auto; int64).
  split; [reflexivity|]. exists m.
  match goal with |- context [Seq.NextID ?x] => set (w1 := x) end.
  assert (Hfirst : fst (Seq.NextID w1) = Ok (m - 999)).
  { rewrite (NextID_in_range w1 0%nat (mkSegment (m - 1000 + 1) m (m - 1000)));
      try reflexivity; cbn; try int64.
    f_equal. lia. }
  subst w1.
  cbn [installed w0 gen heap step currentSegment nextSegment with_gen
       set_currentSegment set_nextSegment store store_calls slept spawned
       length app] in *.
  replace (m - 1000 + 1) with (m - 999) in * by lia.
  conj; auto; try lia.
Qed.

Lemma background_installs (w : World) (k : nat) (m : Z) :
  spawned w = S k ->
  loadingFlag (gen w) = false ->
  step (gen w) = 1000 ->
  store w (store_calls w) = StoreOk m -> 0 < m <= Int64.max_int ->
  Seq.background w
  = installed m (mkWorld (gen w) (store w) (store_calls w) (slept w) k).
Proof.
  intros Hsp Hflag Hstep Hreply Hm. unfold Seq.background. rewrite Hsp.
  rewrite (loadNextSegment_ok _ m); cbn; auto. rewrite Hstep. lia.
Qed.

(** X12: two refill goroutines that run one after the other, not overlapping,
    are not coalesced: each makes its round trip, and the segment of the
    second one replaces the segment of the first in the standby slot, so
    the range the first obtained is in no slot and will not be dispensed. *)
Theorem refills_in_a_row_waste_a_range (w : World) (m1 m2 : Z) :
  loadingFlag (gen w) = false ->
  step (gen w) = 1000 ->
  (2 <= spawned w)%nat ->
  store w (store_calls w) = StoreOk m1 -> 0 < m1 <= Int64.max_int ->
  store w (S (store_calls w)) = StoreOk m2 -> 0 < m2 <= Int64.max_int ->
  heap (gen (Seq.background (Seq.background w)))
    = heap (gen w) ++ [mkSegment (m1 - 999) m1 (m1 - 1000);
                       mkSegment (m2 - 999) m2 (m2 - 1000)] /\
  nextSegment (gen (Seq.background (Seq.background w)))
    = Some (S (length (heap (gen w)))) /\
  currentSegment (gen (Seq.background (Seq.background w))) = currentSegment (gen w) /\
  store_calls (Seq.background (Seq.background w)) = (store_calls w + 2)%nat /\
  spawned (Seq.background (Seq.background w)) = (spawned w - 2)%nat.
Proof.
  intros Hflag Hstep Hsp Hr1 Hm1 Hr2 Hm2.
  destruct (spawned w) as [|[|k]] eqn:Hspawned; try lia.
  rewrite (background_installs w (S k) m1) by assumption.
  rewrite (background_installs _ k m2) by (cbn; auto).
  cbn. rewrite Hstep, length_app, <- app_assoc. cbn.
  replace (m1 - 1000 + 1) with (m1 - 999) by lia.
  replace (m2 - 1000 + 1) with (m2 - 999) by lia.
  conj; auto; try lia. f_equal. lia.
Qed.

(** ** The test helper *)

Lemma sort_Slice_sorted (ids : list Z) : StronglySorted Z.le (sort_Slice ids).
Proof. apply StronglySorted_merge_sort; apply _. Qed.

Lemma sort_Slice_permutation (ids : list Z) : sort_Slice ids ≡ₚ ids.
Proof. apply merge_sort_Permutation. Qed.

(** On a sorted slice the loop reports nothing exactly when no value
    repeats. *)
Lemma check_adjacent_nil (l : list Z) : forall (i : nat) (p : Z),
  StronglySorted Z.le (p :: l) ->
  check_adjacent i p l = [] <-> NoDup (p :: l).
Proof.
  induction l as [|x l IH]; intros i p Hsorted; cbn [check_adjacent].
  - split; [intros _; repeat constructor; apply not_elem_of_nil|reflexivity].
  - apply StronglySorted_inv in Hsorted. destruct Hsorted as [Hrest Hp].
    pose proof (IH (S i) x Hrest) as IHx.
    apply Forall_cons in Hp. destruct Hp as [Hpx Hpl].
    pose proof Hrest as Hrest'. apply StronglySorted_inv in Hrest'.
    destruct Hrest' as [_ Hxl].
    split.
    + intros Hnil. apply app_eq_nil in Hnil. destruct Hnil as [Hdup Hnil].
      apply app_eq_nil in Hnil. destruct Hnil as [_ Hrec].
      destruct (Z.eqb_spec x p) as [|Hne]; [discriminate|].
      apply NoDup_cons. split; [|now apply IHx].
      rewrite elem_of_cons. intros [->|Hin]; [congruence|].
      rewrite Forall_forall in Hxl. specialize (Hxl p Hin). lia.
    + intros Hnd. apply NoDup_cons in Hnd. destruct Hnd as [Hnotin Hnd].
      assert (x <> p) by (intros ->; apply Hnotin; left).
      destruct (Z.eqb_spec x p); [congruence|].
      destruct (Z.leb_spec x p); [lia|]. cbn. now apply IHx.
Qed.

(** X17: [validateIDs] reports nothing exactly when the slice has the expected
    length and no value occurs twice in it. *)
Theorem validateIDs_passes_iff (ids : list Z) (expectedCount : nat) :
  validateIDs ids expectedCount = [] <->
  length ids = expectedCount /\ NoDup ids.
Proof.
  unfold validateIDs.
  pose proof (sort_Slice_sorted ids) as Hsorted.
  pose proof (sort_Slice_permutation ids) as Hperm.
  assert (Hcheck : match sort_Slice ids with
                   | [] => []
                   | first :: rest => check_adjacent 1 first rest
                   end = [] <-> NoDup ids).
  { assert (Hnd : NoDup (sort_Slice ids) <-> NoDup ids) by now rewrite Hperm.
    rewrite <- Hnd. clear Hnd Hperm. destruct (sort_Slice ids) as [|p l].
    - split; [intros _; constructor|reflexivity].
    - now apply check_adjacent_nil. }
  split.
  - intros Hnil. apply app_eq_nil in Hnil. destruct Hnil as [Hlen Hrest].
    split; [|now apply Hcheck].
    destruct (Nat.eqb_spec (length ids) expectedCount); [assumption|discriminate].
  - intros [Hlen Hnd]. rewrite (proj2 (Nat.eqb_eq _ _) Hlen).
    cbn [app]. now apply Hcheck.
Qed.

Lemma check_adjacent_reports (l : list Z) : forall (i j : nat) (p previous this : Z),
  StronglySorted Z.le (p :: l) ->
  In (NotIncreasing j previous this) (check_adjacent i p l) ->
  previous = this /\ In (Duplicate this) (check_adjacent i p l).
Proof.
  induction l as [|x l IH]; intros i j p previous this Hsorted; cbn [check_adjacent].
  - intros [].
  - apply StronglySorted_inv in Hsorted. destruct Hsorted as [Hrest Hp].
    apply Forall_cons in Hp. destruct Hp as [Hpx _].
    intros Hin. apply in_app_or in Hin. destruct Hin as [Hin|Hin].
    { destruct (x =? p); [|destruct Hin].
      destruct Hin as [[=]|[]]. }
    apply in_app_or in Hin. destruct Hin as [Hin|Hin].
    + destruct (Z.leb_spec x p) as [Hle|]; [|destruct Hin].
      destruct Hin as [[= <- <- <-]|[]].
      assert (x = p) as -> by lia. rewrite Z.eqb_refl.
      split; [reflexivity|]. left. reflexivity.
    + destruct (IH (S i) j x previous this Hrest Hin) as [Heq Hdup].
      split; [exact Heq|]. apply in_or_app. right. apply in_or_app. now right.
Qed.

(** X18: the check for increasing values comes after the sort, so it never
    reports values out of order: whenever it reports, the two values are
    equal and the duplicate was reported as well. *)
Theorem validateIDs_increasing_check_is_redundant
    (ids : list Z) (expectedCount i : nat) (previous this : Z) :
  In (NotIncreasing i previous this) (validateIDs ids expectedCount) ->
  previous = this /\ In (Duplicate this) (validateIDs ids expectedCount).
Proof.
  unfold validateIDs. intros Hin. apply in_app_or in Hin.
  destruct Hin as [Hin|Hin].
  { destruct (length ids =? expectedCount)%nat; [destruct Hin|].
    destruct Hin as [[=]|[]]. }
  pose proof (sort_Slice_sorted ids) as Hsorted.
  destruct (sort_Slice ids) as [|p l]; [destruct Hin|].
  destruct (check_adjacent_reports l 1 i p previous this Hsorted Hin) as [Heq Hdup].
  split; [exact Heq|]. apply in_or_app. now right.
Qed.

(** ** A generator started after another one *)

(** X6: a generator built on the same counter after another one stopped (or
    while it still runs, as long as the round trips of the first up to
    the end of its run came before those of the second) never returns an
    identifier the first one returned: under any interleaving on either
    side, the identifiers of the first are below those of the second. *)
Theorem ids_not_reused_after_restart
    (st st2 : nat -> StoreReply) (B : Z) (connected connected2 : bool)
    (w1 w2 : World) (sched1 sched2 : list Conc.event) (n' tid1 tid2 : nat) (x y : Z) :
  store_monotone st -> store_bounded B st ->
  B + Z.of_nat (length sched1) < Int64.max_int ->
  B + Z.of_nat (length sched2) < Int64.max_int ->
  Seq.NewSegmentIDGenerator connected st = Ok w1 ->
  (store_calls (Conc.world (Conc.run sched1 (Conc.mkConfig w1 []))) <= n')%nat ->
  (forall k, st2 k = st (n' + k)%nat) ->
  Seq.NewSegmentIDGenerator connected2 st2 = Ok w2 ->
  Conc.returned (Conc.run sched1 (Conc.mkConfig w1 [])) tid1 = Some (Ok x) ->
  Conc.returned (Conc.run sched2 (Conc.mkConfig w2 [])) tid2 = Some (Ok y) ->
  x < y.
Proof.
  intros Hm Hb Hroom1 Hroom2 Hnew1 Hcalls Hst2 Hnew2 Hx Hy.
  assert (Hm2 : store_monotone st2).
  { intros i j v v' Hij Hi Hj. rewrite Hst2 in Hi, Hj.
    apply (Hm (n' + i)%nat (n' + j)%nat); auto. lia. }
  assert (Hb2 : store_bounded B st2).
  { intros k v Hk. rewrite Hst2 in Hk. eapply Hb, Hk. }
  pose proof (run_from_new_inv st B connected w1 sched1 Hm Hb Hroom1 Hnew1) as Hinv1.
  pose proof (run_from_new_inv st2 B connected2 w2 sched2 Hm2 Hb2 Hroom2 Hnew2) as Hinv2.
  assert (Hclaim : forall st0 n log c tid z,
    inv st0 B n log c -> Conc.returned c tid = Some (Ok z) ->
    exists s k, (k < store_calls (Conc.world c))%nat /\ st0 k = StoreOk (Max s) /\
                Max s - 999 <= z <= Max s).
  { intros st0 n log c tid z Hinv Hret. unfold Conc.returned in Hret.
    destruct (Conc.threads c !! tid) as [t|] eqn:Ht; [|discriminate].
    destruct t; try discriminate. injection Hret as ->.
    destruct (inv_claimed _ _ _ _ _ Hinv tid _ z Ht eq_refl) as [a Hin].
    destruct (inv_log _ _ _ _ _ Hinv tid a z Hin) as (s & Hs & Hrange & _).
    destruct (inv_segments _ _ _ _ _ Hinv a s Hs) as [Hmin _ _ _ (k & Hk & Hgr)].
    exists s, k. conj; auto; lia. }
  destruct (Hclaim _ _ _ _ _ _ Hinv1 Hx) as (s1 & k1 & Hk1 & Hg1 & Hr1).
  destruct (Hclaim _ _ _ _ _ _ Hinv2 Hy) as (s2 & k2 & Hk2 & Hg2 & Hr2).
  rewrite Hst2 in Hg2.
  pose proof (Hm k1 (n' + k2)%nat _ _ ltac:(lia) Hg1 Hg2). lia.
Qed.

(** ** Callers that come one at a time, refills at any moment *)

Lemma calling_started (started : list Conc.pc) (tj : Conc.pc) :
  Forall (fun t0 => t0 = Conc.LCas Conc.FromGo) started ->
  In tj started -> calling tj = false.
Proof. intros H Hin. now rewrite (started_is_LCas started tj H Hin). Qed.

(** A step does not turn an idle thread into a caller. *)
Lemma trans_calling (w w' : World) (t t' : Conc.pc) (started : list Conc.pc) :
  Conc.trans w t (t', w', started) ->
  calling t = false -> calling t' = false.
Proof.
  inversion 1; subst; cbn; try discriminate; auto.
  all: destruct c as [k i|]; cbn; try discriminate; auto.
Qed.

(** [pc_state] and [active_ok] look at the two slots and the heap only. *)
Lemma pc_state_same (w w' : World) (t : Conc.pc) :
  currentSegment (gen w') = currentSegment (gen w) ->
  nextSegment (gen w') = nextSegment (gen w) ->
  heap (gen w') = heap (gen w) ->
  pc_state w t -> pc_state w' t.
Proof.
  intros Hc Hn Hh. unfold pc_state, fresh_current.
  destruct t as [i|i a|a id|id|id|id|k i|k i|i|i|i p|i|c|c|c v|c r|r|];
    try destruct c as [k0 i0|]; rewrite ?Hc, ?Hn, ?Hh; auto.
Qed.

Lemma active_ok_same (w w' : World) (P Q : Prop) :
  currentSegment (gen w') = currentSegment (gen w) ->
  nextSegment (gen w') = nextSegment (gen w) ->
  heap (gen w') = heap (gen w) ->
  (P -> Q) ->
  active_ok w P -> active_ok w' Q.
Proof.
  intros Hc Hn Hh HPQ (a & s & Hcur & Hs & Hfresh & Hnext).
  exists a, s. rewrite Hc, Hn, Hh. conj; auto.
  intros b Hb. destruct (Hnext b Hb) as [Hlen [Hlt|[-> HP]]]; auto.
Qed.

(** After [g.nextSegment.Store(newSegment)]. *)
Lemma fresh_current_published (w : World) (v : Z) :
  fresh_current w -> fresh_current (Conc.published v w).
Proof.
  intros (a & s & Hc & Hs & Hf). exists a, s. cbn. conj; auto.
  now apply lookup_app_l_Some.
Qed.

Lemma pc_state_published (w : World) (v : Z) (t : Conc.pc) :
  pc_state w t -> pc_state (Conc.published v w) t.
Proof.
  unfold pc_state.
  destruct t as [i|i a|a id|id|id|id|k i|k i|i|i|i p|i|c|c|c v0|c r|r|];
    try destruct c as [k0 i0|]; auto.
  - intros [?|[? ?]]; auto using fresh_current_published.
  - intros [Hc [?|[? ?]]]; split; auto using fresh_current_published.
  - cbn. rewrite length_app. cbn. lia.
  - intros [? _]. split; [assumption|]. cbn. discriminate.
  - intros (Hi & a & b & Hc & Hp & Hlt & Hle). split; [exact Hi|].
    exists a, b. cbn. rewrite length_app. cbn. conj; auto; try lia.
    intros b' [= <-]. lia.
  - intros [? ?]; split; auto using fresh_current_published.
Qed.

Lemma active_ok_published (w : World) (v : Z) (P Q : Prop) :
  step (gen w) = 1000 -> 0 < v <= Int64.max_int ->
  active_ok w P -> active_ok (Conc.published v w) Q.
Proof.
  intros Hstep Hv (a & s & Hcur & Hs & Hfresh & Hnext).
  pose proof (lookup_lt_Some _ _ _ Hs) as Hlen.
  destruct (newSegment_fields v 1000) as [Hc Hm]; [exact Hv|lia|].
  exists a, s. cbn. rewrite Hstep, Hm, Hc, length_app. cbn. conj; auto.
  - now apply lookup_app_l_Some.
  - intros b sb Hab Hb. apply lookup_app_Some in Hb. destruct Hb as [Hb|[_ Hb]]; [eauto|].
    apply list_lookup_singleton_Some in Hb. destruct Hb as [_ <-]. cbn. lia.
  - intros b [= <-]. split; [lia|]. left. lia.
Qed.

(** The errors a step can make a caller return. *)
Lemma trans_error (w w' : World) (t t' : Conc.pc) (started : list Conc.pc) :
  Conc.trans w t (t', w', started) ->
  forall e, t' = Conc.Done (Err e) ->
  pc_state w t -> (exists P, active_ok w P) ->
  t = Conc.Done (Err e) \/ switch_failure e.
Proof.
  inversion 1; subst; intros e He Hpc (P & a1 & s1 & Hcur & Hs & _);
    cbn in Hpc; try discriminate; try congruence.
  - (* the add on a dangling pointer *)
    destruct Hpc as [Hp _]. congruence.
  - (* shouldLoadNext on a dangling pointer *)
    match goal with H : heap _ !! _ = None |- _ => apply lookup_ge_None in H end. lia.
  - unfold Conc.switch_iter in He. destruct (S k <? Seq.maxRetries)%nat; discriminate.
  - (* no standby after the loop *)
    right. right. cbn in He. congruence.
  - (* the promotion is over *)
    destruct Hpc as [-> _]. discriminate.
  - (* the compare-and-swap failed *)
    destruct c as [k i|]; cbn in He; [|discriminate].
    unfold Conc.switch_iter in He. destruct (S k <? Seq.maxRetries)%nat; discriminate.
  - (* the release, after an error *)
    destruct c as [k i|]; cbn in He; [|discriminate].
    destruct r as [e0|].
    + destruct (k =? 2)%nat; [|discriminate].
      right. left. exists e0. injection He as <-. reflexivity.
    + unfold Conc.switch_iter in He. destruct (S k <? Seq.maxRetries)%nat; discriminate.
  - left. congruence.
Qed.


(** A step of a goroutine, or of a thread that has finished. *)
Lemma idle_step (w w' : World) (t t' : Conc.pc) (started : list Conc.pc) (P : Prop) :
  Conc.trans w t (t', w', started) ->
  calling t = false ->
  step (gen w) = 1000 ->
  (forall c v, t = Conc.LPublish c v -> 0 < v <= Int64.max_int) ->
  active_ok w P ->
  active_ok w' P /\ forall t0, pc_state w t0 -> pc_state w' t0.
Proof.
  inversion 1; subst; intros Hcall Hstep Hpub Hact; cbn in Hcall; try discriminate.
  all: try (split; [exact Hact|auto]).
  all: try (split; [apply (active_ok_same w _ P P); auto
                   |intros t0; apply pc_state_same; reflexivity]).
  split; [|intros t0; apply pc_state_published].
  apply (active_ok_published w maxID P P); eauto.
Qed.

Lemma active_ok_bumped (w : World) (a : addr) (s : Segment) (P Q : Prop) :
  currentSegment (gen w) = Some a ->
  heap (gen w) !! a = Some s ->
  (P -> Q) ->
  active_ok w P -> active_ok (Conc.bumped a s w) Q.
Proof.
  intros Hc Hs HPQ (a1 & s1 & Hcur & Hs1 & Hfresh & Hnext).
  assert (a1 = a) as -> by congruence.
  pose proof (lookup_lt_Some _ _ _ Hs) as Hlen.
  exists a, (mkSegment (Min s) (Max s) (Int64.add (Current s) 1)).
  cbn. rewrite length_insert. conj; auto.
  - now apply list_lookup_insert_eq.
  - intros b sb Hab Hb. rewrite list_lookup_insert_ne in Hb by lia. eauto.
  - intros b Hb. destruct (Hnext b Hb) as [Hl [Hlt|[-> HP]]]; auto.
Qed.

Lemma pc_state_switch_iter (w : World) (k i : nat) :
  i = 0%nat -> pc_state w (Conc.switch_iter k i).
Proof. intros ->. unfold Conc.switch_iter. destruct (k <? Seq.maxRetries)%nat; reflexivity. Qed.

Lemma switch_iter_not_SClear (k i : nat) : Conc.switch_iter k i <> Conc.SClear 0.
Proof. unfold Conc.switch_iter. destruct (k <? Seq.maxRetries)%nat; discriminate. Qed.

(** A step of the caller. *)
Lemma caller_step (w w' : World) (t t' : Conc.pc) (started : list Conc.pc) :
  Conc.trans w t (t', w', started) ->
  calling t = true ->
  step (gen w) = 1000 ->
  (forall a s, heap (gen w) !! a = Some s -> 0 < Max s <= Int64.max_int) ->
  (forall c v, t = Conc.LPublish c v -> 0 < v <= Int64.max_int) ->
  pc_state w t -> active_ok w (t = Conc.SClear 0) ->
  pc_state w' t' /\ active_ok w' (t' = Conc.SClear 0).
Proof.
  inversion 1; subst; intros Hcall Hstep Hseg Hpub Hpc Hact; cbn in Hcall;
    try discriminate.
  all: cbn in Hpc.
  all: try (split; [exact I|];
            refine (active_ok_same _ _ _ _ eq_refl eq_refl eq_refl _ Hact); discriminate).
  - split; [split; assumption|].
    refine (active_ok_same _ _ _ _ eq_refl eq_refl eq_refl _ Hact); discriminate.
  - (* the add that dispenses *)
    destruct Hpc as [Hp _]. split.
    + cbn. rewrite length_insert. eapply lookup_lt_Some; eassumption.
    + apply (active_ok_bumped w a s (Conc.NAdd i a = Conc.SClear 0)); auto. discriminate.
  - (* the add that finds the segment used up: the first round only *)
    destruct Hpc as [Hp Hround]. split.
    + apply pc_state_switch_iter. destruct Hround as [->|[-> (a1 & s1 & Hc1 & Hs1 & Hf)]]; auto.
      exfalso. assert (a1 = a) as -> by congruence. assert (s1 = s) as -> by congruence.
      destruct (Hseg a s Hs1) as [Hpos Hmax].
      rewrite add_no_overflow in * by int64. lia.
    + apply (active_ok_bumped w a s (Conc.NAdd i a = Conc.SClear 0)); auto. discriminate.
  - split; [exact Hpc|].
    refine (active_ok_same _ _ _ _ eq_refl eq_refl eq_refl _ Hact); discriminate.
  - split; [exact Hpc|].
    refine (active_ok_same _ _ _ _ eq_refl eq_refl eq_refl _ Hact); discriminate.
  - split; [now apply pc_state_switch_iter|].
    refine (active_ok_same _ _ _ _ eq_refl eq_refl eq_refl _ Hact); discriminate.
  - split; [split; [exact Hpc|congruence]|].
    refine (active_ok_same _ _ _ _ eq_refl eq_refl eq_refl _ Hact); discriminate.
  - (* the pointer to promote is loaded *)
    destruct Hpc as [-> Hset]. pose proof Hact as (a1 & s1 & Hc1 & Hs1 & Hf & Hn).
    destruct (nextSegment (gen w')) as [b|] eqn:Hnext; [|congruence].
    destruct (Hn b eq_refl) as [Hlen [Hlt|[_ [=]]]].
    split.
    + cbn. split; [reflexivity|]. exists a1, b. conj; auto.
      intros b' Hb'. rewrite Hnext in Hb'. injection Hb' as <-. lia.
    + refine (active_ok_same _ _ _ _ eq_refl eq_refl eq_refl _ Hact). discriminate.
  - (* it is stored in the active slot *)
    destruct Hpc as (-> & a & b & Hc & -> & [Hab Hlen] & Hle).
    destruct Hact as (a1 & s1 & Hc1 & Hs1 & Hf & Hn).
    assert (a1 = a) as -> by congruence.
    destruct (lookup_lt_is_Some_2 _ _ Hlen) as [sb Hsb].
    pose proof (Hf b sb Hab Hsb) as Hfresh.
    split.
    + cbn. split; [reflexivity|]. exists b, sb. cbn. auto.
    + exists b, sb. cbn. conj; auto.
      * intros b' sb' Hbb'. apply Hf. lia.
      * intros b' Hb'. destruct (Hn b' Hb') as [Hl _]. split; [exact Hl|].
        specialize (Hle b' Hb'). destruct (decide (b = b')) as [<-|Hne]; [now right|left; lia].
  - (* the standby slot is cleared *)
    destruct Hpc as (-> & a & s & Hc & Hs & Hf).
    split.
    + cbn. right. split; [reflexivity|]. exists a, s. cbn. auto.
    + destruct Hact as (a1 & s1 & Hc1 & Hs1 & Hf1 & _).
      exists a1, s1. cbn. conj; auto. discriminate.
  - destruct c as [k i|]; [|discriminate]. cbn in Hpc |- *.
    split; [now apply pc_state_switch_iter|].
    refine (active_ok_same _ _ _ _ eq_refl eq_refl eq_refl _ Hact); discriminate.
  - destruct c as [k i|]; [|discriminate].
    split; [exact Hpc|].
    refine (active_ok_same _ _ _ _ eq_refl eq_refl eq_refl _ Hact); discriminate.
  - destruct c as [k i|]; [|discriminate].
    split; [exact Hpc|].
    refine (active_ok_same _ _ _ _ eq_refl eq_refl eq_refl _ Hact); discriminate.
  - destruct c as [k i|]; [|discriminate].
    split; [exact Hpc|].
    refine (active_ok_same _ _ _ _ eq_refl eq_refl eq_refl _ Hact); discriminate.
  - destruct c as [k i|]; [|discriminate].
    split; [exact Hpc|].
    refine (active_ok_same _ _ _ _ eq_refl eq_refl eq_refl _ Hact); discriminate.
  - destruct c as [k i|]; [|discriminate].
    split; [exact Hpc|].
    apply (active_ok_published w maxID (Conc.LPublish (Conc.FromSwitch k i) maxID
                                        = Conc.SClear 0)); eauto.
  - destruct c as [k i|]; [|discriminate]. cbn in Hpc.
    split.
    + cbn. destruct r as [e|]; [|now apply pc_state_switch_iter].
      destruct (k =? 2)%nat; [exact I|exact Hpc].
    + refine (active_ok_same _ _ _ _ eq_refl eq_refl eq_refl _ Hact); discriminate.
Qed.


Lemma pc_state_idle (w : World) (t : Conc.pc) :
  calling t = false -> pc_state w t.
Proof.
  destruct t as [i|i a|a id|id|id|id|k i|k i|i|i|i p|i|c|c|c v|c r|r|];
    try destruct c as [k0 i0|]; cbn; try discriminate; auto.
Qed.

Section OneAtATime.

Variable st : nat -> StoreReply.
Variable B : Z.
Hypothesis Hmonotone : store_monotone st.
Hypothesis Hbounded : store_bounded B st.

(** One access of a thread keeps the invariant of the callers. *)
Lemma step_caller_inv (n : nat) (log : list (nat * addr * Z)) (c : Conc.Config)
    (tid : nat) (t : Conc.pc) :
  B + Z.of_nat n < Int64.max_int ->
  inv st B n log c ->
  caller_inv c ->
  Conc.threads c !! tid = Some t ->
  caller_inv (Conc.exec (Conc.Step tid) c).
Proof.
  intros Hroom Hinv [Hone Hstate Hact Herr] Ht.
  pose proof (step_thread_trans t (Conc.world c)) as Htrans.
  unfold Conc.exec. rewrite Ht.
  destruct (Conc.step_thread t (Conc.world c)) as [[t' w'] started].
  destruct (trans_frame _ _ _ _ _ Htrans) as (_ & _ & _ & Hstarted).
  pose proof (lookup_lt_Some _ _ _ Ht) as Hlen.
  assert (Hthread : forall j tj,
    (<[tid := t']> (Conc.threads c) ++ started) !! j = Some tj ->
    (j = tid /\ tj = t') \/
    (j <> tid /\ Conc.threads c !! j = Some tj) \/
    tj = Conc.LCas Conc.FromGo).
  { intros j tj Hj.
    destruct (lookup_stepped _ _ _ _ _ _ Hlen Hj) as [H|[H|H]]; auto.
    right. right. eapply started_is_LCas; eassumption. }
  assert (Hstays : forall j tj, j <> tid -> Conc.threads c !! j = Some tj ->
    (<[tid := t']> (Conc.threads c) ++ started) !! j = Some tj).
  { intros j tj Hne Hj. apply lookup_app_l_Some. now rewrite list_lookup_insert_ne. }
  assert (Hmoved : (<[tid := t']> (Conc.threads c) ++ started) !! tid = Some t').
  { apply lookup_app_l_Some. now apply list_lookup_insert_eq. }
  assert (Hstep : step (gen (Conc.world c)) = 1000) by apply (inv_step _ _ _ _ _ Hinv).
  assert (Hseg : forall a s, heap (gen (Conc.world c)) !! a = Some s ->
    0 < Max s <= Int64.max_int).
  { intros a s Hs. destruct (inv_segments _ _ _ _ _ Hinv a s Hs) as [_ Hpos _ _ (k & _ & Hg)].
    pose proof (Hbounded _ _ Hg). lia. }
  assert (Hpub : forall c0 v, t = Conc.LPublish c0 v -> 0 < v <= Int64.max_int).
  { intros c0 v ->.
    destruct (inv_publish _ _ _ _ _ Hinv tid c0 v Ht) as (Hpos & (k & _ & Hg) & _).
    pose proof (Hbounded _ _ Hg). lia. }
  pose proof (Hstate tid t Ht) as Hpc.
  assert (Hfail : forall e, t' = Conc.Done (Err e) -> switch_failure e).
  { intros e He.
    destruct (trans_error _ _ _ _ _ Htrans e He Hpc (ex_intro _ _ Hact)) as [->|H]; eauto. }
  destruct (calling t) eqn:Hcall.
  - (* the caller moves: the other threads are idle *)
    assert (Hidle : forall j tj, j <> tid -> Conc.threads c !! j = Some tj ->
      calling tj = false).
    { intros j tj Hne Hj. destruct (calling tj) eqn:E; [|reflexivity].
      exfalso. apply Hne. eapply Hone; eauto. }
    assert (Hact0 : active_ok (Conc.world c) (t = Conc.SClear 0)).
    { refine (active_ok_same _ _ _ _ eq_refl eq_refl eq_refl _ Hact).
      intros [j Hj]. destruct (decide (j = tid)) as [->|Hne]; [congruence|].
      pose proof (Hidle j _ Hne Hj). discriminate. }
    destruct (caller_step _ _ _ _ _ Htrans Hcall Hstep Hseg Hpub Hpc Hact0)
      as [Hpc' Hact'].
    split; cbn [Conc.world Conc.threads].
    + intros i j ti tj Hi Hj Hci Hcj.
      destruct (Hthread i ti Hi) as [[-> _]|[[Hne Hold]| ->]];
        [|rewrite (Hidle i ti Hne Hold) in Hci; discriminate|discriminate].
      destruct (Hthread j tj Hj) as [[-> _]|[[Hne Hold]| ->]];
        [reflexivity|rewrite (Hidle j tj Hne Hold) in Hcj; discriminate|discriminate].
    + intros j tj Hj.
      destruct (Hthread j tj Hj) as [[-> ->]|[[Hne Hold]| ->]];
        [exact Hpc'|apply pc_state_idle; eauto|exact I].
    + refine (active_ok_same _ _ _ _ eq_refl eq_refl eq_refl _ Hact').
      intros ->. now exists tid.
    + intros j e Hj.
      destruct (Hthread j _ Hj) as [[-> He]|[[Hne Hold]|[=]]]; eauto.
  - (* a goroutine moves, or a thread that has finished *)
    destruct (idle_step _ _ _ _ _ _ Htrans Hcall Hstep Hpub Hact) as [Hact' Hmono].
    pose proof (trans_calling _ _ _ _ _ Htrans Hcall) as Hcall'.
    split; cbn [Conc.world Conc.threads].
    + intros i j ti tj Hi Hj Hci Hcj.
      destruct (Hthread i ti Hi) as [[-> ->]|[[Hne Hold]| ->]];
        [congruence| |discriminate].
      destruct (Hthread j tj Hj) as [[-> ->]|[[Hne' Hold']| ->]];
        [congruence| |discriminate].
      eapply Hone; eauto.
    + intros j tj Hj.
      destruct (Hthread j tj Hj) as [[-> ->]|[[Hne Hold]| ->]];
        [now apply pc_state_idle|apply Hmono; eauto|exact I].
    + refine (active_ok_same _ _ _ _ eq_refl eq_refl eq_refl _ Hact').
      intros [j Hj]. exists j. apply Hstays; [|exact Hj].
      intros ->. rewrite Ht in Hj. injection Hj as ->. discriminate.
    + intros j e Hj.
      destruct (Hthread j _ Hj) as [[-> He]|[[Hne Hold]|[=]]]; eauto.
Qed.

(** A caller enters [NextID] when the callers before it have returned. *)
Lemma arrive_caller_inv (c : Conc.Config) :
  forallb (fun t => negb (calling t)) (Conc.threads c) = true ->
  caller_inv c ->
  caller_inv (Conc.exec Conc.Arrive c).
Proof.
  intros Hall [Hone Hstate Hact Herr].
  assert (Hidle : forall j tj, Conc.threads c !! j = Some tj -> calling tj = false).
  { intros j tj Hj. rewrite forallb_forall in Hall.
    apply negb_true_iff, Hall, list_elem_of_In. eapply list_elem_of_lookup_2, Hj. }
  assert (Hthread : forall j tj,
    (Conc.threads c ++ [Conc.NextID_iter 0]) !! j = Some tj ->
    Conc.threads c !! j = Some tj \/ (j = length (Conc.threads c) /\ tj = Conc.NLoad 0)).
  { intros j tj Hj. apply lookup_app_Some in Hj. destruct Hj as [Hj|[Hge Hj]]; [auto|].
    apply list_lookup_singleton_Some in Hj. destruct Hj as [Hz <-]. right. split; [lia|reflexivity]. }
  split; cbn [Conc.exec Conc.world Conc.threads].
  - intros i j ti tj Hi Hj Hci Hcj.
    destruct (Hthread i ti Hi) as [Hold|[-> _]];
      [rewrite (Hidle i ti Hold) in Hci; discriminate|].
    destruct (Hthread j tj Hj) as [Hold|[-> _]];
      [rewrite (Hidle j tj Hold) in Hcj; discriminate|reflexivity].
  - intros j tj Hj. destruct (Hthread j tj Hj) as [Hold|[_ ->]]; [eauto|now left].
  - refine (active_ok_same _ _ _ _ eq_refl eq_refl eq_refl _ Hact).
    intros [j Hj]. exists j. now apply lookup_app_l_Some.
  - intros j e Hj. destruct (Hthread j _ Hj) as [Hold|[_ [=]]]. eauto.
Qed.

Lemma run_caller_inv (schedule : list Conc.event) :
  forall (n : nat) (log : list (nat * addr * Z)) (c : Conc.Config),
  B + Z.of_nat (n + length schedule) < Int64.max_int ->
  inv st B n log c ->
  caller_inv c ->
  one_at_a_time schedule c = true ->
  caller_inv (Conc.run schedule c).
Proof.
  induction schedule as [|e rest IH]; intros n log c Hroom Hinv Hci Hsched; [exact Hci|].
  cbn [one_at_a_time] in Hsched. apply andb_true_iff in Hsched.
  destruct Hsched as [He Hrest]. cbn [length] in Hroom.
  change (Conc.run (e :: rest) c) with (Conc.run rest (Conc.exec e c)).
  apply (IH (S n) (log ++ Conc.claims_of_event e c)); [lia| | |exact Hrest].
  - apply (exec_inv st B Hmonotone Hbounded); [lia|exact Hinv].
  - destruct e as [|tid]; [now apply arrive_caller_inv|].
    destruct (Conc.threads c !! tid) as [t|] eqn:Ht.
    + apply (step_caller_inv n log c tid t); auto. lia.
    + unfold Conc.exec. rewrite Ht. exact Hci.
Qed.

Lemma NewSegmentIDGenerator_caller_inv (connected : bool) (w : World) :
  B < Int64.max_int ->
  Seq.NewSegmentIDGenerator connected st = Ok w ->
  caller_inv (Conc.mkConfig w []).
Proof.
  intros Hroom Hnew.
  destruct (NewSegmentIDGenerator_seq_inv st B Hbounded connected w Hroom Hnew)
    as (m & _ & _ & Hgen & _).
  split; cbn [Conc.world Conc.threads].
  - intros i j ti tj [=].
  - intros tid t [=].
  - exists 0%nat, (mkSegment (m - 999) m (m - 1000)). rewrite Hgen. cbn. conj; auto.
    + intros b sb Hb Hsb. apply list_lookup_singleton_Some in Hsb. lia.
    + intros b [=].
  - intros tid e [=].
Qed.

End OneAtATime.

(** X8: on a generator the constructor built, when the callers enter
    [NextID] one at a time, each after the one before it has returned,
    while the refill goroutines they started make their accesses at any
    moment in between, an error of [NextID] is an error of
    [switchSegment]: either "failed to switch segment: switch segment
    failed after 3 retries: ...", the third attempt having failed, or
    "failed to switch segment: failed to load next segment", the three
    attempts having returned nil with the standby slot still empty.  It is
    never "no available segment" nor "failed to generate id after
    retry". *)
Theorem NextID_one_at_a_time_fails_by_switch_only
    (st : nat -> StoreReply) (B : Z) (connected : bool) (w : World)
    (schedule : list Conc.event) (tid : nat) (e : error) :
  store_monotone st -> store_bounded B st ->
  B + Z.of_nat (length schedule) < Int64.max_int ->
  Seq.NewSegmentIDGenerator connected st = Ok w ->
  one_at_a_time schedule (Conc.mkConfig w []) = true ->
  Conc.returned (Conc.run schedule (Conc.mkConfig w [])) tid = Some (Err e) ->
  switch_failure e.
Proof.
  intros Hm Hb Hroom Hnew Hsched Hret.
  assert (Hci : caller_inv (Conc.run schedule (Conc.mkConfig w []))).
  { apply (run_caller_inv st B Hm Hb schedule 0 [] (Conc.mkConfig w [])); auto.
    - apply (NewSegmentIDGenerator_inv st B Hb connected); [lia|exact Hnew].
    - apply (NewSegmentIDGenerator_caller_inv st B Hb connected); [lia|exact Hnew]. }
  unfold Conc.returned in Hret.
  destruct (Conc.threads _ !! tid) as [t|] eqn:Ht; [|discriminate].
  destruct t; try discriminate. injection Hret as ->.
  exact (ci_errors _ Hci tid e Ht).
Qed.

(** * The further theorems at concrete inputs *)

Lemma outage_store_healthy (k : nat) (v : Z) :
  outage_store k = StoreOk v -> healthy_store k = StoreOk v.
Proof. destruct k as [|[|[|[|k]]]]; cbn [outage_store]; auto; discriminate. Qed.

Lemma outage_store_monotone : store_monotone outage_store.
Proof.
  intros i j v v' Hij Hi Hj.
  eapply healthy_store_monotone; eauto using outage_store_healthy.
Qed.

Lemma outage_store_bounded : store_bounded (2 ^ 62) outage_store.
Proof. intros k v Hk. eapply healthy_store_bounded, outage_store_healthy, Hk. Qed.

Lemma low_store_typed : store_typed low_store.
Proof.
  intros k v. unfold low_store.
  destruct (healthy_store k) as [|v0] eqn:Hk; [discriminate|].
  intros [= <-]. pose proof (healthy_store_typed k v0 Hk) as Hr.
  unfold healthy_store in Hk. destruct (Z.leb_spec (1000 * (Z.of_nat k + 1)) (2 ^ 62));
    [|discriminate].
  injection Hk as <-. unfold Int64.in_range, Int64.min_int, Int64.max_int in *. lia.
Qed.

Lemma returned_id_within_granted_range_witness :
  exists a s k,
    In (0%nat, a, 1)
       (Conc.dispensed (one_caller 6 (Conc.mkConfig fresh_generator []))
                       (Conc.mkConfig fresh_generator [])) /\
    heap (gen (Conc.world (Conc.run (one_caller 6 (Conc.mkConfig fresh_generator []))
                                    (Conc.mkConfig fresh_generator [])))) !! a = Some s /\
    (k < store_calls (Conc.world
           (Conc.run (one_caller 6 (Conc.mkConfig fresh_generator []))
                     (Conc.mkConfig fresh_generator []))))%nat /\
    healthy_store k = StoreOk (Max s) /\
    0 < Max s /\ Max s - 999 <= 1 <= Max s.
Proof.
  apply (returned_id_within_granted_range healthy_store (2 ^ 62) true fresh_generator
           (one_caller 6 (Conc.mkConfig fresh_generator [])) 0 1).
  - exact healthy_store_monotone.
  - exact healthy_store_bounded.
  - vm_compute. reflexivity.
  - reflexivity.
  - vm_compute. reflexivity.
Defined.

Lemma refill_is_exclusive_witness :
  800%nat = 800%nat /\
  loadingFlag (gen (Conc.world (Conc.run prefetching (Conc.mkConfig fresh_generator []))))
  = true.
Proof.
  apply (refill_is_exclusive healthy_store (2 ^ 62) true fresh_generator prefetching
           800 800 (Conc.LFetch Conc.FromGo) (Conc.LFetch Conc.FromGo)).
  - exact healthy_store_monotone.
  - exact healthy_store_bounded.
  - vm_compute. reflexivity.
  - reflexivity.
  - vm_compute. reflexivity.
  - vm_compute. reflexivity.
  - reflexivity.
  - reflexivity.
Defined.

Lemma sequential_ids_increasing_witness :
  StronglySorted Z.lt (ids_of (replicate 1001 CallNextID) fresh_generator) /\
  forall m, healthy_store 0%nat = StoreOk m ->
    Forall (fun x => m - 1000 < x) (ids_of (replicate 1001 CallNextID) fresh_generator).
Proof.
  apply (sequential_ids_increasing healthy_store (2 ^ 62) true fresh_generator
           (replicate 1001 CallNextID)).
  - exact healthy_store_monotone.
  - exact healthy_store_bounded.
  - vm_compute. reflexivity.
  - reflexivity.
Defined.

Lemma NextID_in_service_fails_only_on_outage_witness :
  (exists e', ErrSwitch (ErrSwitchRetries 3 ErrLoadSegment)
              = ErrSwitch (ErrSwitchRetries 3 e')) /\
  nextSegment (gen (run_ops (replicate 1000 CallNextID) outage_generator)) = None /\
  store_calls (snd (Seq.NextID (run_ops (replicate 1000 CallNextID) outage_generator)))
  = (store_calls (run_ops (replicate 1000 CallNextID) outage_generator) + 3)%nat /\
  forall j, (j < 3)%nat ->
    refused (outage_store
               (store_calls (run_ops (replicate 1000 CallNextID) outage_generator) + j)%nat)
    = true.
Proof.
  apply (NextID_in_service_fails_only_on_outage outage_store (2 ^ 62) true
           outage_generator (replicate 1000 CallNextID)).
  - exact outage_store_monotone.
  - exact outage_store_bounded.
  - vm_compute. reflexivity.
  - reflexivity.
  - vm_compute. reflexivity.
Defined.

Lemma NextID_one_at_a_time_fails_by_switch_only_witness :
  switch_failure (ErrSwitch ErrLoadNext).
Proof.
  apply (NextID_one_at_a_time_fails_by_switch_only healthy_store (2 ^ 62) true
           fresh_generator in_flight_exhaustion 1001).
  - exact healthy_store_monotone.
  - exact healthy_store_bounded.
  - vm_compute. reflexivity.
  - reflexivity.
  - vm_compute. reflexivity.
  - vm_compute. reflexivity.
Defined.

(** The run of the witness: the store is healthy throughout (one round trip
    made, the next reply would be 2000), the goroutine of the 800th call
    holds the flag and waits, and the caller that finds the segment used up
    gets "failed to load next segment". *)
Example in_flight_exhaustion_run :
  let c := Conc.run in_flight_exhaustion (Conc.mkConfig fresh_generator []) in
  Conc.threads c !! 800%nat = Some (Conc.LFetch Conc.FromGo) /\
  Conc.returned c 1001 = Some (Err (ErrSwitch ErrLoadNext)) /\
  store_calls (Conc.world c) = 1%nat /\
  store (Conc.world c) (store_calls (Conc.world c)) = StoreOk 2000.
Proof. vm_compute. repeat split; reflexivity. Qed.

Lemma NextID_fails_while_refill_in_flight_witness :
  Seq.NextID refill_in_flight
  = (Err (ErrSwitch ErrLoadNext),
     advanced 0%nat (mkSegment 1 1000 1000) refill_in_flight) /\
  store_calls (advanced 0%nat (mkSegment 1 1000 1000) refill_in_flight)
  = store_calls refill_in_flight /\
  slept (advanced 0%nat (mkSegment 1 1000 1000) refill_in_flight)
  = slept refill_in_flight /\
  (exists n,
     Conc.solo n (Conc.NextID_iter 0) refill_in_flight
     = (Conc.Done (Err (ErrSwitch ErrLoadNext)),
        advanced 0%nat (mkSegment 1 1000 1000) refill_in_flight, [])) /\
  (forall (s2 : Segment) (w1 w2 w3 w4 w5 w6 w7 w8 w9 : World),
     currentSegment (gen w1) = Some 0%nat ->
     heap (gen w2) !! 0%nat = Some s2 ->
     Max s2 <= Current s2 -> Int64.in_range (Current s2 + 1) ->
     nextSegment (gen w3) = None -> loadingFlag (gen w4) = true ->
     nextSegment (gen w5) = None -> loadingFlag (gen w6) = true ->
     nextSegment (gen w7) = None -> loadingFlag (gen w8) = true ->
     nextSegment (gen w9) = None ->
     steps_in [w1; w2; w3; w4; w5; w6; w7; w8; w9] (Conc.NextID_iter 0)
     = (Conc.Done (Err (ErrSwitch ErrLoadNext)), []) /\
     worlds_in [w1; w2; w3; w4; w5; w6; w7; w8; w9] (Conc.NextID_iter 0)
     = [w1; advanced 0%nat s2 w2; w3; w4; w5; w6; w7; w8; w9]).
Proof.
  apply (NextID_fails_while_refill_in_flight refill_in_flight 0%nat
           (mkSegment 1 1000 1000)).
  - reflexivity.
  - reflexivity.
  - cbn. lia.
  - unfold Int64.in_range, Int64.min_int, Int64.max_int. cbn. lia.
  - reflexivity.
  - reflexivity.
Defined.

Lemma NextID_promotes_ready_standby_witness :
  exists w',
    Seq.NextID used_up_generator = (Ok (1000 + 1), w') /\
    currentSegment (gen w') = Some 1%nat /\
    nextSegment (gen w') = None /\
    heap (gen w') !! 1%nat = Some (mkSegment 1001 2000 (1000 + 1)) /\
    heap (gen w') !! 0%nat = Some (mkSegment 1 1000 (1000 + 1)) /\
    store_calls w' = store_calls used_up_generator /\
    slept w' = slept used_up_generator /\
    exists n started,
      Conc.solo n (Conc.NextID_iter 0) used_up_generator
      = (Conc.Done (Ok (1000 + 1)), w', started).
Proof.
  apply (NextID_promotes_ready_standby used_up_generator 0%nat 1%nat
           (mkSegment 1 1000 1000) (mkSegment 1001 2000 1000)).
  - vm_compute. reflexivity.
  - vm_compute. reflexivity.
  - cbn. lia.
  - unfold Int64.in_range, Int64.min_int, Int64.max_int. cbn. lia.
  - vm_compute. reflexivity.
  - vm_compute. reflexivity.
  - unfold Int64.min_int. cbn. lia.
  - unfold Int64.max_int. cbn. lia.
  - cbn. lia.
Defined.

Lemma NewSegmentIDGenerator_outcome_witness :
  exists w, Seq.NewSegmentIDGenerator true low_store = Ok w /\
            fst (Seq.NextID w) = Ok (-994).
Proof.
  pose proof (NewSegmentIDGenerator_outcome true low_store low_store_typed) as H.
  destruct (Seq.NewSegmentIDGenerator true low_store) as [w|e] eqn:Hnew.
  - exists w. split; [reflexivity|].
    destruct H as (_ & m & Hreply & _ & _ & _ & _ & _ & _ & Hfirst & _).
    vm_compute in Hreply. injection Hreply as <-. exact Hfirst.
  - exfalso. destruct H as [[[=] _]|[(_ & Hreply & _)|(_ & m & Hreply & Hle & _)]].
    + vm_compute in Hreply. discriminate.
    + vm_compute in Hreply. injection Hreply as <-. lia.
Defined.

Lemma refills_in_a_row_waste_a_range_witness :
  heap (gen (Seq.background (Seq.background
               (run_ops (replicate 801 CallNextID) fresh_generator))))
  = heap (gen (run_ops (replicate 801 CallNextID) fresh_generator))
    ++ [mkSegment (2000 - 999) 2000 (2000 - 1000);
        mkSegment (3000 - 999) 3000 (3000 - 1000)] /\
  nextSegment (gen (Seq.background (Seq.background
                      (run_ops (replicate 801 CallNextID) fresh_generator))))
  = Some (S (length (heap (gen (run_ops (replicate 801 CallNextID) fresh_generator))))) /\
  currentSegment (gen (Seq.background (Seq.background
                         (run_ops (replicate 801 CallNextID) fresh_generator))))
  = currentSegment (gen (run_ops (replicate 801 CallNextID) fresh_generator)) /\
  store_calls (Seq.background (Seq.background
                 (run_ops (replicate 801 CallNextID) fresh_generator)))
  = (store_calls (run_ops (replicate 801 CallNextID) fresh_generator) + 2)%nat /\
  spawned (Seq.background (Seq.background
             (run_ops (replicate 801 CallNextID) fresh_generator)))
  = (spawned (run_ops (replicate 801 CallNextID) fresh_generator) - 2)%nat.
Proof.
  apply (refills_in_a_row_waste_a_range
           (run_ops (replicate 801 CallNextID) fresh_generator) 2000 3000).
  - vm_compute. reflexivity.
  - vm_compute. reflexivity.
  - vm_compute. lia.
  - vm_compute. reflexivity.
  - unfold Int64.max_int. lia.
  - vm_compute. reflexivity.
  - unfold Int64.max_int. lia.
Defined.

Lemma NextID_wraps_at_MaxInt64_witness :
  exists w',
    Seq.NextID last_segment = (Ok (Int64.add Int64.max_int 1), w') /\
    currentSegment (gen w') = Some 0%nat /\
    store_calls w' = store_calls last_segment /\
    (Int64.max_int = Int64.max_int -> Int64.add Int64.max_int 1 = Int64.min_int).
Proof.
  apply (NextID_wraps_at_MaxInt64 last_segment 0%nat
           (mkSegment (Int64.max_int - 999) Int64.max_int Int64.max_int)).
  - reflexivity.
  - reflexivity.
  - reflexivity.
Defined.

Lemma served_ids_increasing_witness :
  StronglySorted Z.lt
    (ids_served (fst (serve [GetID; GetBatch (Some 3); Serve false; Serve true;
                             Refill; GetBatch None] fresh_generator))) /\
  Forall well_formed
    (fst (serve [GetID; GetBatch (Some 3); Serve false; Serve true;
                 Refill; GetBatch None] fresh_generator)).
Proof.
  apply (served_ids_increasing healthy_store (2 ^ 62) true fresh_generator).
  - exact healthy_store_monotone.
  - exact healthy_store_bounded.
  - vm_compute. reflexivity.
  - reflexivity.
Defined.

Lemma failed_batch_burns_ids_witness :
  (exists e, fst (handle_batch (Some 5) (snd (serve [GetBatch (Some 998)] outage_generator)))
             = mkResponse StatusInternalServerError [ErrorText e]) /\
  forall x y,
    In x (fst (fst (batch_loop (Z.to_nat (batch_count (Some 5))) []
                      (snd (serve [GetBatch (Some 998)] outage_generator))))) ->
    In y (ids_served (fst (serve [GetID]
            (snd (handle_batch (Some 5)
                    (snd (serve [GetBatch (Some 998)] outage_generator))))))) ->
    x < y.
Proof.
  apply (failed_batch_burns_ids outage_store (2 ^ 62) true outage_generator
           [GetBatch (Some 998)] [GetID] (Some 5)).
  - exact outage_store_monotone.
  - exact outage_store_bounded.
  - vm_compute. reflexivity.
  - reflexivity.
  - vm_compute. discriminate.
Defined.

Lemma validateIDs_increasing_check_is_redundant_witness :
  3 = 3 /\ In (Duplicate 3) (validateIDs [3; 1; 3] 3).
Proof.
  apply (validateIDs_increasing_check_is_redundant [3; 1; 3] 3 2 3 3).
  vm_compute. right. left. reflexivity.
Defined.

Lemma ids_not_reused_after_restart_witness :
  Conc.returned (Conc.run (one_caller 6 (Conc.mkConfig fresh_generator []))
                          (Conc.mkConfig fresh_generator [])) 0
  = Some (Ok 1) /\
  Conc.returned (Conc.run (one_caller 6 (Conc.mkConfig restarted_generator []))
                          (Conc.mkConfig restarted_generator [])) 0
  = Some (Ok 1001) /\
  1 < 1001.
Proof.
  assert (H1 : Conc.returned
                 (Conc.run (one_caller 6 (Conc.mkConfig fresh_generator []))
                           (Conc.mkConfig fresh_generator [])) 0
               = Some (Ok 1)) by (vm_compute; reflexivity).
  assert (H2 : Conc.returned
                 (Conc.run (one_caller 6 (Conc.mkConfig restarted_generator []))
                           (Conc.mkConfig restarted_generator [])) 0
               = Some (Ok 1001)) by (vm_compute; reflexivity).
  split; [exact H1|]. split; [exact H2|].
  apply (ids_not_reused_after_restart healthy_store healthy_store_later (2 ^ 62)
           true true fresh_generator restarted_generator
           (one_caller 6 (Conc.mkConfig fresh_generator []))
           (one_caller 6 (Conc.mkConfig restarted_generator []))
           1 0 0 1 1001).
  - exact healthy_store_monotone.
  - exact healthy_store_bounded.
  - vm_compute. reflexivity.
  - vm_compute. reflexivity.
  - reflexivity.
  - vm_compute. lia.
  - reflexivity.
  - reflexivity.
  - exact H1.
  - exact H2.
Defined.

(** ** Two refills in a row, evaluated *)

(** On a fresh generator the calls 800 and 801 each start a goroutine when
    none has run yet.  When both then run one after the other, three round
    trips were made in all, and the call after identifier 1000 returns
    2001: the range 1001..2000 is skipped. *)
Example scenario_two_refills :
  spawned (run_ops (replicate 801 CallNextID) fresh_generator) = 2%nat /\
  store_calls (run_ops (replicate 801 CallNextID ++ [RunBackground; RunBackground])
                       fresh_generator) = 3%nat /\
  fst (Seq.NextID (run_ops (replicate 801 CallNextID ++ [RunBackground; RunBackground]
                            ++ replicate 199 CallNextID) fresh_generator))
  = Ok 2001.
Proof. vm_compute. repeat split; reflexivity. Qed.
